(** * fast-mailer: a shallow embedding of [src/mailer/mailer.ts]

    The class [FastMailer] is embedded as functions over an explicit mailer
    state.  JavaScript strings are modelled as [string] (a sequence of
    character codes), a [Map] as [gmap], a plain object as the list of its
    properties, integer valued numbers (counters, millisecond time stamps)
    as [Z] and the fractional ones (seconds, averages) as [Q].  The burst
    limit, which the caller chooses and which the mailer only compares
    a count with, is any JavaScript number ([jsnum]); the durations and the
    limits on failures and on rapid attempts of the configuration are taken
    to be whole numbers.

    [Q] is exact where a double is rounded.  The properties proved here
    are about the counters and about comparisons of a duration with a
    bucket cutoff; for a whole number of milliseconds [t] and a cutoff [b] of the
    histogram, [t / 1000 <= b] has the same answer in both. *)

From Stdlib Require Import ZArith QArith List Bool Ascii String Lia.
From stdpp Require Import base option gmap strings list fin_maps.

Set Warnings "-register-all".

Local Open Scope string_scope.
Local Open Scope Z_scope.

(** ** JavaScript string primitives used by the mailer *)

Module JsString.

Definition chr (n : nat) : ascii := ascii_of_nat n.

Definition TAB : ascii := chr 9.
Definition LF : ascii := chr 10.
Definition VT : ascii := chr 11.
Definition FF : ascii := chr 12.
Definition CR : ascii := chr 13.
Definition DQUOTE : ascii := chr 34.

Definition CRLF : string := String CR (String LF EmptyString).

(** [s.startsWith(p)] *)
Fixpoint startsWith (s p : string) : bool :=
  match p, s with
  | EmptyString, _ => true
  | String _ _, EmptyString => false
  | String a p', String b s' => if Ascii.eqb a b then startsWith s' p' else false
  end.

(** [s.includes(p)] *)
Fixpoint includes (s p : string) : bool :=
  startsWith s p ||
  match s with
  | EmptyString => false
  | String _ s' => includes s' p
  end.

Fixpoint rev_string (s acc : string) : string :=
  match s with
  | EmptyString => acc
  | String a s' => rev_string s' (String a acc)
  end.

(** [s.endsWith(p)] *)
Definition endsWith (s p : string) : bool :=
  startsWith (rev_string s EmptyString) (rev_string p EmptyString).

(** [xs.join(sep)] *)
Fixpoint join (sep : string) (xs : list string) : string :=
  match xs with
  | [] => ""
  | [x] => x
  | x :: rest => x ++ sep ++ join sep rest
  end.

(** Truthiness of a string: only the empty string is falsy. *)
Definition truthy (s : string) : bool :=
  match s with EmptyString => false | _ => true end.

(** [s.toUpperCase()] / [s.toLowerCase()] on the ASCII letters. *)
Definition upper_ascii (a : ascii) : ascii :=
  let n := nat_of_ascii a in
  if (97 <=? n)%nat && (n <=? 122)%nat then ascii_of_nat (n - 32) else a.

Definition lower_ascii (a : ascii) : ascii :=
  let n := nat_of_ascii a in
  if (65 <=? n)%nat && (n <=? 90)%nat then ascii_of_nat (n + 32) else a.

Fixpoint map_string (f : ascii -> ascii) (s : string) : string :=
  match s with
  | EmptyString => EmptyString
  | String a s' => String (f a) (map_string f s')
  end.

Definition toUpperCase : string -> string := map_string upper_ascii.
Definition toLowerCase : string -> string := map_string lower_ascii.

(** The character [c] occurs in [s]. *)
Fixpoint contains (c : ascii) (s : string) : bool :=
  match s with
  | EmptyString => false
  | String a s' => Ascii.eqb a c || contains c s'
  end.

End JsString.

(** ** Regular expressions

    [emailRegex] uses only character classes, grouping, [?], [*], [+] and the
    two anchors, so [emailRegex.test(s)] holds exactly when the whole of [s]
    belongs to the language of the expression between [^] and [$].  The
    matcher below decides that membership by derivatives. *)

Module Regex.

Inductive regex : Type :=
| Void : regex
| Eps : regex
| Cls : (ascii -> bool) -> regex
| Cat : regex -> regex -> regex
| Alt : regex -> regex -> regex
| Star : regex -> regex.

(** [r?] and [r+] *)
Definition Opt (r : regex) : regex := Alt Eps r.
Definition Plus (r : regex) : regex := Cat r (Star r).

Fixpoint nullable (r : regex) : bool :=
  match r with
  | Void => false
  | Eps => true
  | Cls _ => false
  | Cat a b => nullable a && nullable b
  | Alt a b => nullable a || nullable b
  | Star _ => true
  end.

Definition cat (a b : regex) : regex :=
  match a, b with
  | Void, _ => Void
  | _, Void => Void
  | Eps, _ => b
  | _, _ => Cat a b
  end.

Definition alt (a b : regex) : regex :=
  match a, b with
  | Void, _ => b
  | _, Void => a
  | _, _ => Alt a b
  end.

Fixpoint deriv (c : ascii) (r : regex) : regex :=
  match r with
  | Void => Void
  | Eps => Void
  | Cls p => if p c then Eps else Void
  | Cat a b =>
      if nullable a then alt (cat (deriv c a) b) (deriv c b)
      else cat (deriv c a) b
  | Alt a b => alt (deriv c a) (deriv c b)
  | Star a => cat (deriv c a) (Star a)
  end.

(** [/^r$/.test(s)] *)
Fixpoint test (r : regex) (s : string) : bool :=
  match s with
  | EmptyString => nullable r
  | String c s' => test (deriv c r) s'
  end.

(** Character classes. *)
Definition in_range (lo hi : nat) (c : ascii) : bool :=
  let n := nat_of_ascii c in (lo <=? n)%nat && (n <=? hi)%nat.

Definition one_of (s : string) (c : ascii) : bool :=
  existsb (Ascii.eqb c) (list_ascii_of_string s).

Definition lit (c : ascii) : regex := Cls (Ascii.eqb c).

End Regex.

(** ** Address validator *)

Section Validator.
Import JsString Regex.

(** [[a-zA-Z0-9]] *)
Definition alnum (c : ascii) : bool :=
  in_range 97 122 c || in_range 65 90 c || in_range 48 57 c.

(** [[a-zA-Z0-9!#$%&'*+\-/=?^_`{|}~]] *)
Definition local_char (c : ascii) : bool :=
  alnum c || one_of "!#$%&'*+-/=?^_`{|}~" c.

(** [[a-zA-Z0-9-]] *)
Definition domain_char (c : ascii) : bool :=
  alnum c || one_of "-" c.

(** [[a-zA-Z0-9](?:[a-zA-Z0-9!#$%&'*+\-/=?^_`{|}~]*[a-zA-Z0-9])?] *)
Definition local_atom : regex :=
  Cat (Cls alnum) (Opt (Cat (Star (Cls local_char)) (Cls alnum))).

(** [[a-zA-Z0-9](?:[a-zA-Z0-9-]*[a-zA-Z0-9])?] *)
Definition domain_label : regex :=
  Cat (Cls alnum) (Opt (Cat (Star (Cls domain_char)) (Cls alnum))).

(** The expression of [validateEmail], between its anchors:
    local atom, [(?:\. local atom)*], [@], domain label,
    [(?:\. domain label)+]. *)
Definition emailRegex : regex :=
  Cat local_atom
    (Cat (Star (Cat (lit ".") local_atom))
      (Cat (lit "@")
        (Cat domain_label
          (Plus (Cat (lit ".") domain_label))))).

Definition validateEmail (email : string) : bool :=
  if negb (truthy email) || includes email " " || includes email ".."
     || startsWith email "." || endsWith email "." || includes email "@@"
  then false
  else test emailRegex email.

End Validator.

(** ** Header sanitizer *)

Section Sanitizer.
Import JsString.

(** The class [[\r\n\t\v\f]]. *)
Definition header_unsafe (c : ascii) : bool :=
  Ascii.eqb c CR || Ascii.eqb c LF || Ascii.eqb c TAB
  || Ascii.eqb c VT || Ascii.eqb c FF.

(** [value.replace(/[\r\n\t\v\f]/g, '')] *)
Fixpoint sanitizeHeader (value : string) : string :=
  match value with
  | EmptyString => EmptyString
  | String c rest =>
      if header_unsafe c then sanitizeHeader rest
      else String c (sanitizeHeader rest)
  end.

End Sanitizer.

(** ** JavaScript numbers and values *)

(** Numbers that may leave the rationals: the result of a division, or a
    limit given by the caller. *)
Inductive jsnum : Type :=
| Fin : Q -> jsnum
| PosInfinity : jsnum
| NegInfinity : jsnum
| NaN : jsnum.

(** [count >= limit] for a whole [count]; no comparison with [NaN]
    holds. *)
Definition reaches (count : Z) (limit : jsnum) : bool :=
  match limit with
  | Fin q => Qle_bool q (inject_Z count)
  | PosInfinity => false
  | NegInfinity => true
  | NaN => false
  end.

(** Truthiness of a number: [0] and [NaN] are falsy. *)
Definition truthy_num (x : jsnum) : bool :=
  match x with
  | Fin q => negb (Qeq_bool q 0)
  | NaN => false
  | PosInfinity | NegInfinity => true
  end.

(** A time value that [Date] can hold: [new Date(ms).toISOString()]
    throws a [RangeError] for any other. *)
Definition validTime (ms : Z) : bool := Z.abs ms <=? 8640000000000000.

Arguments reaches : simpl never.
Arguments validTime : simpl never.

(** The values carried by log payloads and error contexts. *)
Inductive jsvalue : Type :=
| JUndefined : jsvalue
| JNull : jsvalue
| JBool : bool -> jsvalue
| JNum : Z -> jsvalue
| JFloat : jsnum -> jsvalue       (* a number that need not be whole *)
| JStr : string -> jsvalue
| JIso : Z -> jsvalue            (* [new Date(ms).toISOString()] *)
| JArr : list jsvalue -> jsvalue
| JObj : list (string * jsvalue) -> jsvalue.

(** A plain object: its own properties in insertion order, keys unique. *)
Abbreviation obj := (list (string * jsvalue)).

Module JsObject.

(** [o[k]] ([None] stands for [undefined] of a missing property). *)
Fixpoint get (k : string) (o : obj) : option jsvalue :=
  match o with
  | [] => None
  | (k', v) :: rest => if String.eqb k k' then Some v else get k rest
  end.

(** [o[k] = v]: an existing property keeps its place. *)
Fixpoint set (k : string) (v : jsvalue) (o : obj) : obj :=
  match o with
  | [] => [(k, v)]
  | (k', v') :: rest =>
      if String.eqb k k' then (k', v) :: rest else (k', v') :: set k v rest
  end.

(** [{...base, ...extra}] *)
Definition spread (base extra : obj) : obj :=
  fold_left (fun acc kv => set (fst kv) (snd kv) acc) extra base.

(** Truthiness of a value. *)
Definition truthy (v : jsvalue) : bool :=
  match v with
  | JUndefined | JNull => false
  | JBool b => b
  | JNum n => negb (n =? 0)
  | JFloat x => truthy_num x
  | JStr s => JsString.truthy s
  | JIso _ | JArr _ | JObj _ => true
  end.

(** Truthiness of [o[k]]. *)
Definition truthy_at (k : string) (o : obj) : bool :=
  match get k o with
  | Some v => truthy v
  | None => false
  end.

End JsObject.

Definition js_div (a b : Q) : jsnum :=
  if Qeq_bool b 0 then
    if Qeq_bool a 0 then NaN
    else if Qle_bool 0 a then PosInfinity else NegInfinity
  else Fin (a / b).

(** [Number.MAX_VALUE] *)
Definition MAX_VALUE : Q := inject_Z ((2 ^ 53 - 1) * 2 ^ 971).

(** ** Configuration ([MailerConfig] of [types/index.ts])

    An optional property is an [option]; [None] is a property left out or
    given as [undefined], which the mailer reads alike everywhere but in
    the spread of the [rateLimiting] section. *)

(** A property of the [rateLimiting] section as the caller writes it: left
    out, written with the value [undefined], or written with a value.  The
    constructor spreads the section over its defaults, and a spread copies
    a property that is written, [undefined] or not. *)
Inductive property (A : Type) : Type :=
| Omitted : property A
| Undefined : property A
| Present : A -> property A.

Arguments Omitted {A}.
Arguments Undefined {A}.
Arguments Present {A} _.

(** [o.f]: [None] stands for [undefined]. *)
Definition read {A : Type} (p : property A) : option A :=
  match p with
  | Present a => Some a
  | Omitted | Undefined => None
  end.

Record RateLimiting : Type := mkRateLimiting {
  perRecipient : property bool;
  burstLimit : property jsnum;
  cooldownPeriod : property Z;
  banDuration : property Z;
  maxConsecutiveFailures : property Z;
  failureCooldown : property Z;
  maxRapidAttempts : property Z;
  rapidPeriod : property Z
}.

Record Logging : Type := mkLogging {
  level : option string;
  format : option string;
  customFields : option (list string);
  destination : option string
}.

Record MailerConfig : Type := mkMailerConfig {
  host : string;
  port : Z;
  secure : option bool;
  auth_user : string;
  auth_pass : string;
  from : string;
  retryAttempts : option Z;
  timeout : option Z;
  keepAlive : option bool;
  poolSize : option Z;
  rateLimiting : option RateLimiting;
  logging : option Logging
}.

(** [a || d] and [a ?? d] on optional numbers, strings and booleans. *)
Definition or_num (a : option Z) (d : Z) : Z :=
  match a with
  | Some n => if n =? 0 then d else n
  | None => d
  end.

Definition or_jsnum (a : option jsnum) (d : jsnum) : jsnum :=
  match a with
  | Some x => if truthy_num x then x else d
  | None => d
  end.

Definition nullish {A : Type} (a : option A) (d : A) : A :=
  match a with
  | Some x => x
  | None => d
  end.

Definition or_str (a : option string) (d : string) : string :=
  match a with
  | Some s => if JsString.truthy s then s else d
  | None => d
  end.

Definition or_bool (a : option bool) (d : bool) : bool :=
  match a with
  | Some true => true
  | _ => d
  end.

Definition truthy_bool (a : option bool) : bool := or_bool a false.

(** [a === s] for an optional string [a]. *)
Definition is_str (a : option string) (s : string) : bool :=
  match a with
  | Some x => String.eqb x s
  | None => false
  end.

Definition truthy_str (a : option string) : bool :=
  match a with
  | Some s => JsString.truthy s
  | None => false
  end.

(** [this.config.rateLimiting?.f] *)
Definition rl {A : Type} (f : RateLimiting -> property A) (c : MailerConfig)
  : option A :=
  match rateLimiting c with
  | Some r => read (f r)
  | None => None
  end.

(** [this.config.logging?.f] *)
Definition lg {A : Type} (f : Logging -> option A) (c : MailerConfig)
  : option A :=
  match logging c with
  | Some l => f l
  | None => None
  end.

(** ** Mail requests *)

(** [string | string[]] *)
Inductive Addresses : Type :=
| One : string -> Addresses
| Many : list string -> Addresses.

(** [string | Buffer] *)
Inductive Content : Type :=
| Text : string -> Content
| Buffer : string -> Content.

Record Attachment : Type := mkAttachment {
  filename : option string;
  path : option string;
  content : option Content;
  contentType : option string;
  encoding : option string
}.

(** [priority] and [headers] of [MailOptions] are never read by the mailer
    and are left out. *)
Record MailOptions : Type := mkMailOptions {
  to : Addresses;
  subject : string;
  text : option string;
  html : option string;
  attachments : option (list Attachment);
  cc : option Addresses;
  bcc : option Addresses
}.

Record SendResult : Type := mkSendResult {
  success : bool;
  messageId : string;
  result_timestamp : Z;
  recipients : string
}.

(** ** Errors

    Every value the mailer throws or rejects with has the shape
    [{ code, message, details: { type, context, timestamp } }]. *)

Record MailError : Type := mkMailError {
  code : string;
  message : string;
  details_type : string;
  details_context : obj;
  details_timestamp : jsvalue
}.

Record FailureDetails : Type := mkFailureDetails {
  failure_timestamp : Z;
  failure_recipient : string;
  failure_subject : string;
  failure_error : MailError;
  failure_command : string;
  failure_attempt : Z
}.

(** ** Metrics *)

Inductive EmailStatus : Type :=
| StatusSuccess : EmailStatus
| StatusFailure : EmailStatus
| StatusNone : EmailStatus.

Record RateWindow : Type := mkRateWindow {
  window_count : Z;
  window_remaining : jsnum;
  window_reset_time : Z
}.

Record ErrorsByType : Type := mkErrorsByType {
  errors_connection : Z;
  errors_authentication : Z;
  errors_rate_limit : Z;
  errors_validation : Z;
  errors_timeout : Z;
  errors_attachment : Z;
  errors_command : Z;
  errors_unknown : Z
}.

Definition upd_errors_connection (g : Z -> Z) (x : ErrorsByType) : ErrorsByType :=
  {|
    errors_connection := g (errors_connection x);
    errors_authentication := errors_authentication x;
    errors_rate_limit := errors_rate_limit x;
    errors_validation := errors_validation x;
    errors_timeout := errors_timeout x;
    errors_attachment := errors_attachment x;
    errors_command := errors_command x; errors_unknown := errors_unknown x
  |}.

Definition upd_errors_authentication (g : Z -> Z) (x : ErrorsByType) : ErrorsByType :=
  {|
    errors_connection := errors_connection x;
    errors_authentication := g (errors_authentication x);
    errors_rate_limit := errors_rate_limit x;
    errors_validation := errors_validation x;
    errors_timeout := errors_timeout x;
    errors_attachment := errors_attachment x;
    errors_command := errors_command x; errors_unknown := errors_unknown x
  |}.

Definition upd_errors_rate_limit (g : Z -> Z) (x : ErrorsByType) : ErrorsByType :=
  {|
    errors_connection := errors_connection x;
    errors_authentication := errors_authentication x;
    errors_rate_limit := g (errors_rate_limit x);
    errors_validation := errors_validation x;
    errors_timeout := errors_timeout x;
    errors_attachment := errors_attachment x;
    errors_command := errors_command x; errors_unknown := errors_unknown x
  |}.

Definition upd_errors_validation (g : Z -> Z) (x : ErrorsByType) : ErrorsByType :=
  {|
    errors_connection := errors_connection x;
    errors_authentication := errors_authentication x;
    errors_rate_limit := errors_rate_limit x;
    errors_validation := g (errors_validation x);
    errors_timeout := errors_timeout x;
    errors_attachment := errors_attachment x;
    errors_command := errors_command x; errors_unknown := errors_unknown x
  |}.

Definition upd_errors_timeout (g : Z -> Z) (x : ErrorsByType) : ErrorsByType :=
  {|
    errors_connection := errors_connection x;
    errors_authentication := errors_authentication x;
    errors_rate_limit := errors_rate_limit x;
    errors_validation := errors_validation x;
    errors_timeout := g (errors_timeout x);
    errors_attachment := errors_attachment x;
    errors_command := errors_command x; errors_unknown := errors_unknown x
  |}.

Definition upd_errors_attachment (g : Z -> Z) (x : ErrorsByType) : ErrorsByType :=
  {|
    errors_connection := errors_connection x;
    errors_authentication := errors_authentication x;
    errors_rate_limit := errors_rate_limit x;
    errors_validation := errors_validation x;
    errors_timeout := errors_timeout x;
    errors_attachment := g (errors_attachment x);
    errors_command := errors_command x; errors_unknown := errors_unknown x
  |}.

Definition upd_errors_command (g : Z -> Z) (x : ErrorsByType) : ErrorsByType :=
  {|
    errors_connection := errors_connection x;
    errors_authentication := errors_authentication x;
    errors_rate_limit := errors_rate_limit x;
    errors_validation := errors_validation x;
    errors_timeout := errors_timeout x;
    errors_attachment := errors_attachment x;
    errors_command := g (errors_command x);
    errors_unknown := errors_unknown x
  |}.

Definition upd_errors_unknown (g : Z -> Z) (x : ErrorsByType) : ErrorsByType :=
  {|
    errors_connection := errors_connection x;
    errors_authentication := errors_authentication x;
    errors_rate_limit := errors_rate_limit x;
    errors_validation := errors_validation x;
    errors_timeout := errors_timeout x;
    errors_attachment := errors_attachment x;
    errors_command := errors_command x;
    errors_unknown := g (errors_unknown x)
  |}.

Record Duration : Type := mkDuration {
  d_sum : Q;
  d_count : Z;
  d_avg : jsnum;
  d_max : Q;
  d_min : Q;
  d_buckets : list (string * Z)
}.

Definition upd_d_sum (g : Q -> Q) (x : Duration) : Duration :=
  {|
    d_sum := g (d_sum x); d_count := d_count x; d_avg := d_avg x;
    d_max := d_max x; d_min := d_min x; d_buckets := d_buckets x
  |}.

Definition upd_d_count (g : Z -> Z) (x : Duration) : Duration :=
  {|
    d_sum := d_sum x; d_count := g (d_count x); d_avg := d_avg x;
    d_max := d_max x; d_min := d_min x; d_buckets := d_buckets x
  |}.

Definition upd_d_avg (g : jsnum -> jsnum) (x : Duration) : Duration :=
  {|
    d_sum := d_sum x; d_count := d_count x; d_avg := g (d_avg x);
    d_max := d_max x; d_min := d_min x; d_buckets := d_buckets x
  |}.

Definition upd_d_max (g : Q -> Q) (x : Duration) : Duration :=
  {|
    d_sum := d_sum x; d_count := d_count x; d_avg := d_avg x;
    d_max := g (d_max x); d_min := d_min x; d_buckets := d_buckets x
  |}.

Definition upd_d_min (g : Q -> Q) (x : Duration) : Duration :=
  {|
    d_sum := d_sum x; d_count := d_count x; d_avg := d_avg x;
    d_max := d_max x; d_min := g (d_min x); d_buckets := d_buckets x
  |}.

Definition upd_d_buckets (g : (list (string * Z)) -> (list (string * Z))) (x : Duration) : Duration :=
  {|
    d_sum := d_sum x; d_count := d_count x; d_avg := d_avg x;
    d_max := d_max x; d_min := d_min x; d_buckets := g (d_buckets x)
  |}.

Record FailureStats : Type := mkFailureStats {
  last_error : option FailureDetails;
  error_count_by_recipient : gmap string Z;
  most_common_errors : list (string * Z);
  avg_failures_per_recipient : Q
}.

Definition upd_last_error (g : (option FailureDetails) -> (option FailureDetails)) (x : FailureStats) : FailureStats :=
  {|
    last_error := g (last_error x);
    error_count_by_recipient := error_count_by_recipient x;
    most_common_errors := most_common_errors x;
    avg_failures_per_recipient := avg_failures_per_recipient x
  |}.

Definition upd_error_count_by_recipient (g : (gmap string Z) -> (gmap string Z)) (x : FailureStats) : FailureStats :=
  {|
    last_error := last_error x;
    error_count_by_recipient := g (error_count_by_recipient x);
    most_common_errors := most_common_errors x;
    avg_failures_per_recipient := avg_failures_per_recipient x
  |}.

Definition upd_avg_failures_per_recipient (g : Q -> Q) (x : FailureStats) : FailureStats :=
  {|
    last_error := last_error x;
    error_count_by_recipient := error_count_by_recipient x;
    most_common_errors := most_common_errors x;
    avg_failures_per_recipient := g (avg_failures_per_recipient x)
  |}.

Record Metrics : Type := mkMetrics {
  emails_total : Z;
  emails_successful : Z;
  emails_failed : Z;
  failed_emails : list FailureDetails;
  email_send_duration_seconds : Duration;
  email_send_rate : jsnum;
  last_email_status : EmailStatus;
  last_email_timestamp : Z;
  active_connections : Z;
  connection_errors : Z;
  rate_limit_exceeded_total : Z;
  current_rate_limit_window : RateWindow;
  errors_by_type : ErrorsByType;
  consecutive_failures : Z;
  last_error_timestamp : option Z;
  banned_recipients_count : Z;
  total_retry_attempts : Z;
  successful_retries : Z;
  failure_details : FailureStats
}.

Definition upd_emails_total (g : Z -> Z) (x : Metrics) : Metrics :=
  {|
    emails_total := g (emails_total x);
    emails_successful := emails_successful x;
    emails_failed := emails_failed x; failed_emails := failed_emails x;
    email_send_duration_seconds := email_send_duration_seconds x;
    email_send_rate := email_send_rate x;
    last_email_status := last_email_status x;
    last_email_timestamp := last_email_timestamp x;
    active_connections := active_connections x;
    connection_errors := connection_errors x;
    rate_limit_exceeded_total := rate_limit_exceeded_total x;
    current_rate_limit_window := current_rate_limit_window x;
    errors_by_type := errors_by_type x;
    consecutive_failures := consecutive_failures x;
    last_error_timestamp := last_error_timestamp x;
    banned_recipients_count := banned_recipients_count x;
    total_retry_attempts := total_retry_attempts x;
    successful_retries := successful_retries x;
    failure_details := failure_details x
  |}.

Definition upd_emails_successful (g : Z -> Z) (x : Metrics) : Metrics :=
  {|
    emails_total := emails_total x;
    emails_successful := g (emails_successful x);
    emails_failed := emails_failed x; failed_emails := failed_emails x;
    email_send_duration_seconds := email_send_duration_seconds x;
    email_send_rate := email_send_rate x;
    last_email_status := last_email_status x;
    last_email_timestamp := last_email_timestamp x;
    active_connections := active_connections x;
    connection_errors := connection_errors x;
    rate_limit_exceeded_total := rate_limit_exceeded_total x;
    current_rate_limit_window := current_rate_limit_window x;
    errors_by_type := errors_by_type x;
    consecutive_failures := consecutive_failures x;
    last_error_timestamp := last_error_timestamp x;
    banned_recipients_count := banned_recipients_count x;
    total_retry_attempts := total_retry_attempts x;
    successful_retries := successful_retries x;
    failure_details := failure_details x
  |}.

Definition upd_emails_failed (g : Z -> Z) (x : Metrics) : Metrics :=
  {|
    emails_total := emails_total x;
    emails_successful := emails_successful x;
    emails_failed := g (emails_failed x); failed_emails := failed_emails x;
    email_send_duration_seconds := email_send_duration_seconds x;
    email_send_rate := email_send_rate x;
    last_email_status := last_email_status x;
    last_email_timestamp := last_email_timestamp x;
    active_connections := active_connections x;
    connection_errors := connection_errors x;
    rate_limit_exceeded_total := rate_limit_exceeded_total x;
    current_rate_limit_window := current_rate_limit_window x;
    errors_by_type := errors_by_type x;
    consecutive_failures := consecutive_failures x;
    last_error_timestamp := last_error_timestamp x;
    banned_recipients_count := banned_recipients_count x;
    total_retry_attempts := total_retry_attempts x;
    successful_retries := successful_retries x;
    failure_details := failure_details x
  |}.

Definition upd_failed_emails (g : (list FailureDetails) -> (list FailureDetails)) (x : Metrics) : Metrics :=
  {|
    emails_total := emails_total x;
    emails_successful := emails_successful x;
    emails_failed := emails_failed x; failed_emails := g (failed_emails x);
    email_send_duration_seconds := email_send_duration_seconds x;
    email_send_rate := email_send_rate x;
    last_email_status := last_email_status x;
    last_email_timestamp := last_email_timestamp x;
    active_connections := active_connections x;
    connection_errors := connection_errors x;
    rate_limit_exceeded_total := rate_limit_exceeded_total x;
    current_rate_limit_window := current_rate_limit_window x;
    errors_by_type := errors_by_type x;
    consecutive_failures := consecutive_failures x;
    last_error_timestamp := last_error_timestamp x;
    banned_recipients_count := banned_recipients_count x;
    total_retry_attempts := total_retry_attempts x;
    successful_retries := successful_retries x;
    failure_details := failure_details x
  |}.

Definition upd_email_send_duration_seconds (g : Duration -> Duration) (x : Metrics) : Metrics :=
  {|
    emails_total := emails_total x;
    emails_successful := emails_successful x;
    emails_failed := emails_failed x; failed_emails := failed_emails x;
    email_send_duration_seconds := g (email_send_duration_seconds x);
    email_send_rate := email_send_rate x;
    last_email_status := last_email_status x;
    last_email_timestamp := last_email_timestamp x;
    active_connections := active_connections x;
    connection_errors := connection_errors x;
    rate_limit_exceeded_total := rate_limit_exceeded_total x;
    current_rate_limit_window := current_rate_limit_window x;
    errors_by_type := errors_by_type x;
    consecutive_failures := consecutive_failures x;
    last_error_timestamp := last_error_timestamp x;
    banned_recipients_count := banned_recipients_count x;
    total_retry_attempts := total_retry_attempts x;
    successful_retries := successful_retries x;
    failure_details := failure_details x
  |}.

Definition upd_email_send_rate (g : jsnum -> jsnum) (x : Metrics) : Metrics :=
  {|
    emails_total := emails_total x;
    emails_successful := emails_successful x;
    emails_failed := emails_failed x; failed_emails := failed_emails x;
    email_send_duration_seconds := email_send_duration_seconds x;
    email_send_rate := g (email_send_rate x);
    last_email_status := last_email_status x;
    last_email_timestamp := last_email_timestamp x;
    active_connections := active_connections x;
    connection_errors := connection_errors x;
    rate_limit_exceeded_total := rate_limit_exceeded_total x;
    current_rate_limit_window := current_rate_limit_window x;
    errors_by_type := errors_by_type x;
    consecutive_failures := consecutive_failures x;
    last_error_timestamp := last_error_timestamp x;
    banned_recipients_count := banned_recipients_count x;
    total_retry_attempts := total_retry_attempts x;
    successful_retries := successful_retries x;
    failure_details := failure_details x
  |}.

Definition upd_last_email_status (g : EmailStatus -> EmailStatus) (x : Metrics) : Metrics :=
  {|
    emails_total := emails_total x;
    emails_successful := emails_successful x;
    emails_failed := emails_failed x; failed_emails := failed_emails x;
    email_send_duration_seconds := email_send_duration_seconds x;
    email_send_rate := email_send_rate x;
    last_email_status := g (last_email_status x);
    last_email_timestamp := last_email_timestamp x;
    active_connections := active_connections x;
    connection_errors := connection_errors x;
    rate_limit_exceeded_total := rate_limit_exceeded_total x;
    current_rate_limit_window := current_rate_limit_window x;
    errors_by_type := errors_by_type x;
    consecutive_failures := consecutive_failures x;
    last_error_timestamp := last_error_timestamp x;
    banned_recipients_count := banned_recipients_count x;
    total_retry_attempts := total_retry_attempts x;
    successful_retries := successful_retries x;
    failure_details := failure_details x
  |}.

Definition upd_last_email_timestamp (g : Z -> Z) (x : Metrics) : Metrics :=
  {|
    emails_total := emails_total x;
    emails_successful := emails_successful x;
    emails_failed := emails_failed x; failed_emails := failed_emails x;
    email_send_duration_seconds := email_send_duration_seconds x;
    email_send_rate := email_send_rate x;
    last_email_status := last_email_status x;
    last_email_timestamp := g (last_email_timestamp x);
    active_connections := active_connections x;
    connection_errors := connection_errors x;
    rate_limit_exceeded_total := rate_limit_exceeded_total x;
    current_rate_limit_window := current_rate_limit_window x;
    errors_by_type := errors_by_type x;
    consecutive_failures := consecutive_failures x;
    last_error_timestamp := last_error_timestamp x;
    banned_recipients_count := banned_recipients_count x;
    total_retry_attempts := total_retry_attempts x;
    successful_retries := successful_retries x;
    failure_details := failure_details x
  |}.

Definition upd_active_connections (g : Z -> Z) (x : Metrics) : Metrics :=
  {|
    emails_total := emails_total x;
    emails_successful := emails_successful x;
    emails_failed := emails_failed x; failed_emails := failed_emails x;
    email_send_duration_seconds := email_send_duration_seconds x;
    email_send_rate := email_send_rate x;
    last_email_status := last_email_status x;
    last_email_timestamp := last_email_timestamp x;
    active_connections := g (active_connections x);
    connection_errors := connection_errors x;
    rate_limit_exceeded_total := rate_limit_exceeded_total x;
    current_rate_limit_window := current_rate_limit_window x;
    errors_by_type := errors_by_type x;
    consecutive_failures := consecutive_failures x;
    last_error_timestamp := last_error_timestamp x;
    banned_recipients_count := banned_recipients_count x;
    total_retry_attempts := total_retry_attempts x;
    successful_retries := successful_retries x;
    failure_details := failure_details x
  |}.

Definition upd_connection_errors (g : Z -> Z) (x : Metrics) : Metrics :=
  {|
    emails_total := emails_total x;
    emails_successful := emails_successful x;
    emails_failed := emails_failed x; failed_emails := failed_emails x;
    email_send_duration_seconds := email_send_duration_seconds x;
    email_send_rate := email_send_rate x;
    last_email_status := last_email_status x;
    last_email_timestamp := last_email_timestamp x;
    active_connections := active_connections x;
    connection_errors := g (connection_errors x);
    rate_limit_exceeded_total := rate_limit_exceeded_total x;
    current_rate_limit_window := current_rate_limit_window x;
    errors_by_type := errors_by_type x;
    consecutive_failures := consecutive_failures x;
    last_error_timestamp := last_error_timestamp x;
    banned_recipients_count := banned_recipients_count x;
    total_retry_attempts := total_retry_attempts x;
    successful_retries := successful_retries x;
    failure_details := failure_details x
  |}.

Definition upd_rate_limit_exceeded_total (g : Z -> Z) (x : Metrics) : Metrics :=
  {|
    emails_total := emails_total x;
    emails_successful := emails_successful x;
    emails_failed := emails_failed x; failed_emails := failed_emails x;
    email_send_duration_seconds := email_send_duration_seconds x;
    email_send_rate := email_send_rate x;
    last_email_status := last_email_status x;
    last_email_timestamp := last_email_timestamp x;
    active_connections := active_connections x;
    connection_errors := connection_errors x;
    rate_limit_exceeded_total := g (rate_limit_exceeded_total x);
    current_rate_limit_window := current_rate_limit_window x;
    errors_by_type := errors_by_type x;
    consecutive_failures := consecutive_failures x;
    last_error_timestamp := last_error_timestamp x;
    banned_recipients_count := banned_recipients_count x;
    total_retry_attempts := total_retry_attempts x;
    successful_retries := successful_retries x;
    failure_details := failure_details x
  |}.

Definition upd_errors_by_type (g : ErrorsByType -> ErrorsByType) (x : Metrics) : Metrics :=
  {|
    emails_total := emails_total x;
    emails_successful := emails_successful x;
    emails_failed := emails_failed x; failed_emails := failed_emails x;
    email_send_duration_seconds := email_send_duration_seconds x;
    email_send_rate := email_send_rate x;
    last_email_status := last_email_status x;
    last_email_timestamp := last_email_timestamp x;
    active_connections := active_connections x;
    connection_errors := connection_errors x;
    rate_limit_exceeded_total := rate_limit_exceeded_total x;
    current_rate_limit_window := current_rate_limit_window x;
    errors_by_type := g (errors_by_type x);
    consecutive_failures := consecutive_failures x;
    last_error_timestamp := last_error_timestamp x;
    banned_recipients_count := banned_recipients_count x;
    total_retry_attempts := total_retry_attempts x;
    successful_retries := successful_retries x;
    failure_details := failure_details x
  |}.

Definition upd_consecutive_failures (g : Z -> Z) (x : Metrics) : Metrics :=
  {|
    emails_total := emails_total x;
    emails_successful := emails_successful x;
    emails_failed := emails_failed x; failed_emails := failed_emails x;
    email_send_duration_seconds := email_send_duration_seconds x;
    email_send_rate := email_send_rate x;
    last_email_status := last_email_status x;
    last_email_timestamp := last_email_timestamp x;
    active_connections := active_connections x;
    connection_errors := connection_errors x;
    rate_limit_exceeded_total := rate_limit_exceeded_total x;
    current_rate_limit_window := current_rate_limit_window x;
    errors_by_type := errors_by_type x;
    consecutive_failures := g (consecutive_failures x);
    last_error_timestamp := last_error_timestamp x;
    banned_recipients_count := banned_recipients_count x;
    total_retry_attempts := total_retry_attempts x;
    successful_retries := successful_retries x;
    failure_details := failure_details x
  |}.

Definition upd_last_error_timestamp (g : (option Z) -> (option Z)) (x : Metrics) : Metrics :=
  {|
    emails_total := emails_total x;
    emails_successful := emails_successful x;
    emails_failed := emails_failed x; failed_emails := failed_emails x;
    email_send_duration_seconds := email_send_duration_seconds x;
    email_send_rate := email_send_rate x;
    last_email_status := last_email_status x;
    last_email_timestamp := last_email_timestamp x;
    active_connections := active_connections x;
    connection_errors := connection_errors x;
    rate_limit_exceeded_total := rate_limit_exceeded_total x;
    current_rate_limit_window := current_rate_limit_window x;
    errors_by_type := errors_by_type x;
    consecutive_failures := consecutive_failures x;
    last_error_timestamp := g (last_error_timestamp x);
    banned_recipients_count := banned_recipients_count x;
    total_retry_attempts := total_retry_attempts x;
    successful_retries := successful_retries x;
    failure_details := failure_details x
  |}.

Definition upd_banned_recipients_count (g : Z -> Z) (x : Metrics) : Metrics :=
  {|
    emails_total := emails_total x;
    emails_successful := emails_successful x;
    emails_failed := emails_failed x; failed_emails := failed_emails x;
    email_send_duration_seconds := email_send_duration_seconds x;
    email_send_rate := email_send_rate x;
    last_email_status := last_email_status x;
    last_email_timestamp := last_email_timestamp x;
    active_connections := active_connections x;
    connection_errors := connection_errors x;
    rate_limit_exceeded_total := rate_limit_exceeded_total x;
    current_rate_limit_window := current_rate_limit_window x;
    errors_by_type := errors_by_type x;
    consecutive_failures := consecutive_failures x;
    last_error_timestamp := last_error_timestamp x;
    banned_recipients_count := g (banned_recipients_count x);
    total_retry_attempts := total_retry_attempts x;
    successful_retries := successful_retries x;
    failure_details := failure_details x
  |}.

Definition upd_failure_details (g : FailureStats -> FailureStats) (x : Metrics) : Metrics :=
  {|
    emails_total := emails_total x;
    emails_successful := emails_successful x;
    emails_failed := emails_failed x; failed_emails := failed_emails x;
    email_send_duration_seconds := email_send_duration_seconds x;
    email_send_rate := email_send_rate x;
    last_email_status := last_email_status x;
    last_email_timestamp := last_email_timestamp x;
    active_connections := active_connections x;
    connection_errors := connection_errors x;
    rate_limit_exceeded_total := rate_limit_exceeded_total x;
    current_rate_limit_window := current_rate_limit_window x;
    errors_by_type := errors_by_type x;
    consecutive_failures := consecutive_failures x;
    last_error_timestamp := last_error_timestamp x;
    banned_recipients_count := banned_recipients_count x;
    total_retry_attempts := total_retry_attempts x;
    successful_retries := successful_retries x;
    failure_details := g (failure_details x)
  |}.


(** ** Per-recipient rate-limit state *)

Record RecipientLimits : Type := mkRecipientLimits {
  count : Z;
  lastReset : Z;
  banned : bool;
  banExpiry : Z;
  consecutiveFailures : Z;
  lastFailure : Z;
  rapidAttempts : Z;
  lastAttempt : Z
}.

Definition upd_count (g : Z -> Z) (x : RecipientLimits) : RecipientLimits :=
  {|
    count := g (count x); lastReset := lastReset x; banned := banned x;
    banExpiry := banExpiry x; consecutiveFailures := consecutiveFailures x;
    lastFailure := lastFailure x; rapidAttempts := rapidAttempts x;
    lastAttempt := lastAttempt x
  |}.

Definition upd_lastReset (g : Z -> Z) (x : RecipientLimits) : RecipientLimits :=
  {|
    count := count x; lastReset := g (lastReset x); banned := banned x;
    banExpiry := banExpiry x; consecutiveFailures := consecutiveFailures x;
    lastFailure := lastFailure x; rapidAttempts := rapidAttempts x;
    lastAttempt := lastAttempt x
  |}.

Definition upd_banned (g : bool -> bool) (x : RecipientLimits) : RecipientLimits :=
  {|
    count := count x; lastReset := lastReset x; banned := g (banned x);
    banExpiry := banExpiry x; consecutiveFailures := consecutiveFailures x;
    lastFailure := lastFailure x; rapidAttempts := rapidAttempts x;
    lastAttempt := lastAttempt x
  |}.

Definition upd_banExpiry (g : Z -> Z) (x : RecipientLimits) : RecipientLimits :=
  {|
    count := count x; lastReset := lastReset x; banned := banned x;
    banExpiry := g (banExpiry x);
    consecutiveFailures := consecutiveFailures x;
    lastFailure := lastFailure x; rapidAttempts := rapidAttempts x;
    lastAttempt := lastAttempt x
  |}.

Definition upd_consecutiveFailures (g : Z -> Z) (x : RecipientLimits) : RecipientLimits :=
  {|
    count := count x; lastReset := lastReset x; banned := banned x;
    banExpiry := banExpiry x;
    consecutiveFailures := g (consecutiveFailures x);
    lastFailure := lastFailure x; rapidAttempts := rapidAttempts x;
    lastAttempt := lastAttempt x
  |}.

Definition upd_lastFailure (g : Z -> Z) (x : RecipientLimits) : RecipientLimits :=
  {|
    count := count x; lastReset := lastReset x; banned := banned x;
    banExpiry := banExpiry x; consecutiveFailures := consecutiveFailures x;
    lastFailure := g (lastFailure x); rapidAttempts := rapidAttempts x;
    lastAttempt := lastAttempt x
  |}.

Definition upd_rapidAttempts (g : Z -> Z) (x : RecipientLimits) : RecipientLimits :=
  {|
    count := count x; lastReset := lastReset x; banned := banned x;
    banExpiry := banExpiry x; consecutiveFailures := consecutiveFailures x;
    lastFailure := lastFailure x; rapidAttempts := g (rapidAttempts x);
    lastAttempt := lastAttempt x
  |}.

Definition upd_lastAttempt (g : Z -> Z) (x : RecipientLimits) : RecipientLimits :=
  {|
    count := count x; lastReset := lastReset x; banned := banned x;
    banExpiry := banExpiry x; consecutiveFailures := consecutiveFailures x;
    lastFailure := lastFailure x; rapidAttempts := rapidAttempts x;
    lastAttempt := g (lastAttempt x)
  |}.


#[global] Instance RecipientLimits_inhabited : Inhabited RecipientLimits :=
  populate (mkRecipientLimits 0 0 false 0 0 0 0 0).

(** ** The world outside the mailer

    The wall clock, the network, the random generator and the file system
    are oracles.  The oracles that can answer differently each time are
    indexed by [tick], the number of questions asked so far. *)

Inductive ConnectOutcome : Type :=
| Connected : ConnectOutcome
| ConnectTimeout : ConnectOutcome
| ConnectError : option string -> string -> ConnectOutcome.

Inductive CommandOutcome : Type :=
| Response : string -> CommandOutcome
| WriteError : string -> CommandOutcome.

Record Env : Type := mkEnv {
  env_now : nat -> Z;                       (* [Date.now()], [new Date()] *)
  env_connect : nat -> ConnectOutcome;      (* [socket.connect] *)
  env_command : nat -> CommandOutcome;      (* [socket.write] and its reply *)
  env_randomHex : nat -> string;            (* [crypto.randomBytes(16)] *)
  env_appendFile : nat -> bool;             (* [fs.appendFileSync] succeeds *)
  env_mkdir : nat -> bool;                  (* log directory can be made *)
  env_cwd : string;                         (* [process.cwd()] *)
  env_normalize : string -> string;         (* [path.normalize] *)
  env_isAbsolute : string -> bool;          (* [path.isAbsolute] *)
  env_join : string -> string -> string;    (* [path.join] *)
  env_basename : string -> string;          (* [path.basename] *)
  env_extname : string -> string;           (* [path.extname] *)
  env_existsSync : string -> bool;          (* [fs.existsSync] *)
  env_readable : string -> bool;            (* [fs.accessSync(_, R_OK)] *)
  env_readFileSync : string -> option string
}.

Inductive SocketEvent : Type :=
| SockConnect : nat -> string -> Z -> SocketEvent   (* [new Socket()], [connect] *)
| SockTls : nat -> SocketEvent                      (* [new TLSSocket(socket)] *)
| SockWrite : nat -> string -> SocketEvent
| SockEnd : nat -> SocketEvent
| SockDestroy : nat -> SocketEvent.

(** A line appended to the log file: [JSON.stringify(entry)], or the text
    form [[timestamp] LEVEL: JSON.stringify(masked)]. *)
Inductive LogLine : Type :=
| JsonLine : obj -> LogLine
| TextLine : jsvalue -> string -> obj -> LogLine.

(** ** The mailer object, with the part of the world it acts on

    [connectionPool] and the [socket] field are never read or written after
    construction and are left out. *)

Record Mailer : Type := mkMailer {
  config : MailerConfig;
  metrics : Metrics;
  rateLimits : gmap string RecipientLimits;
  logFilePath : option string;
  logFile : list LogLine;
  sockets : list SocketEvent;
  tick : nat
}.

Definition upd_metrics (g : Metrics -> Metrics) (x : Mailer) : Mailer :=
  {|
    config := config x; metrics := g (metrics x);
    rateLimits := rateLimits x; logFilePath := logFilePath x;
    logFile := logFile x; sockets := sockets x; tick := tick x
  |}.

Definition upd_rateLimits (g : (gmap string RecipientLimits) -> (gmap string RecipientLimits)) (x : Mailer) : Mailer :=
  {|
    config := config x; metrics := metrics x;
    rateLimits := g (rateLimits x); logFilePath := logFilePath x;
    logFile := logFile x; sockets := sockets x; tick := tick x
  |}.

Definition upd_logFile (g : (list LogLine) -> (list LogLine)) (x : Mailer) : Mailer :=
  {|
    config := config x; metrics := metrics x; rateLimits := rateLimits x;
    logFilePath := logFilePath x; logFile := g (logFile x);
    sockets := sockets x; tick := tick x
  |}.

Definition upd_sockets (g : (list SocketEvent) -> (list SocketEvent)) (x : Mailer) : Mailer :=
  {|
    config := config x; metrics := metrics x; rateLimits := rateLimits x;
    logFilePath := logFilePath x; logFile := logFile x;
    sockets := g (sockets x); tick := tick x
  |}.

Definition upd_tick (g : nat -> nat) (x : Mailer) : Mailer :=
  {|
    config := config x; metrics := metrics x; rateLimits := rateLimits x;
    logFilePath := logFilePath x; logFile := logFile x;
    sockets := sockets x; tick := g (tick x)
  |}.


(** ** Computations of the mailer

    A method runs on the mailer, may change it, and either returns or
    throws.  What it changed before it throws stays changed. *)

Inductive Result (A : Type) : Type :=
| Ok : A -> Result A
| Throw : MailError -> Result A.

Arguments Ok {A} _.
Arguments Throw {A} _.

Definition M (A : Type) : Type := Mailer -> Result A * Mailer.

Definition ret {A : Type} (a : A) : M A := fun st => (Ok a, st).

Definition bind {A B : Type} (m : M A) (k : A -> M B) : M B :=
  fun st =>
    match m st with
    | (Ok a, st') => k a st'
    | (Throw e, st') => (Throw e, st')
    end.

Definition throw {A : Type} (e : MailError) : M A := fun st => (Throw e, st).

(** [try { m } catch (e) { h e }] *)
Definition try_catch {A : Type} (m : M A) (h : MailError -> M A) : M A :=
  fun st =>
    match m st with
    | (Ok a, st') => (Ok a, st')
    | (Throw e, st') => h e st'
    end.

(** [try { m } finally { f }], for an [f] that does not throw. *)
Definition finally {A : Type} (m : M A) (f : Mailer -> Mailer) : M A :=
  fun st => let (r, st') := m st in (r, f st').

Definition gets {A : Type} (f : Mailer -> A) : M A := fun st => (Ok (f st), st).

Definition modify (f : Mailer -> Mailer) : M unit := fun st => (Ok tt, f st).

Notation "'let*' x ':=' c 'in' k" := (bind c (fun x => k))
  (at level 10, x name, c at level 100, k at level 200).

Notation "c '>>' k" := (bind c (fun _ => k))
  (at level 100, k at level 200, right associativity).

(** [if (b) { m }] *)
Definition when (b : bool) (m : M unit) : M unit := if b then m else ret tt.

(** [for (const x of xs) { body x }] *)
Fixpoint for_each {A : Type} (xs : list A) (body : A -> M unit) : M unit :=
  match xs with
  | [] => ret tt
  | x :: rest => body x >> for_each rest body
  end.

(** [this.metrics.f op= ...] *)
Definition metric (f : Metrics -> Metrics) : M unit := modify (upd_metrics f).

Definition incr : Z -> Z := Z.succ.
Definition decr : Z -> Z := Z.pred.
Definition assign {A : Type} (v : A) : A -> A := fun _ => v.

Section Methods.

Variable env : Env.

(** [Date.now()]: one more reading of the wall clock. *)
Definition dateNow : M Z :=
  fun st => (Ok (env_now env (tick st)), upd_tick S st).

(** *** Structured logger *)

(** [this.config.logging?.level || 'info'] *)
Definition configLevel (cfg : MailerConfig) : string :=
  or_str (lg level cfg) "info".

Definition shouldLog (cfg : MailerConfig) (level : string) : bool :=
  let configLevel := configLevel cfg in
  if String.eqb configLevel "debug" then true
  else if String.eqb configLevel "info" then String.eqb level "info"
  else if String.eqb configLevel "warn" then String.eqb level "warn"
  else if String.eqb configLevel "error" then String.eqb level "error"
  else false.

Definition sensitiveFields : list string :=
  ["password"; "auth"; "token"; "key"].

Definition MASK : jsvalue := JStr "********".

(** The payloads of the mailer are object literals, so the [!data] exit of
    the source is never taken. *)
Definition maskSensitiveData (data : obj) : obj :=
  fold_left
    (fun masked field =>
       if JsObject.truthy_at field masked then JsObject.set field MASK masked
       else masked)
    sensitiveFields data.

(** The custom-field loop of [writeLog]. *)
Definition addCustomFields (fields : list string) (data logEntry : obj) : obj :=
  fold_left
    (fun entry field =>
       match JsObject.get field data with
       | Some v => if JsObject.truthy v then JsObject.set field v entry else entry
       | None => entry
       end)
    fields logEntry.

(** [fs.appendFileSync(this.logFilePath, line)] inside the [try] of
    [writeLog]: a failure is caught and only warned about. *)
Definition appendFileSync (line : LogLine) : M unit :=
  fun st =>
    if env_appendFile env (tick st) then
      (Ok tt, upd_tick S (upd_logFile (fun f => app f [line]) st))
    else (Ok tt, upd_tick S st).

Definition writeLog (level : string) (data : obj) : M unit :=
  let* path := gets logFilePath in
  let* cfg := gets config in
  if negb (truthy_str path) || negb (shouldLog cfg level) then ret tt
  else
    let maskedData := maskSensitiveData data in
    let* stamp := dateNow in
    let logEntry :=
      JsObject.spread [("timestamp", JIso stamp); ("level", JStr level)]
        maskedData in
    let logEntry :=
      match lg customFields cfg with
      | Some fields => addCustomFields fields data logEntry
      | None => logEntry
      end in
    let formattedLog :=
      if is_str (lg format cfg) "text" then
        TextLine (default JUndefined (JsObject.get "timestamp" logEntry))
          (JsString.toUpperCase level) maskedData
      else JsonLine logEntry in
    appendFileSync formattedLog.

(** *** Constructor *)

(** Lines 45-55: [{ perRecipient: true, ..., ...config.rateLimiting }].
    The default stands where the caller left the option out; an option the
    caller wrote, be it with [undefined], replaces the default. *)
Definition defaultRateLimiting (given : option RateLimiting) : RateLimiting :=
  let pick {A : Type} (f : RateLimiting -> property A) (d : A) : property A :=
    match given with
    | Some r => match f r with Omitted => Present d | written => written end
    | None => Present d
    end in
  {| perRecipient := pick perRecipient true;
     burstLimit := pick burstLimit (Fin 5);
     cooldownPeriod := pick cooldownPeriod 1000;
     banDuration := pick banDuration 7200000;
     maxConsecutiveFailures := pick maxConsecutiveFailures 3;
     failureCooldown := pick failureCooldown 300000;
     maxRapidAttempts := pick maxRapidAttempts 10;
     rapidPeriod := pick rapidPeriod 10000 |}.

Definition normalizeConfig (c : MailerConfig) : MailerConfig :=
  let securePort := port c =? 465 in
  {| host := host c;
     port := port c;
     secure := if securePort then Some true else secure c;
     auth_user := auth_user c;
     auth_pass := auth_pass c;
     from := from c;
     retryAttempts := Some (or_num (retryAttempts c) 3);
     timeout := Some (or_num (timeout c) 5000);
     keepAlive := Some (or_bool (keepAlive c) false);
     poolSize := Some (or_num (poolSize c) 5);
     rateLimiting := Some (defaultRateLimiting (rateLimiting c));
     logging :=
       Some {| level := Some (or_str (lg level c) "info");
               format := Some (or_str (lg format c) "json");
               customFields := Some (default [] (lg customFields c));
               destination := lg destination c |} |}.

Definition initialBuckets : list (string * Z) :=
  [("0.1", 0); ("0.5", 0); ("1", 0); ("2", 0); ("5", 0)].

Definition initialMetrics (cfg : MailerConfig) (t1 t2 : Z) : Metrics :=
  {| emails_total := 0;
     emails_successful := 0;
     emails_failed := 0;
     failed_emails := [];
     email_send_duration_seconds :=
       {| d_sum := 0; d_count := 0; d_avg := Fin 0; d_max := 0;
          d_min := MAX_VALUE; d_buckets := initialBuckets |};
     email_send_rate := Fin 0;
     last_email_status := StatusNone;
     last_email_timestamp := t1;
     active_connections := 0;
     connection_errors := 0;
     rate_limit_exceeded_total := 0;
     current_rate_limit_window :=
       {| window_count := 0;
          window_remaining := or_jsnum (rl burstLimit cfg) (Fin 5);
          window_reset_time := t2 + or_num (rl cooldownPeriod cfg) 1000 |};
     errors_by_type := mkErrorsByType 0 0 0 0 0 0 0 0;
     consecutive_failures := 0;
     last_error_timestamp := None;
     banned_recipients_count := 0;
     total_retry_attempts := 0;
     successful_retries := 0;
     failure_details :=
       {| last_error := None;
          error_count_by_recipient := ∅;
          most_common_errors := [];
          avg_failures_per_recipient := 0 |} |}.

(** [new FastMailer(config)] in a world whose log file holds [file], whose
    socket history is [history] and whose oracles were asked [t] times.
    [None] is the [Error] thrown for a missing [from]. *)
Definition newFastMailer (given : MailerConfig) (file : list LogLine)
    (history : list SocketEvent) (t : nat) : option Mailer :=
  let cfg := normalizeConfig given in
  if negb (JsString.truthy (from cfg)) then None
  else
    let setup :=
      match lg destination cfg with
      | Some dest =>
          if JsString.truthy dest then
            let p := if env_isAbsolute env dest then dest
                     else env_join env (env_cwd env) dest in
            if env_mkdir env t && env_appendFile env (S t)
            then (Some p, (t + 2)%nat) else (None, (t + 2)%nat)
          else (None, t)
      | None => (None, t)
      end in
    let t' := snd setup in
    Some {| config := cfg;
            metrics := initialMetrics cfg (env_now env t')
                         (env_now env (S t'));
            rateLimits := ∅;
            logFilePath := fst setup;
            logFile := file;
            sockets := history;
            tick := (t' + 2)%nat |}.

(** *** Rate-limit controller *)

(** [this.rateLimits.get(recipient)], once the entry exists. *)
Definition limitsOf (recipient : string) : M RecipientLimits :=
  gets (fun st => rateLimits st !!! recipient).

(** [recipientLimits.f = ...]: the object is the one held by the map. *)
Definition setLimits (recipient : string)
    (f : RecipientLimits -> RecipientLimits) : M unit :=
  modify (upd_rateLimits (alter f recipient)).

Definition freshLimits (now : Z) : RecipientLimits :=
  {| count := 0; lastReset := now; banned := false; banExpiry := 0;
     consecutiveFailures := 0; lastFailure := 0; rapidAttempts := 0;
     lastAttempt := now |}.

Definition rateLimitError (msg : string) (context : obj) : M unit :=
  let* stamp := dateNow in
  throw {| code := "ERATELIMIT"; message := msg;
           details_type := "rate_limit_error";
           details_context := context;
           details_timestamp := JIso stamp |}.

(** Lines 164-178: the entry is made on the first sighting. *)
Definition materialize (recipient : string) (now : Z) : M unit :=
  let* known := gets (fun st => rateLimits st !! recipient) in
  match known with
  | Some _ => ret tt
  | None => modify (upd_rateLimits (insert recipient (freshLimits now)))
  end.

(** Lines 180-213: "Check rapid sending attempts". *)
Definition rapidAttemptCheck (recipient : string) (now : Z) : M unit :=
  let* cfg := gets config in
  let rapidPeriod := or_num (rl rapidPeriod cfg) 10000 in
  let* l := limitsOf recipient in
  (if now - lastAttempt l <? rapidPeriod then
     setLimits recipient (upd_rapidAttempts incr) >>
     let* l := limitsOf recipient in
     if rapidAttempts l >=? or_num (rl maxRapidAttempts cfg) 10 then
       setLimits recipient (upd_banned (assign true)) >>
       setLimits recipient
         (upd_banExpiry (assign (now + or_num (rl banDuration cfg) 7200000))) >>
       metric (upd_banned_recipients_count incr) >>
       let* l := limitsOf recipient in
       writeLog "debug"
         [("recipient", JStr recipient); ("event", JStr "banned");
          ("reason", JStr "rapid_attempts");
          ("attempts", JNum (rapidAttempts l));
          ("period", JNum rapidPeriod);
          ("message", JStr "Too many rapid sending attempts")] >>
       rateLimitError "Too many rapid sending attempts"
         [("recipient", JStr recipient);
          ("attempts", JNum (rapidAttempts l));
          ("period", JNum rapidPeriod)]
     else ret tt
   else setLimits recipient (upd_rapidAttempts (assign 1))) >>
  setLimits recipient (upd_lastAttempt (assign now)).

Definition bannedMessage : string :=
  "Recipient is temporarily banned due to rate limit violations or consecutive failures".

(** An [Error] object thrown by the runtime: it has a [message] and
    neither [code] nor [details]; the properties it lacks read as the
    empty string and as [undefined]. *)
Definition nativeError (msg : string) : MailError :=
  {| code := EmptyString; message := msg; details_type := EmptyString;
     details_context := []; details_timestamp := JUndefined |}.

(** The [RangeError] of [Date.prototype.toISOString]. *)
Definition invalidTimeValue : MailError := nativeError "Invalid time value".

(** Lines 215-249: "Check if currently banned".  The payload of the log
    entry is built before [writeLog] is called: where the ban expiry is
    not a time value of [Date], line 223 throws and nothing is logged. *)
Definition banCheck (recipient : string) (now : Z) : M unit :=
  let* l := limitsOf recipient in
  if banned l then
    if now <? banExpiry l then
      metric (upd_last_email_status (assign StatusFailure)) >>
      metric (upd_errors_by_type (upd_errors_rate_limit incr)) >>
      if validTime (banExpiry l) then
        writeLog "debug"
          [("recipient", JStr recipient); ("event", JStr "banned");
           ("banExpiry", JIso (banExpiry l));
           ("consecutiveFailures", JNum (consecutiveFailures l));
           ("message", JStr bannedMessage)] >>
        rateLimitError bannedMessage
          [("recipient", JStr recipient);
           ("banExpiry", JIso (banExpiry l));
           ("consecutiveFailures", JNum (consecutiveFailures l))]
      else throw invalidTimeValue
    else
      setLimits recipient (upd_banned (assign false)) >>
      setLimits recipient (upd_count (assign 0)) >>
      setLimits recipient (upd_lastReset (assign now)) >>
      setLimits recipient (upd_consecutiveFailures (assign 0)) >>
      setLimits recipient (upd_rapidAttempts (assign 0)) >>
      metric (upd_banned_recipients_count decr)
  else ret tt.

(** Lines 251-284: "Check consecutive failures". *)
Definition consecutiveFailureCheck (recipient : string) (now : Z) : M unit :=
  let* cfg := gets config in
  let* l := limitsOf recipient in
  if consecutiveFailures l >=? nullish (rl maxConsecutiveFailures cfg) 3 then
    let failureCooldown := nullish (rl failureCooldown cfg) 300000 in
    if now - lastFailure l <? failureCooldown then
      setLimits recipient (upd_banned (assign true)) >>
      setLimits recipient
        (upd_banExpiry (assign (now + nullish (rl banDuration cfg) 7200000))) >>
      metric (upd_last_email_status (assign StatusFailure)) >>
      metric (upd_errors_by_type (upd_errors_rate_limit incr)) >>
      metric (upd_banned_recipients_count incr) >>
      writeLog "debug"
        [("recipient", JStr recipient); ("event", JStr "banned");
         ("consecutiveFailures", JNum (consecutiveFailures l));
         ("failureCooldown", JNum failureCooldown);
         ("message", JStr "Too many consecutive failures for recipient")] >>
      rateLimitError "Too many consecutive failures for recipient"
        [("recipient", JStr recipient);
         ("consecutiveFailures", JNum (consecutiveFailures l));
         ("failureCooldown", JNum failureCooldown)]
    else setLimits recipient (upd_consecutiveFailures (assign 0))
  else ret tt.

(** Lines 286-290: "Reset count if cooldown period has passed". *)
Definition windowReset (recipient : string) (now : Z) : M unit :=
  let* cfg := gets config in
  let* l := limitsOf recipient in
  if now - lastReset l >? nullish (rl cooldownPeriod cfg) 1000 then
    setLimits recipient (upd_count (assign 0)) >>
    setLimits recipient (upd_lastReset (assign now))
  else ret tt.

(** Lines 292-318: "Check burst limit". *)
Definition burstCheck (recipient : string) : M unit :=
  let* cfg := gets config in
  let* l := limitsOf recipient in
  if reaches (count l) (nullish (rl burstLimit cfg) (Fin 5)) then
    metric (upd_rate_limit_exceeded_total incr) >>
    metric (upd_last_email_status (assign StatusFailure)) >>
    metric (upd_errors_by_type (upd_errors_rate_limit incr)) >>
    writeLog "debug"
      [("recipient", JStr recipient); ("event", JStr "banned");
       ("burstLimit", JFloat (nullish (rl burstLimit cfg) (Fin 5)));
       ("cooldownPeriod", JNum (nullish (rl cooldownPeriod cfg) 1000));
       ("message", JStr "Rate limit exceeded for recipient")] >>
    rateLimitError "Rate limit exceeded for recipient"
      [("recipient", JStr recipient);
       ("burstLimit", JFloat (nullish (rl burstLimit cfg) (Fin 5)));
       ("cooldownPeriod", JNum (nullish (rl cooldownPeriod cfg) 1000))]
  else ret tt.

(** The body of [checkRateLimit] once [now] has been read. *)
Definition checkRateLimitAt (recipient : string) (now : Z) : M unit :=
  materialize recipient now >>
  rapidAttemptCheck recipient now >>
  banCheck recipient now >>
  consecutiveFailureCheck recipient now >>
  windowReset recipient now >>
  burstCheck recipient >>
  setLimits recipient (upd_count incr).

Definition checkRateLimit (recipient : string) : M unit :=
  let* now := dateNow in
  checkRateLimitAt recipient now.

(** *** Sockets *)

(** One more answer of an oracle. *)
Definition ask {A : Type} (oracle : Env -> nat -> A) : M A :=
  fun st => (Ok (oracle env (tick st)), upd_tick S st).

Definition socketEvent (e : SocketEvent) : M unit :=
  modify (upd_sockets (fun history => app history [e])).

(** A socket is named by the tick at which it was made. *)
Definition createConnection : M nat :=
  let* cfg := gets config in
  let* socket := gets tick in
  socketEvent (SockConnect socket (host cfg) (port cfg)) >>
  let* outcome := ask env_connect in
  match outcome with
  | Connected =>
      metric (upd_active_connections incr) >>
      if truthy_bool (secure cfg) then socketEvent (SockTls socket) >> ret socket
      else ret socket
  | ConnectTimeout =>
      socketEvent (SockDestroy socket) >>
      metric (upd_connection_errors incr) >>
      metric (upd_last_email_status (assign StatusFailure)) >>
      metric (upd_errors_by_type (upd_errors_timeout incr)) >>
      let* stamp := dateNow in
      throw {| code := "ETIMEDOUT"; message := "Connection timeout";
               details_type := "connection_error";
               details_context :=
                 [("host", JStr (host cfg)); ("port", JNum (port cfg));
                  ("timeout", match timeout cfg with
                              | Some ms => JNum ms
                              | None => JUndefined
                              end)];
               details_timestamp := JIso stamp |}
  | ConnectError errCode errMessage =>
      metric (upd_connection_errors incr) >>
      metric (upd_last_email_status (assign StatusFailure)) >>
      metric (upd_errors_by_type (upd_errors_connection incr)) >>
      let* stamp := dateNow in
      throw {| code := or_str errCode "ECONNECTION"; message := errMessage;
               details_type := "connection_error";
               details_context :=
                 [("host", JStr (host cfg)); ("port", JNum (port cfg));
                  ("originalError",
                   JObj [("code", match errCode with
                                  | Some c => JStr c
                                  | None => JUndefined
                                  end);
                         ("message", JStr errMessage)])];
               details_timestamp := JIso stamp |}
  end.

Definition sendCommand (socket : nat) (command : string) : M string :=
  socketEvent (SockWrite socket (command ++ JsString.CRLF)) >>
  let* outcome := ask env_command in
  match outcome with
  | Response response => ret response
  | WriteError errMessage =>
      metric (upd_last_email_status (assign StatusFailure)) >>
      metric (upd_errors_by_type (upd_errors_command incr)) >>
      let* stamp := dateNow in
      throw {| code := "ECOMMAND"; message := "Failed to send command";
               details_type := "command_error";
               details_context :=
                 [("command", JStr (String.substring 0 20 command ++ "..."));
                  ("error", JObj [("message", JStr errMessage)])];
               details_timestamp := JIso stamp |}
  end.

Definition verifyConnection : M bool :=
  try_catch
    (let* socket := createConnection in
     socketEvent (SockEnd socket) >>
     ret true)
    (fun _ =>
       metric (upd_last_email_status (assign StatusFailure)) >>
       metric (upd_errors_by_type (upd_errors_connection incr)) >>
       ret false).

Definition generateBoundary : M string :=
  let* hex := ask env_randomHex in
  ret ("----" ++ hex).

(** *** MIME composer *)

(** [buffer.toString('base64')] *)
Definition base64Alphabet : string :=
  "ABCDEFGHIJKLMNOPQRSTUVWXYZabcdefghijklmnopqrstuvwxyz0123456789+/".

Definition sextet (n : N) (shift : N) : string :=
  match String.get (N.to_nat (N.land (N.shiftr n shift) 63)) base64Alphabet with
  | Some c => String c EmptyString
  | None => EmptyString
  end.

Fixpoint base64 (bytes : string) : string :=
  match bytes with
  | EmptyString => EmptyString
  | String a EmptyString =>
      let n := (N_of_ascii a * 65536)%N in
      sextet n 18 ++ sextet n 12 ++ "=="
  | String a (String b EmptyString) =>
      let n := (N_of_ascii a * 65536 + N_of_ascii b * 256)%N in
      sextet n 18 ++ sextet n 12 ++ sextet n 6 ++ "="
  | String a (String b (String c rest)) =>
      let n := (N_of_ascii a * 65536 + N_of_ascii b * 256 + N_of_ascii c)%N in
      sextet n 18 ++ sextet n 12 ++ sextet n 6 ++ sextet n 0 ++ base64 rest
  end.

(** The table [mimeTypes] of the package. *)
Definition mimeTypes : list (string * string) :=
  [ (".aac", "audio/aac");
    (".abw", "application/x-abiword");
    (".arc", "application/x-freearc");
    (".azw", "application/vnd.amazon.ebook");
    (".bin", "application/octet-stream");
    (".bz", "application/x-bzip");
    (".bz2", "application/x-bzip2");
    (".cda", "application/x-cdf");
    (".csh", "application/x-csh");
    (".doc", "application/msword");
    (".docx", "application/vnd.openxmlformats-officedocument.wordprocessingml.document");
    (".eot", "application/vnd.ms-fontobject");
    (".epub", "application/epub+zip");
    (".gz", "application/gzip");
    (".jar", "application/java-archive");
    (".json", "application/json");
    (".jsonld", "application/ld+json");
    (".mpkg", "application/vnd.apple.installer+xml");
    (".odp", "application/vnd.oasis.opendocument.presentation");
    (".ods", "application/vnd.oasis.opendocument.spreadsheet");
    (".odt", "application/vnd.oasis.opendocument.text");
    (".ogx", "application/ogg");
    (".pdf", "application/pdf");
    (".php", "application/x-httpd-php");
    (".ppt", "application/vnd.ms-powerpoint");
    (".pptx", "application/vnd.openxmlformats-officedocument.presentationml.presentation");
    (".rar", "application/vnd.rar");
    (".rtf", "application/rtf");
    (".sh", "application/x-sh");
    (".tar", "application/x-tar");
    (".vsd", "application/vnd.visio");
    (".xhtml", "application/xhtml+xml");
    (".xls", "application/vnd.ms-excel");
    (".xlsx", "application/vnd.openxmlformats-officedocument.spreadsheetml.sheet");
    (".xml", "application/xml");
    (".xul", "application/vnd.mozilla.xul+xml");
    (".zip", "application/zip");
    (".7z", "application/x-7z-compressed");
    (".mid", "audio/midi");
    (".midi", "audio/midi");
    (".mp3", "audio/mpeg");
    (".oga", "audio/ogg");
    (".opus", "audio/opus");
    (".wav", "audio/wav");
    (".weba", "audio/webm");
    (".3gp", "audio/3gpp");
    (".3g2", "audio/3gpp2");
    (".apng", "image/apng");
    (".avif", "image/avif");
    (".bmp", "image/bmp");
    (".gif", "image/gif");
    (".ico", "image/vnd.microsoft.icon");
    (".jpeg", "image/jpeg");
    (".jpg", "image/jpeg");
    (".png", "image/png");
    (".svg", "image/svg+xml");
    (".tif", "image/tiff");
    (".tiff", "image/tiff");
    (".webp", "image/webp");
    (".css", "text/css");
    (".csv", "text/csv");
    (".htm", "text/html");
    (".html", "text/html");
    (".ics", "text/calendar");
    (".js", "text/javascript");
    (".mjs", "text/javascript");
    (".txt", "text/plain");
    (".avi", "video/x-msvideo");
    (".mp4", "video/mp4");
    (".mpeg", "video/mpeg");
    (".ogv", "video/ogg");
    (".ts", "video/mp2t");
    (".webm", "video/webm");
    (".wmv", "video/x-ms-wmv");
    (".otf", "font/otf");
    (".ttf", "font/ttf");
    (".woff", "font/woff");
    (".woff2", "font/woff2");
    (".gltf", "model/gltf+json");
    (".glb", "model/gltf-binary");
    (".obj", "model/obj");
    (".stl", "model/stl");
    (".usdz", "model/vnd.usdz+zip");
    (".cif", "chemical/x-cif");
    (".mol", "chemical/x-mdl-molfile");
    (".pdb", "chemical/x-pdb");
    (".xyz", "chemical/x-xyz");
    (".dwg", "image/vnd.dwg");
    (".dxf", "image/vnd.dxf");
    (".step", "application/step");
    (".stp", "application/step");
    (".iges", "model/iges");
    (".igs", "model/iges");
    (".mdb", "application/x-msaccess");
    (".sql", "application/sql");
    (".sqlite", "application/x-sqlite3");
    (".db", "application/x-sqlite3");
    (".ai", "application/postscript");
    (".eps", "application/postscript");
    (".ps", "application/postscript");
    (".mobi", "application/x-mobipocket-ebook");
    (".azw3", "application/vnd.amazon.ebook");
    (".cer", "application/x-x509-ca-cert");
    (".crt", "application/x-x509-ca-cert");
    (".der", "application/x-x509-ca-cert");
    (".p7b", "application/x-pkcs7-certificates");
    (".p7c", "application/x-pkcs7-mime");
    (".p7m", "application/x-pkcs7-mime");
    (".p7s", "application/x-pkcs7-signature");
    (".pem", "application/x-pem-file");
    (".cfg", "text/plain");
    (".conf", "text/plain");
    (".ini", "text/plain");
    (".log", "text/plain");
    (".prop", "text/plain");
    (".properties", "text/plain");
    (".yaml", "text/yaml");
    (".yml", "text/yaml");
    (".toml", "text/plain");
    (".c", "text/x-c");
    (".cpp", "text/x-c++");
    (".cs", "text/x-csharp");
    (".go", "text/x-go");
    (".java", "text/x-java-source");
    (".py", "text/x-python");
    (".rb", "text/x-ruby");
    (".rs", "text/x-rust");
    (".swift", "text/x-swift");
    (".tsx", "text/typescript-jsx");
    (".jsx", "text/jsx") ].

Fixpoint tableLookup (key : string) (table : list (string * string))
  : option string :=
  match table with
  | [] => None
  | (k, v) :: rest => if String.eqb key k then Some v else tableLookup key rest
  end.

Definition detectMimeType (filename : string) : string :=
  let ext := JsString.toLowerCase (env_extname env filename) in
  or_str (tableLookup ext mimeTypes) "application/octet-stream".

(** [None] is the [Error] thrown by a failed check. *)
Definition sanitizePath (filePath : string) : option string :=
  let normalizedPath := env_normalize env filePath in
  let absolutePath :=
    if env_isAbsolute env normalizedPath then normalizedPath
    else env_join env (env_cwd env) normalizedPath in
  if negb (env_existsSync env absolutePath) then None
  else if negb (env_readable env absolutePath) then None
  else Some absolutePath.

(** [Array.isArray(a) ? a.join(', ') : a] *)
Definition joined (a : Addresses) : string :=
  match a with
  | One s => s
  | Many l => JsString.join ", " l
  end.

(** Truthiness of an optional [string | string[]]. *)
Definition given (a : option Addresses) : bool :=
  match a with
  | Some (One s) => JsString.truthy s
  | Some (Many _) => true
  | None => false
  end.

Definition truthy_content (c : option Content) : bool :=
  match c with
  | Some (Text s) => JsString.truthy s
  | Some (Buffer _) => true
  | None => false
  end.

Definition contentBytes (c : option Content) : string :=
  match c with
  | Some (Text s) => s
  | Some (Buffer b) => b
  | None => EmptyString
  end.

(** The text put after [From: ], [To: ], [Cc: ] and [Subject: ]
    (lines 474-479). *)
Definition fromHeaderValue (cfg : MailerConfig) : string :=
  sanitizeHeader (from cfg).

Definition toHeaderValue (options : MailOptions) : string :=
  sanitizeHeader (joined (to options)).

Definition ccHeaderValue (options : MailOptions) : string :=
  match cc options with
  | Some a => joined a
  | None => EmptyString
  end.

Definition subjectHeaderValue (options : MailOptions) : string :=
  sanitizeHeader (subject options).

Definition quoted (s : string) : string :=
  String JsString.DQUOTE s ++ String JsString.DQUOTE EmptyString.

(** Lines 472-480. *)
Definition mimeHeaders (cfg : MailerConfig) (options : MailOptions)
    (boundary : string) : string :=
  let CRLF := JsString.CRLF in
  let message := EmptyString in
  let message := message ++ "MIME-Version: 1.0" ++ CRLF in
  let message := message ++ "From: " ++ fromHeaderValue cfg ++ CRLF in
  let message := message ++ "To: " ++ toHeaderValue options ++ CRLF in
  let message :=
    if given (cc options)
    then message ++ "Cc: " ++ ccHeaderValue options ++ CRLF
    else message in
  let message := message ++ "Subject: " ++ subjectHeaderValue options ++ CRLF in
  message ++ "Content-Type: multipart/mixed; boundary=" ++ quoted boundary
          ++ CRLF ++ CRLF.

(** Lines 482-493. *)
Definition mimeBodies (options : MailOptions) (boundary : string)
    (message : string) : string :=
  let CRLF := JsString.CRLF in
  let message :=
    if truthy_str (text options)
    then message ++ "--" ++ boundary ++ CRLF
                 ++ "Content-Type: text/plain; charset=utf-8" ++ CRLF ++ CRLF
                 ++ default EmptyString (text options) ++ CRLF ++ CRLF
    else message in
  if truthy_str (html options)
  then message ++ "--" ++ boundary ++ CRLF
               ++ "Content-Type: text/html; charset=utf-8" ++ CRLF ++ CRLF
               ++ default EmptyString (html options) ++ CRLF ++ CRLF
  else message.

Definition attachmentError (attachmentPath : string) : M (string * string) :=
  metric (upd_last_email_status (assign StatusFailure)) >>
  metric (upd_errors_by_type (upd_errors_attachment incr)) >>
  let* stamp := dateNow in
  throw {| code := "EATTACHMENT"; message := "Failed to read attachment file";
           details_type := "attachment_error";
           details_context :=
             [("path", JStr attachmentPath); ("error", JObj [])];
           details_timestamp := JIso stamp |}.

(** Lines 501-531: content and file name of an attachment given by path. *)
Definition loadAttachment (attachment : Attachment) (attachmentPath : string)
  : M (string * string) :=
  match sanitizePath attachmentPath with
  | None => attachmentError attachmentPath
  | Some filePath =>
      match env_readFileSync env filePath with
      | None => attachmentError attachmentPath
      | Some bytes =>
          let name :=
            if negb (truthy_str (filename attachment))
            then env_basename env filePath
            else
              let given_name := default EmptyString (filename attachment) in
              let fileExt := env_extname env filePath in
              if JsString.truthy (env_extname env given_name) then given_name
              else given_name ++ fileExt in
          ret (bytes, name)
      end
  end.

(** Lines 541-547. *)
Definition attachmentPart (attachment : Attachment) (boundary : string)
    (bytes name : string) : string :=
  let CRLF := JsString.CRLF in
  let type :=
    if truthy_str (contentType attachment)
    then default EmptyString (contentType attachment)
    else detectMimeType name in
  "--" ++ boundary ++ CRLF
  ++ "Content-Type: " ++ type ++ CRLF
  ++ "Content-Disposition: attachment; filename=" ++ quoted name ++ CRLF
  ++ "Content-Transfer-Encoding: " ++ or_str (encoding attachment) "base64"
  ++ CRLF ++ CRLF
  ++ base64 bytes ++ CRLF ++ CRLF.

(** Lines 497-548: the loop over the attachments. *)
Fixpoint mimeAttachments (list : list Attachment) (boundary : string)
    (message : string) : M string :=
  match list with
  | [] => ret message
  | attachment :: rest =>
      if truthy_str (path attachment) then
        let* loaded :=
          loadAttachment attachment (default EmptyString (path attachment)) in
        mimeAttachments rest boundary
          (message ++ attachmentPart attachment boundary (fst loaded) (snd loaded))
      else if truthy_content (content attachment) then
        mimeAttachments rest boundary
          (message ++ attachmentPart attachment boundary
                        (contentBytes (content attachment))
                        (or_str (filename attachment) "attachment"))
      else mimeAttachments rest boundary message
  end.

Definition buildMimeMessage (options : MailOptions) (boundary : string)
  : M string :=
  let* cfg := gets config in
  let message := mimeHeaders cfg options boundary in
  let message := mimeBodies options boundary message in
  let* message :=
    match attachments options with
    | Some list => mimeAttachments list boundary message
    | None => ret message
    end in
  ret (message ++ "--" ++ boundary ++ "--" ++ JsString.CRLF ++ ".").

(** *** Metrics accumulator *)

Definition digit (c : ascii) : option Z :=
  let n := nat_of_ascii c in
  if (48 <=? n)%nat && (n <=? 57)%nat then Some (Z.of_nat n - 48) else None.

(** [parseFloat] on an unsigned decimal literal, which is what the keys of
    the histogram are; [None] is [NaN]. *)
Fixpoint parseDecimal (s : string) (num : Z) (den : positive)
    (seenDigit seenDot : bool) : option Q :=
  let stop := if seenDigit then Some (num # den) else None in
  match s with
  | EmptyString => stop
  | String c rest =>
      match digit c with
      | Some d =>
          if seenDot then parseDecimal rest (num * 10 + d) (den * 10) true true
          else parseDecimal rest (num * 10 + d) den true false
      | None =>
          if Ascii.eqb c "." && negb seenDot
          then parseDecimal rest num den seenDigit true
          else stop
      end
  end.

Definition parseFloat (s : string) : option Q := parseDecimal s 0 1 false false.

(** [x <= parseFloat(bucket)] *)
Definition atMost (x : Q) (bucket : string) : bool :=
  match parseFloat bucket with
  | Some cutoff => Qle_bool x cutoff
  | None => false
  end.

Definition Qmax (a b : Q) : Q := if Qle_bool a b then b else a.
Definition Qmin (a b : Q) : Q := if Qle_bool a b then a else b.

(** Lines 910-914: the loop over [Object.keys(buckets)]. *)
Definition bumpBuckets (sendTimeSeconds : Q) (buckets : list (string * Z))
  : list (string * Z) :=
  map (fun kv => if atMost sendTimeSeconds (fst kv)
                 then (fst kv, incr (snd kv)) else kv) buckets.

Definition duration (f : Duration -> Duration) : M unit :=
  metric (upd_email_send_duration_seconds f).

Definition updateMetrics (success : bool) (sendTime : Z) : M unit :=
  metric (upd_emails_total incr) >>
  (if success then
     metric (upd_emails_successful incr) >>
     metric (upd_last_email_status (assign StatusSuccess)) >>
     metric (upd_consecutive_failures (assign 0))
   else
     metric (upd_emails_failed incr) >>
     metric (upd_last_email_status (assign StatusFailure))) >>
  let sendTimeSeconds := (inject_Z sendTime / 1000)%Q in
  duration (upd_d_count incr) >>
  duration (upd_d_sum (fun sum => (sum + sendTimeSeconds)%Q)) >>
  duration (fun d =>
    upd_d_avg (assign (js_div (d_sum d) (inject_Z (d_count d)))) d) >>
  duration (upd_d_max (fun max => Qmax max sendTimeSeconds)) >>
  duration (upd_d_min (fun min => Qmin min sendTimeSeconds)) >>
  duration (upd_d_buckets (bumpBuckets sendTimeSeconds)) >>
  let* now := dateNow in
  let timeWindow := 60000%Q in
  metric (fun m =>
    upd_email_send_rate
      (assign (js_div (inject_Z (emails_total m))
                 (inject_Z (now - last_email_timestamp m) / timeWindow)%Q)) m) >>
  metric (upd_last_email_timestamp (assign now)).

Definition getMetrics : M Metrics := gets metrics.

(** *** Mailer facade *)

Definition addressList (a : Addresses) : list string :=
  match a with
  | One s => [s]
  | Many l => l
  end.

Definition optionalAddressList (a : option Addresses) : list string :=
  match a with
  | Some x => if given a then addressList x else []
  | None => []
  end.

Definition allRecipients (options : MailOptions) : list string :=
  (addressList (to options) ++ optionalAddressList (cc options)
     ++ optionalAddressList (bcc options))%list.

Definition addressesValue (a : Addresses) : jsvalue :=
  match a with
  | One s => JStr s
  | Many l => JArr (map JStr l)
  end.

Definition errorValue (e : MailError) : jsvalue :=
  JObj [("code", JStr (code e)); ("message", JStr (message e));
        ("details",
         JObj [("type", JStr (details_type e));
               ("context", JObj (details_context e));
               ("timestamp", details_timestamp e)])].

(** Lines 672-689. *)
Definition validateRecipient (recipient : string) : M unit :=
  if negb (validateEmail recipient) then
    metric (upd_last_email_status (assign StatusFailure)) >>
    metric (upd_errors_by_type (upd_errors_validation incr)) >>
    let* stamp := dateNow in
    throw {| code := "EINVALIDEMAIL";
             message := "Invalid email format: " ++ recipient;
             details_type := "validation_error";
             details_context := [("recipient", JStr recipient)];
             details_timestamp := JIso stamp |}
  else ret tt.

(** Lines 820-848: the counter of the error's kind. *)
Definition countErrorType (type : string) : M unit :=
  let bump f := metric (upd_errors_by_type f) in
  if JsString.truthy type then
    if String.eqb type "connection_error" then bump (upd_errors_connection incr)
    else if String.eqb type "authentication_error"
    then bump (upd_errors_authentication incr)
    else if String.eqb type "rate_limit_error" then bump (upd_errors_rate_limit incr)
    else if String.eqb type "validation_error" then bump (upd_errors_validation incr)
    else if String.eqb type "timeout_error" then bump (upd_errors_timeout incr)
    else if String.eqb type "attachment_error" then bump (upd_errors_attachment incr)
    else if String.eqb type "command_error" then bump (upd_errors_command incr)
    else bump (upd_errors_unknown incr)
  else bump (upd_errors_unknown incr).

Definition failureStats (f : FailureStats -> FailureStats) : M unit :=
  metric (upd_failure_details f).

(** Lines 772-877: the [catch] block of [sendMail], entered with the
    values the locals [socket] and [currentCommand] have at that time. *)
Definition sendFailed (options : MailOptions) (recipientList : list string)
    (startTime : Z) (socket : option nat) (currentCommand : string)
    (error : MailError) : M SendResult :=
  let* cfg := gets config in
  let* stamp := dateNow in
  let failureDetails :=
    {| failure_timestamp := stamp;
       failure_recipient := JsString.join ", " recipientList;
       failure_subject := subject options;
       failure_error := error;
       failure_command := currentCommand;
       failure_attempt := 1 |} in
  metric (upd_failed_emails (fun l => app l [failureDetails])) >>
  failureStats (upd_last_error (assign (Some failureDetails))) >>
  for_each recipientList (fun recipient =>
    failureStats (upd_error_count_by_recipient (fun counts =>
      let currentCount := default 0 (counts !! recipient) in
      <[recipient := currentCount + 1]> counts))) >>
  failureStats (fun d =>
    let counts := error_count_by_recipient d in
    let totalRecipients := Z.of_nat (size counts) in
    let totalFailures := map_fold (fun _ n sum => sum + n) 0 counts in
    upd_avg_failures_per_recipient
      (assign (if totalRecipients =? 0 then 0%Q
               else (inject_Z totalFailures / inject_Z totalRecipients)%Q)) d) >>
  when (truthy_bool (rl perRecipient cfg))
    (for_each recipientList (fun recipient =>
       let* limits := gets (fun st => rateLimits st !! recipient) in
       match limits with
       | Some _ =>
           setLimits recipient (upd_consecutiveFailures incr) >>
           let* now := dateNow in
           setLimits recipient (upd_lastFailure (assign now))
       | None => ret tt
       end)) >>
  let* now := dateNow in
  let sendTime := now - startTime in
  updateMetrics false sendTime >>
  metric (upd_last_email_status (assign StatusFailure)) >>
  metric (upd_consecutive_failures incr) >>
  let* now := dateNow in
  metric (upd_last_error_timestamp (assign (Some now))) >>
  countErrorType (details_type error) >>
  let* stamp := dateNow in
  let errorDetails :=
    {| code := or_str (Some (code error)) "EUNKNOWN";
       message := or_str (Some (message error)) "An unknown error occurred";
       details_type := or_str (Some (details_type error)) "smtp_error";
       details_context :=
         JsObject.spread (details_context error)
           [("lastCommand", JStr currentCommand);
            ("recipients", JArr (map JStr recipientList));
            ("subject", JStr (subject options));
            ("attemptNumber", JNum 1);
            ("socketState",
             JStr (match socket with
                   | Some _ => "connected"
                   | None => "disconnected"
                   end))];
       details_timestamp := JIso stamp |} in
  writeLog "error"
    [("success", JBool false); ("event", JStr "mail_failure");
     ("error", errorValue errorDetails);
     ("recipients", addressesValue (to options));
     ("subject", JStr (subject options));
     ("sendTime", JNum sendTime)] >>
  throw errorDetails.

(** A statement of the [try] block: when [m] throws, the [catch] block
    [h] runs; the rest [k] of the block runs otherwise. *)
Definition attempt {A B : Type} (m : M A) (h : MailError -> M B)
    (k : A -> M B) : M B :=
  fun st =>
    match m st with
    | (Ok a, st') => k a st'
    | (Throw e, st') => h e st'
    end.

(** Lines 878-883: the [finally] block, for a socket that was made. *)
Definition closeSocket (socket : nat) (st : Mailer) : Mailer :=
  if negb (truthy_bool (keepAlive (config st))) then
    upd_metrics (upd_active_connections decr)
      (upd_sockets (fun history => app history [SockEnd socket]) st)
  else st.

(** Lines 733-770: the end of the [try] block, from [DATA] on. *)
Definition sendData (options : MailOptions) (recipientList : list string)
    (startTime : Z) (socket : nat) : M SendResult :=
  let* cfg := gets config in
  sendCommand socket "DATA" >>
  let* boundary := generateBoundary in
  let* mimeMessage := buildMimeMessage options boundary in
  sendCommand socket mimeMessage >>
  let* messageId := ask env_randomHex in
  let* now := dateNow in
  let sendTime := now - startTime in
  when (truthy_bool (rl perRecipient cfg))
    (for_each recipientList (fun recipient =>
       setLimits recipient (upd_consecutiveFailures (assign 0)))) >>
  updateMetrics true sendTime >>
  writeLog "info"
    [("success", JBool true); ("event", JStr "mail_success");
     ("messageId", JStr messageId);
     ("recipients", addressesValue (to options));
     ("subject", JStr (subject options));
     ("sendTime", JNum sendTime)] >>
  let* stamp := dateNow in
  ret {| success := true; messageId := messageId;
         result_timestamp := stamp;
         recipients := JsString.join ", " recipientList |}.

(** Lines 698-883: the transaction. *)
Definition transaction (options : MailOptions) (recipientList : list string)
  : M SendResult :=
  let* cfg := gets config in
  let* startTime := dateNow in
  let catch := sendFailed options recipientList startTime in
  attempt createConnection (catch None "") (fun socket =>
  let catch := catch (Some socket) in
  finally
    (attempt (sendCommand socket ("EHLO " ++ host cfg)) (catch "EHLO") (fun _ =>
     attempt
       (when (negb (truthy_bool (secure cfg)))
          (sendCommand socket "STARTTLS" >> socketEvent (SockTls socket)))
       (catch "STARTTLS") (fun _ =>
     attempt
       (sendCommand socket "AUTH LOGIN" >>
        sendCommand socket (base64 (auth_user cfg)) >>
        sendCommand socket (base64 (auth_pass cfg)))
       (catch "AUTH") (fun _ =>
     attempt (sendCommand socket ("MAIL FROM:<" ++ from cfg ++ ">"))
       (catch "MAIL FROM") (fun _ =>
     attempt
       (for_each recipientList (fun recipient =>
          sendCommand socket ("RCPT TO:<" ++ recipient ++ ">") >> ret tt))
       (catch "RCPT TO") (fun _ =>
     attempt (sendData options recipientList startTime socket)
       (catch "DATA") ret))))))
    (closeSocket socket)).

(** Lines 639-645: the attempt is logged. *)
Definition logAttempt (options : MailOptions) : M unit :=
  let* stamp := dateNow in
  writeLog "debug"
    [("event", JStr "mail_attempt");
     ("recipients", addressesValue (to options));
     ("subject", JStr (subject options));
     ("timestamp", JIso stamp)].

Definition sendMail (options : MailOptions) : M SendResult :=
  let* cfg := gets config in
  logAttempt options >>
  let* verified := verifyConnection in
  if negb verified then
    metric (upd_last_email_status (assign StatusFailure)) >>
    metric (upd_errors_by_type (upd_errors_connection incr)) >>
    let* stamp := dateNow in
    throw {| code := "ECONNECTION";
             message := "SMTP connection failed, cannot send email";
             details_type := "connection_error";
             details_context :=
               [("host", JStr (host cfg)); ("port", JNum (port cfg))];
             details_timestamp := JIso stamp |}
  else
    let recipientList := allRecipients options in
    for_each recipientList validateRecipient >>
    when (truthy_bool (rl perRecipient cfg))
      (for_each recipientList checkRateLimit) >>
    transaction options recipientList.

End Methods.

(** ** Concrete mailers and worlds used to exercise the model *)

Module Sample.

(** A relay that accepts every connection and answers every command;
    the clock advances by one millisecond per reading. *)
Definition world : Env :=
  {| env_now := fun t => 1700000000000 + Z.of_nat t;
     env_connect := fun _ => Connected;
     env_command := fun _ => Response "250 OK";
     env_randomHex := fun _ => "0123456789abcdef0123456789abcdef";
     env_appendFile := fun _ => true;
     env_mkdir := fun _ => true;
     env_cwd := "/srv/app";
     env_normalize := fun p => p;
     env_isAbsolute := fun p => JsString.startsWith p "/";
     env_join := fun a b => a ++ "/" ++ b;
     env_basename := fun p => p;
     env_extname := fun _ => "";
     env_existsSync := fun _ => true;
     env_readable := fun _ => true;
     env_readFileSync := fun _ => Some "hello" |}.

Definition withLogging (l : option Logging) : MailerConfig :=
  {| host := "smtp.example.com"; port := 465; secure := Some true;
     auth_user := "user"; auth_pass := "secret";
     from := "sender@example.com";
     retryAttempts := None; timeout := None; keepAlive := None;
     poolSize := None; rateLimiting := None; logging := l |}.

Definition loggingAt (lvl : string) (custom : list string) : option Logging :=
  Some {| level := Some lvl; format := Some "json";
          customFields := Some custom; destination := Some "mailer.log" |}.

(** The configuration of the README: no logging section. *)
Definition plainConfig : MailerConfig := withLogging None.

Definition mailerOf (cfg : MailerConfig) : Mailer :=
  default
    {| config := cfg; metrics := initialMetrics cfg 0 0; rateLimits := ∅;
       logFilePath := None; logFile := []; sockets := []; tick := 0 |}
    (newFastMailer world cfg [] [] 0).

Definition plainMailer : Mailer := mailerOf plainConfig.


Definition mailTo (recipient : string) : MailOptions :=
  {| to := One recipient; subject := "Hello"; text := Some "Hi";
     html := None; attachments := None; cc := None; bcc := None |}.

End Sample.

(** ** Notions used to state the properties *)

(** The counters and the timing record: what [updateMetrics] writes and no
    other method does. *)
Definition core (m : Metrics) : Z * Z * Z * Duration :=
  (emails_total m, emails_successful m, emails_failed m,
   email_send_duration_seconds m).

(** [buckets[key]] of the histogram. *)
Fixpoint bucketOf (key : string) (buckets : list (string * Z)) : option Z :=
  match buckets with
  | [] => None
  | (k, n) :: rest => if String.eqb key k then Some n else bucketOf key rest
  end.

Definition bucket (key : string) (m : Metrics) : option Z :=
  bucketOf key (d_buckets (email_send_duration_seconds m)).

(** The states a mailer goes through: it is constructed, and then its two
    public methods run on it. *)
Inductive reachable (env : Env) : Mailer -> Prop :=
| reachable_new :
    forall (cfg : MailerConfig) (file : list LogLine)
           (history : list SocketEvent) (t : nat) (st : Mailer),
      newFastMailer env cfg file history t = Some st -> reachable env st
| reachable_sendMail :
    forall (st : Mailer) (options : MailOptions),
      reachable env st -> reachable env (snd (sendMail env options st))
| reachable_verifyConnection :
    forall (st : Mailer),
      reachable env st -> reachable env (snd (verifyConnection env st)).

(** A method keeps a property of the metrics. *)
Definition keeps {A : Type} (P : Metrics -> Prop) (m : M A) : Prop :=
  forall st : Mailer, P (metrics st) -> P (metrics (snd (m st))).

(** The cutoffs of the histogram, in seconds, under their keys. *)
Definition cutoffs : list (string * Q) :=
  [("0.1", 0.1%Q); ("0.5", 0.5%Q); ("1", 1%Q); ("2", 2%Q); ("5", 5%Q)].

(** [1] when a send of [seconds] falls at or under [cutoff]. *)
Definition hit (seconds cutoff : Q) : Z :=
  if Qle_bool seconds cutoff then 1 else 0.

(** The consistency of the counters. *)
Definition counters_add_up (m : Metrics) : Prop :=
  emails_total m = emails_successful m + emails_failed m.

(** The last bucket never runs ahead of the number of timed sends. *)
Definition last_bucket_bounded (m : Metrics) : Prop :=
  exists n : Z,
    bucket "5" m = Some n /\ n <= d_count (email_send_duration_seconds m).

(** The bucket under [key] holds at least [n]. *)
Definition bucket_at_least (key : string) (n : Z) (m : Metrics) : Prop :=
  exists n' : Z, bucket key m = Some n' /\ n <= n'.

(** [Q] holds of what [m] returns or throws, and of the mailer it leaves. *)
Definition wp {A : Type} (m : M A) (Q : Result A -> Mailer -> Prop)
    (st : Mailer) : Prop :=
  Q (fst (m st)) (snd (m st)).

(** The mailer is configured by [cfg] and holds an entry for [recipient],
    of which [F] holds. *)
Definition tracks (cfg : MailerConfig) (recipient : string)
    (F : RecipientLimits -> Prop) (st : Mailer) : Prop :=
  config st = cfg
  /\ exists l : RecipientLimits, rateLimits st !! recipient = Some l /\ F l.

(** [this.config.rateLimiting?.burstLimit ?? 5] *)
Definition effectiveBurstLimit (cfg : MailerConfig) : jsnum :=
  nullish (rl burstLimit cfg) (Fin 5).

Definition rapidMessage : string := "Too many rapid sending attempts".

(** The mailer after [n] calls of [checkRateLimit] for one recipient. *)
Fixpoint afterChecks (env : Env) (n : nat) (recipient : string) (st : Mailer)
  : Mailer :=
  match n with
  | O => st
  | S k => snd (checkRateLimit env recipient (afterChecks env k recipient st))
  end.

(** What the probe of [verifyConnection] does to socket [socket] when the
    relay accepts the connection: connect, wrap in TLS on a secure
    configuration, end. *)
Definition probeEvents (cfg : MailerConfig) (socket : nat) : list SocketEvent :=
  (SockConnect socket (host cfg) (port cfg)
   :: (if truthy_bool (secure cfg) then [SockTls socket] else [])
   ++ [SockEnd socket])%list.

(** What it does when the connection fails. *)
Definition failedProbeEvents (cfg : MailerConfig) (socket : nat)
    (outcome : ConnectOutcome) : list SocketEvent :=
  SockConnect socket (host cfg) (port cfg)
  :: match outcome with
     | ConnectTimeout => [SockDestroy socket]
     | _ => []
     end.

(** The rejection of an invalid recipient as the specification words it:
    [EINVALIDEMAIL], [validation_error], [emails_total] untouched and no
    socket event at all. *)
Definition rejects_invalid_without_socket (env : Env) (options : MailOptions)
    (st : Mailer) : Prop :=
  exists (e : MailError) (st' : Mailer),
    sendMail env options st = (Throw e, st')
    /\ code e = "EINVALIDEMAIL"
    /\ details_type e = "validation_error"
    /\ emails_total (metrics st') = emails_total (metrics st)
    /\ sockets st' = sockets st.

(** A relay that refuses every connection. *)
Definition refusingWorld : Env :=
  {| env_now := env_now Sample.world;
     env_connect := fun _ => ConnectError (Some "ECONNREFUSED") "refused";
     env_command := env_command Sample.world;
     env_randomHex := env_randomHex Sample.world;
     env_appendFile := env_appendFile Sample.world;
     env_mkdir := env_mkdir Sample.world;
     env_cwd := env_cwd Sample.world;
     env_normalize := env_normalize Sample.world;
     env_isAbsolute := env_isAbsolute Sample.world;
     env_join := env_join Sample.world;
     env_basename := env_basename Sample.world;
     env_extname := env_extname Sample.world;
     env_existsSync := env_existsSync Sample.world;
     env_readable := env_readable Sample.world;
     env_readFileSync := env_readFileSync Sample.world |}.



(** One turn of the loop of [maskSensitiveData]. *)
Definition maskStep (masked : obj) (field : string) : obj :=
  if JsObject.truthy_at field masked then JsObject.set field MASK masked
  else masked.

(** What a step leaves alone when it only writes the log or reads the
    clock. *)
Definition untouched (st st' : Mailer) : Prop :=
  config st' = config st /\ metrics st' = metrics st
  /\ rateLimits st' = rateLimits st /\ sockets st' = sockets st.

(** Every character class of [r] lies within [p]. *)
Fixpoint uses_only (p : ascii -> bool) (r : Regex.regex) : Prop :=
  match r with
  | Regex.Void | Regex.Eps => True
  | Regex.Cls q => forall c : ascii, q c = true -> p c = true
  | Regex.Cat a b | Regex.Alt a b => uses_only p a /\ uses_only p b
  | Regex.Star a => uses_only p a
  end.

(** [r] matches nothing, by its shape. *)
Fixpoint void (r : Regex.regex) : bool :=
  match r with
  | Regex.Void => true
  | Regex.Eps | Regex.Cls _ | Regex.Star _ => false
  | Regex.Cat a b => void a || void b
  | Regex.Alt a b => void a && void b
  end.

(** The characters an address accepted by [emailRegex] is made of. *)
Definition email_char (c : ascii) : bool :=
  local_char c || Ascii.eqb "." c || Ascii.eqb "@" c.


(** A payload with a credential in it. *)
Definition loginPayload : obj :=
  [("event", JStr "login"); ("password", JStr "hunter2")].

(** A mailer whose burst limit is two, as in the rate-limit tests. *)
Definition burstTwoMailer : Mailer :=
  Sample.mailerOf
    {| host := "smtp.example.com"; port := 465; secure := Some true;
       auth_user := "user"; auth_pass := "secret";
       from := "sender@example.com";
       retryAttempts := None; timeout := None; keepAlive := None;
       poolSize := None;
       rateLimiting :=
         Some {| perRecipient := Present true; burstLimit := Present (Fin 2);
                 cooldownPeriod := Present 1000;
                 banDuration := Present 7200000;
                 maxConsecutiveFailures := Present 3;
                 failureCooldown := Present 300000;
                 maxRapidAttempts := Omitted; rapidPeriod := Omitted |};
       logging := None |}.

(** A mailer that writes its log in the text format. *)
Definition textMailer : Mailer :=
  Sample.mailerOf
    (Sample.withLogging
       (Some {| level := Some "debug"; format := Some "text";
                customFields := Some ["password"];
                destination := Some "mailer.log" |})).

(** ** Notions used to state further properties *)

(** Every string matched by [r] holds the character [c]. *)
Fixpoint needs (c : ascii) (r : Regex.regex) : Prop :=
  match r with
  | Regex.Void => True
  | Regex.Eps | Regex.Star _ => False
  | Regex.Cls p => forall x : ascii, p x = true -> x = c
  | Regex.Cat a b => needs c a \/ needs c b
  | Regex.Alt a b => needs c a /\ needs c b
  end.

(** No character of [s] is one of those the sanitizer strips. *)
Fixpoint header_clean (s : string) : bool :=
  match s with
  | EmptyString => true
  | String c rest => negb (header_unsafe c) && header_clean rest
  end.

(** A mailer that logs at [info] into a file. *)
Definition infoMailer : Mailer :=
  Sample.mailerOf (Sample.withLogging (Sample.loggingAt "info" [])).

(** [k] is one of the four keys that get masked. *)
Definition sensitive (k : string) : bool :=
  existsb (String.eqb k) sensitiveFields.

(** Every run of [m] takes the mailer to one related to it by [R]. *)
Definition steps {A : Type} (R : Mailer -> Mailer -> Prop) (m : M A) : Prop :=
  forall st : Mailer, R st (snd (m st)).

(** The configuration and the path of the log file are the same. *)
Definition same_setup (st st' : Mailer) : Prop :=
  config st' = config st /\ logFilePath st' = logFilePath st.

(** The log file has only grown. *)
Definition log_extended (st st' : Mailer) : Prop :=
  exists extra : list LogLine, logFile st' = (logFile st ++ extra)%list.

(** No rate-limit entry has gone. *)
Definition entries_kept (st st' : Mailer) : Prop :=
  forall k : string,
    is_Some (rateLimits st !! k) -> is_Some (rateLimits st' !! k).

(** The rate-limit entry of [k] is as it was. *)
Definition entry_untouched (k : string) (st st' : Mailer) : Prop :=
  rateLimits st' !! k = rateLimits st !! k.

(** The socket history is as it was. *)
Definition no_socket_event (st st' : Mailer) : Prop :=
  sockets st' = sockets st.

(** The timing record counts what [emails_total] counts. *)
Definition timed_every_send (m : Metrics) : Prop :=
  d_count (email_send_duration_seconds m) = emails_total m.

(** The buckets of the histogram are ordered like their cutoffs. *)
Definition buckets_ordered (m : Metrics) : Prop :=
  exists a b c d e : Z,
    bucket "0.1" m = Some a /\ bucket "0.5" m = Some b
    /\ bucket "1" m = Some c /\ bucket "2" m = Some d
    /\ bucket "5" m = Some e
    /\ 0 <= a /\ a <= b /\ b <= c /\ c <= d /\ d <= e.

(** The extremes of the timing record are consistent. *)
Definition extremes_consistent (m : Metrics) : Prop :=
  let d := email_send_duration_seconds m in
  0 <= d_count d
  /\ (0 <= d_max d)%Q
  /\ (d_min d <= MAX_VALUE)%Q
  /\ (1 <= d_count d -> (d_min d <= d_max d)%Q).

(** The limits in force, as [checkRateLimit] reads them. *)
Definition rapidPeriodOf (cfg : MailerConfig) : Z :=
  or_num (rl rapidPeriod cfg) 10000.

Definition maxRapidAttemptsOf (cfg : MailerConfig) : Z :=
  or_num (rl maxRapidAttempts cfg) 10.

Definition rapidBanDurationOf (cfg : MailerConfig) : Z :=
  or_num (rl banDuration cfg) 7200000.

Definition failureBanDurationOf (cfg : MailerConfig) : Z :=
  nullish (rl banDuration cfg) 7200000.

Definition maxConsecutiveFailuresOf (cfg : MailerConfig) : Z :=
  nullish (rl maxConsecutiveFailures cfg) 3.

Definition failureCooldownOf (cfg : MailerConfig) : Z :=
  nullish (rl failureCooldown cfg) 300000.

Definition cooldownPeriodOf (cfg : MailerConfig) : Z :=
  nullish (rl cooldownPeriod cfg) 1000.

(** The call at [now] is one rapid attempt too many. *)
Definition rapid_trips (cfg : MailerConfig) (now : Z) (l : RecipientLimits)
  : Prop :=
  now - lastAttempt l < rapidPeriodOf cfg
  /\ maxRapidAttemptsOf cfg <= rapidAttempts l + 1.

(** The mailer is configured by [cfg], holds the entry [l] for [recipient]
    and the metrics [m]. *)
Definition holds (cfg : MailerConfig) (recipient : string)
    (l : RecipientLimits) (m : Metrics) (st : Mailer) : Prop :=
  config st = cfg /\ rateLimits st !! recipient = Some l /\ metrics st = m.

(** A mailer with an entry put in by hand, as the rate-limit tests do. *)
Definition withEntry (recipient : string) (l : RecipientLimits) (st : Mailer)
  : Mailer :=
  upd_rateLimits (insert recipient l) st.

Definition sampleEntry (l : RecipientLimits) : Mailer :=
  withEntry "a@b.co" l burstTwoMailer.

(** The time the sample clock shows to a call on [st]. *)
Definition sampleNow (st : Mailer) : Z := env_now Sample.world (tick st).

(** After the call the entry of [recipient] and the metrics satisfy [Q],
    together with what was returned or thrown. *)
Definition leaves (recipient : string)
    (Q : Result unit -> RecipientLimits -> Metrics -> Prop)
  : Result unit -> Mailer -> Prop :=
  fun res st' =>
    exists l' : RecipientLimits,
      rateLimits st' !! recipient = Some l' /\ Q res l' (metrics st').

Definition entryOf (count lastReset : Z) (banned : bool)
    (banExpiry consecutiveFailures lastFailure rapidAttempts lastAttempt : Z)
  : RecipientLimits :=
  mkRecipientLimits count lastReset banned banExpiry consecutiveFailures
    lastFailure rapidAttempts lastAttempt.

(** Entries for the scenarios of the rate-limit tests; the sample clock
    shows 1700000000002 to the call. *)
Definition bannedEntry : RecipientLimits :=
  entryOf 0 1700000000000 true 1700007200000 3 1700000000000 0 0.

Definition fullEntry : RecipientLimits :=
  entryOf 2 1700000000000 false 0 0 0 0 0.

Definition staleEntry : RecipientLimits :=
  entryOf 2 1699999998900 false 0 0 0 0 0.

Definition failingEntry : RecipientLimits :=
  entryOf 0 1700000000000 false 0 3 1700000000000 0 0.

Definition expiredEntry : RecipientLimits :=
  entryOf 2 1600000000000 true 1600007200000 3 1600000000000 4 0.

Definition rapidEntry : RecipientLimits :=
  entryOf 1 1700000000000 false 0 0 0 9 1700000000000.

(** The three send counters. *)
Definition counters (m : Metrics) : Z * Z * Z :=
  (emails_total m, emails_successful m, emails_failed m).

(** The counters [c] after one more successful, or one more failed, send. *)
Definition oneMoreSuccess (c : Z * Z * Z) : Z * Z * Z :=
  let '(total, ok, failed) := c in (total + 1, ok + 1, failed).

Definition oneMoreFailure (c : Z * Z * Z) : Z * Z * Z :=
  let '(total, ok, failed) := c in (total + 1, ok, failed + 1).

(** From metrics that satisfy [P], [m] returns with [Qok] or throws with
    [Qthrow]. *)
Definition mwp {A : Type} (m : M A) (P : Metrics -> Prop)
    (Qok : A -> Metrics -> Prop) (Qthrow : MailError -> Metrics -> Prop)
  : Prop :=
  forall st : Mailer,
    P (metrics st) ->
    match fst (m st) with
    | Ok a => Qok a (metrics (snd (m st)))
    | Throw e => Qthrow e (metrics (snd (m st)))
    end.

(** [true] for a connection that was made. *)
Definition connected (outcome : ConnectOutcome) : bool :=
  match outcome with
  | Connected => true
  | _ => false
  end.

(** The metrics whose send counters are [c]. *)
Definition counted (c : Z * Z * Z) (m : Metrics) : Prop := counters m = c.

(** What [sendMail] leaves behind when it returns [r]. *)
Definition sent_once (c : Z * Z * Z) (r : SendResult) (m : Metrics) : Prop :=
  success r = true
  /\ counted (oneMoreSuccess c) m
  /\ last_email_status m = StatusSuccess
  /\ consecutive_failures m = 0.

(** What the [catch] block of [sendMail] leaves behind. *)
Definition failed_once (c : Z * Z * Z) (m : Metrics) : Prop :=
  counted (oneMoreFailure c) m /\ last_email_status m = StatusFailure.

(** Every error that [m] throws satisfies [E]. *)
Definition throws_only {A : Type} (E : MailError -> Prop) (m : M A) : Prop :=
  forall (st : Mailer) (e : MailError), fst (m st) = Throw e -> E e.

(** An error whose [code], [message] and [details.type] are all set. *)
Definition well_formed_error (e : MailError) : Prop :=
  JsString.truthy (code e) = true
  /\ JsString.truthy (message e) = true
  /\ JsString.truthy (details_type e) = true.

(** What a probe does to the metrics, by the outcome of the connection. *)
Definition probeMetrics (outcome : ConnectOutcome) (m : Metrics) : Metrics :=
  match outcome with
  | Connected => upd_active_connections incr m
  | ConnectTimeout =>
      upd_errors_by_type (upd_errors_connection incr)
        (upd_errors_by_type (upd_errors_timeout incr)
           (upd_last_email_status (assign StatusFailure)
              (upd_connection_errors incr m)))
  | ConnectError _ _ =>
      upd_errors_by_type (upd_errors_connection incr)
        (upd_errors_by_type (upd_errors_connection incr)
           (upd_last_email_status (assign StatusFailure)
              (upd_connection_errors incr m)))
  end.

(** A relay that never answers the connection. *)
Definition silentWorld : Env :=
  {| env_now := env_now Sample.world;
     env_connect := fun _ => ConnectTimeout;
     env_command := env_command Sample.world;
     env_randomHex := env_randomHex Sample.world;
     env_appendFile := env_appendFile Sample.world;
     env_mkdir := env_mkdir Sample.world;
     env_cwd := env_cwd Sample.world;
     env_normalize := env_normalize Sample.world;
     env_isAbsolute := env_isAbsolute Sample.world;
     env_join := env_join Sample.world;
     env_basename := env_basename Sample.world;
     env_extname := env_extname Sample.world;
     env_existsSync := env_existsSync Sample.world;
     env_readable := env_readable Sample.world;
     env_readFileSync := env_readFileSync Sample.world |}.

(** An attachment that [buildMimeMessage] can put into the message: it has
    no [path], or its file passes [sanitizePath] and can be read. *)
Definition loadable (env : Env) (a : Attachment) : bool :=
  if truthy_str (path a) then
    match sanitizePath env (default EmptyString (path a)) with
    | Some filePath =>
        match env_readFileSync env filePath with
        | Some _ => true
        | None => false
        end
    | None => false
    end
  else true.

(** The closing line of a MIME message. *)
Definition mimeTerminator (boundary : string) : string :=
  "--" ++ boundary ++ "--" ++ JsString.CRLF ++ ".".

(** What a rejected attachment leaves behind. *)
Definition attachment_rejected (e : MailError) (m m' : Metrics) : Prop :=
  code e = "EATTACHMENT"
  /\ details_type e = "attachment_error"
  /\ errors_attachment (errors_by_type m')
     = errors_attachment (errors_by_type m) + 1
  /\ last_email_status m' = StatusFailure
  /\ core m' = core m.

(** A property that is written, with a value or with [undefined]. *)
Definition written {A : Type} (p : property A) : Prop := p <> Omitted.

(** A rate-limiting section with every option written: none is left to
    be filled in. *)
Definition complete (r : RateLimiting) : Prop :=
  written (perRecipient r) /\ written (burstLimit r)
  /\ written (cooldownPeriod r) /\ written (banDuration r)
  /\ written (maxConsecutiveFailures r) /\ written (failureCooldown r)
  /\ written (maxRapidAttempts r) /\ written (rapidPeriod r).

(** An option that is set and is not [0]. *)
Definition set_nonzero (a : option Z) : Prop :=
  exists n : Z, a = Some n /\ n <> 0.

(** A configuration as the constructor leaves it. *)
Definition normal (cfg : MailerConfig) : Prop :=
  normalizeConfig cfg = cfg
  /\ JsString.truthy (from cfg) = true
  /\ (port cfg = 465 -> secure cfg = Some true)
  /\ set_nonzero (retryAttempts cfg)
  /\ set_nonzero (timeout cfg)
  /\ set_nonzero (poolSize cfg)
  /\ is_Some (keepAlive cfg)
  /\ (exists r, rateLimiting cfg = Some r /\ complete r)
  /\ (exists l, logging cfg = Some l
                /\ truthy_str (level l) = true
                /\ truthy_str (format l) = true
                /\ is_Some (customFields l)).

(** Neither the configuration nor the socket history has changed. *)
Definition quiet (st st' : Mailer) : Prop :=
  config st' = config st /\ sockets st' = sockets st.

(** When [m] returns [a], the configuration is still [cfg] and the socket
    history has grown by events [evs] with [Q a evs]. *)
Definition traces (cfg : MailerConfig) {A : Type} (m : M A)
    (Q : A -> list SocketEvent -> Prop) : Prop :=
  forall (st : Mailer) (a : A) (st' : Mailer),
    config st = cfg -> m st = (Ok a, st') ->
    config st' = cfg
    /\ exists evs : list SocketEvent,
         sockets st' = (sockets st ++ evs)%list /\ Q a evs.

(** One command written to the socket. *)
Definition commandLine (socket : nat) (command : string) : SocketEvent :=
  SockWrite socket (command ++ JsString.CRLF).

(** The connection is made, and wrapped in TLS on a secure configuration. *)
Definition connectEvents (cfg : MailerConfig) (socket : nat)
  : list SocketEvent :=
  SockConnect socket (host cfg) (port cfg)
  :: (if truthy_bool (secure cfg) then [SockTls socket] else []).

(** The SMTP dialogue of one message on socket [socket]. *)
Definition dialogue (cfg : MailerConfig) (socket : nat)
    (recipientList : list string) (mimeMessage : string)
  : list SocketEvent :=
  (connectEvents cfg socket
   ++ [commandLine socket ("EHLO " ++ host cfg)]
   ++ (if negb (truthy_bool (secure cfg))
       then [commandLine socket "STARTTLS"; SockTls socket] else [])
   ++ [commandLine socket "AUTH LOGIN";
       commandLine socket (base64 (auth_user cfg));
       commandLine socket (base64 (auth_pass cfg));
       commandLine socket ("MAIL FROM:<" ++ from cfg ++ ">")]
   ++ map (fun recipient =>
             commandLine socket ("RCPT TO:<" ++ recipient ++ ">"))
        recipientList
   ++ [commandLine socket "DATA"; commandLine socket mimeMessage]
   ++ (if negb (truthy_bool (keepAlive cfg)) then [SockEnd socket] else []))%list.

(** A MIME message of [options] between its headers and its closing line. *)
Definition framed (cfg : MailerConfig) (options : MailOptions)
    (mimeMessage : string) : Prop :=
  exists boundary parts : string,
    mimeMessage
    = mimeHeaders cfg options boundary ++ parts ++ mimeTerminator boundary.

(** The oracles have been asked at least as often. *)
Definition later (st st' : Mailer) : Prop := (tick st <= tick st')%nat.




(** A configuration that writes [burstLimit: undefined]. *)
Definition undefinedBurstConfig : MailerConfig :=
  {| host := "smtp.example.com"; port := 465; secure := Some true;
     auth_user := "user"; auth_pass := "secret";
     from := "sender@example.com";
     retryAttempts := None; timeout := None; keepAlive := None;
     poolSize := None;
     rateLimiting :=
       Some {| perRecipient := Omitted; burstLimit := Undefined;
               cooldownPeriod := Omitted; banDuration := Omitted;
               maxConsecutiveFailures := Omitted; failureCooldown := Omitted;
               maxRapidAttempts := Omitted; rapidPeriod := Omitted |};
     logging := None |}.

(** A ban that expires beyond the last day of [Date]. *)
Definition endlessBan : RecipientLimits :=
  entryOf 0 1700000000000 true 9008899254740993 3 1700000000000 0 0.

(** A recipient whose entry is banned until a time that [Date] cannot
    hold. *)
Definition endlessly_banned (st : Mailer) (recipient : string) : Prop :=
  exists l : RecipientLimits,
    rateLimits st !! recipient = Some l
    /\ banned l = true /\ validTime (banExpiry l) = false.

(** * Properties *)

(** ** Header sanitizer *)

Section SanitizerFacts.
Import JsString.

Lemma sanitizeHeader_keeps_safe (c : ascii) (x : string) :
  header_unsafe c = true -> contains c (sanitizeHeader x) = false.
Proof.
  intros Hc. induction x as [|a rest IH]; simpl; [reflexivity|].
  destruct (header_unsafe a) eqn:Ha; [exact IH|].
  simpl. rewrite IH, orb_false_r.
  destruct (Ascii.eqb_spec a c) as [->|]; [congruence|reflexivity].
Qed.

Lemma sanitizeHeader_fixed (x : string) :
  sanitizeHeader (sanitizeHeader x) = sanitizeHeader x.
Proof.
  induction x as [|a rest IH]; simpl; [reflexivity|].
  destruct (header_unsafe a) eqn:Ha; [exact IH|].
  simpl. rewrite Ha, IH. reflexivity.
Qed.

(** C6: the header sanitizer is idempotent, and what it returns holds
    none of CR, LF, TAB, VT and FF. *)
Theorem sanitizeHeader_idempotent_and_clean :
  forall x : string,
    sanitizeHeader (sanitizeHeader x) = sanitizeHeader x
    /\ contains CR (sanitizeHeader x) = false
    /\ contains LF (sanitizeHeader x) = false
    /\ contains TAB (sanitizeHeader x) = false
    /\ contains VT (sanitizeHeader x) = false
    /\ contains FF (sanitizeHeader x) = false.
Proof.
  intros x. split; [apply sanitizeHeader_fixed|].
  repeat split; apply sanitizeHeader_keeps_safe; reflexivity.
Qed.

End SanitizerFacts.

(** ** Address validator *)

(** C7: the validator turns down the seven malformed addresses and lets
    the three well-formed ones through. *)
Theorem validateEmail_reference_addresses :
  validateEmail "" = false
  /\ validateEmail "a b@c.d" = false
  /\ validateEmail "a..b@c.d" = false
  /\ validateEmail ".a@c.d" = false
  /\ validateEmail "a.@c.d" = false
  /\ validateEmail "a@@c.d" = false
  /\ validateEmail "notanemail" = false
  /\ validateEmail "a@b.co" = true
  /\ validateEmail "a.b@c.d.e" = true
  /\ validateEmail "a+b@c.d" = true.
Proof. repeat split; vm_compute; reflexivity. Qed.

(** The pre-checks do not decide the verdicts alone: these two pass them
    and are turned down by the expression. *)
Example validateEmail_needs_regex :
  Regex.test emailRegex "a.@c.d" = false /\ Regex.test emailRegex "notanemail" = false
  /\ Regex.test emailRegex "a@b" = false /\ Regex.test emailRegex "a-@b.co" = false
  /\ Regex.test emailRegex "a@b-.co" = false /\ Regex.test emailRegex "a@b-c.co" = true.
Proof. repeat split; vm_compute; reflexivity. Qed.

(** ** Structured logger *)

Lemma eqb_string_true (a b : string) : String.eqb a b = true <-> a = b.
Proof. apply String.eqb_eq. Qed.

(** C8: the level filter is an equality test.  A [debug] configuration
    logs every level; an [info], [warn] or [error] configuration logs a
    message exactly when its level is the configured one, so [warn] drops
    the [error] messages. *)
Theorem shouldLog_equality_filter :
  forall (cfg : MailerConfig) (level : string),
    (configLevel cfg = "debug" -> shouldLog cfg level = true)
    /\ (configLevel cfg = "info" \/ configLevel cfg = "warn"
        \/ configLevel cfg = "error" ->
        (shouldLog cfg level = true <-> level = configLevel cfg))
    /\ (configLevel cfg = "warn" -> shouldLog cfg "error" = false).
Proof.
  intros cfg level. unfold shouldLog.
  split; [|split].
  - intros ->. reflexivity.
  - intros [-> | [-> | ->]]; simpl; rewrite eqb_string_true; tauto.
  - intros ->. reflexivity.
Qed.

Lemma shouldLog_equality_filter_witness :
  shouldLog (Sample.withLogging (Sample.loggingAt "debug" [])) "error" = true
  /\ shouldLog (Sample.withLogging (Sample.loggingAt "warn" [])) "warn" = true
  /\ shouldLog (Sample.withLogging (Sample.loggingAt "warn" [])) "error" = false.
Proof.
  split; [|split].
  - exact (proj1 (shouldLog_equality_filter
                    (Sample.withLogging (Sample.loggingAt "debug" [])) "error")
             eq_refl).
  - exact (proj2 (proj1 (proj2 (shouldLog_equality_filter
                    (Sample.withLogging (Sample.loggingAt "warn" [])) "warn"))
                    (or_intror (or_introl eq_refl)))
             eq_refl).
  - exact (proj2 (proj2 (shouldLog_equality_filter
                    (Sample.withLogging (Sample.loggingAt "warn" [])) "error"))
             eq_refl).
Defined.

Section ObjectFacts.
Import JsObject.

Lemma get_set_same (k : string) (v : jsvalue) (o : obj) :
  get k (set k v o) = Some v.
Proof.
  induction o as [|[k' v'] rest IH]; simpl.
  - rewrite String.eqb_refl. reflexivity.
  - destruct (String.eqb k k') eqn:E; simpl; rewrite E; [reflexivity|exact IH].
Qed.

Lemma get_set_other (k k' : string) (v : jsvalue) (o : obj) :
  k <> k' -> get k (set k' v o) = get k o.
Proof.
  intros Hne. induction o as [|[k0 v0] rest IH]; simpl.
  - destruct (String.eqb_spec k k'); [contradiction|reflexivity].
  - destruct (String.eqb_spec k' k0) as [->|Hk0]; simpl.
    + destruct (String.eqb_spec k k0); [contradiction|reflexivity].
    + destruct (String.eqb_spec k k0); [reflexivity|exact IH].
Qed.





End ObjectFacts.

Section LoggerFacts.
Variable env : Env.


End LoggerFacts.

(** ** Frame: which methods leave which part of the metrics alone *)

Section Keeps.
Context {P : Metrics -> Prop}.

Lemma keeps_ret {A : Type} (a : A) : keeps P (ret a).
Proof. intros st H. exact H. Qed.

Lemma keeps_throw {A : Type} (e : MailError) : keeps P (@throw A e).
Proof. intros st H. exact H. Qed.

Lemma keeps_gets {A : Type} (f : Mailer -> A) : keeps P (gets f).
Proof. intros st H. exact H. Qed.

Lemma keeps_bind {A B : Type} (m : M A) (k : A -> M B) :
  keeps P m -> (forall a, keeps P (k a)) -> keeps P (bind m k).
Proof.
  intros Hm Hk st H. unfold bind. specialize (Hm st H).
  destruct (m st) as [[a|e] st']; simpl in *; [apply Hk|]; exact Hm.
Qed.

Lemma keeps_try_catch {A : Type} (m : M A) (h : MailError -> M A) :
  keeps P m -> (forall e, keeps P (h e)) -> keeps P (try_catch m h).
Proof.
  intros Hm Hh st H. unfold try_catch. specialize (Hm st H).
  destruct (m st) as [[a|e] st']; simpl in *; [|apply Hh]; exact Hm.
Qed.

Lemma keeps_attempt {A B : Type} (m : M A) (h : MailError -> M B)
    (k : A -> M B) :
  keeps P m -> (forall e, keeps P (h e)) -> (forall a, keeps P (k a)) ->
  keeps P (attempt m h k).
Proof.
  intros Hm Hh Hk st H. unfold attempt. specialize (Hm st H).
  destruct (m st) as [[a|e] st']; simpl in *; [apply Hk|apply Hh]; exact Hm.
Qed.

Lemma keeps_finally {A : Type} (m : M A) (f : Mailer -> Mailer) :
  keeps P m -> (forall st, P (metrics st) -> P (metrics (f st))) ->
  keeps P (finally m f).
Proof.
  intros Hm Hf st H. unfold finally. specialize (Hm st H).
  destruct (m st) as [r st']; simpl in *. apply Hf. exact Hm.
Qed.

Lemma keeps_when (b : bool) (m : M unit) : keeps P m -> keeps P (when b m).
Proof. intros Hm. destruct b; [exact Hm|apply keeps_ret]. Qed.

Lemma keeps_for_each {A : Type} (xs : list A) (body : A -> M unit) :
  (forall x, keeps P (body x)) -> keeps P (for_each xs body).
Proof.
  intros Hbody. induction xs as [|x rest IH]; simpl; [apply keeps_ret|].
  apply keeps_bind; [apply Hbody|intros _; exact IH].
Qed.

Lemma keeps_modify (f : Mailer -> Mailer) :
  (forall st, metrics (f st) = metrics st) -> keeps P (modify f).
Proof. intros Hf st H. simpl. rewrite Hf. exact H. Qed.

Lemma keeps_metric (f : Metrics -> Metrics) :
  (forall m, P m -> P (f m)) -> keeps P (metric f).
Proof. intros Hf st H. simpl. apply Hf. exact H. Qed.

End Keeps.

(** Takes a method apart down to its assignments. *)
Ltac keeps_structure :=
  repeat match goal with
    | |- keeps _ (ret _) => apply keeps_ret
    | |- keeps _ (throw _) => apply keeps_throw
    | |- keeps _ (gets _) => apply keeps_gets
    | |- keeps _ (bind _ _) => apply keeps_bind; [|intros ?]
    | |- keeps _ (try_catch _ _) => apply keeps_try_catch; [|intros ?]
    | |- keeps _ (attempt _ _ _) => apply keeps_attempt; [|intros ?|intros ?]
    | |- keeps _ (when _ _) => apply keeps_when
    | |- keeps _ (for_each _ _) => apply keeps_for_each; intros ?
    | |- keeps _ (modify _) => apply keeps_modify; intros ?; reflexivity
    | |- keeps _ (if ?b then _ else _) => destruct b
    | |- keeps _ (match ?x with _ => _ end) => destruct x
    | |- keeps _ (let _ := _ in _) => cbv zeta
    end.

Section Frame.
Variable env : Env.
Variable P : Metrics -> Prop.
Hypothesis P_frame : forall m m' : Metrics, core m' = core m -> P m -> P m'.

Ltac frame :=
  keeps_structure;
  try match goal with
    | |- keeps _ (metric _) =>
        apply keeps_metric; intros ? ?; eapply P_frame; [|eassumption];
        reflexivity
    end.

Lemma keeps_dateNow : keeps P (dateNow env).
Proof. intros st H. exact H. Qed.

Lemma keeps_ask {A : Type} (oracle : Env -> nat -> A) : keeps P (ask env oracle).
Proof. intros st H. exact H. Qed.

Lemma keeps_appendFileSync (line : LogLine) :
  keeps P (appendFileSync env line).
Proof.
  intros st H. unfold appendFileSync.
  destruct (env_appendFile env (tick st)); exact H.
Qed.

Lemma keeps_writeLog (level : string) (data : obj) :
  keeps P (writeLog env level data).
Proof.
  unfold writeLog. frame;
    try first [apply keeps_dateNow | apply keeps_appendFileSync].
Qed.

Lemma keeps_setLimits (recipient : string)
    (f : RecipientLimits -> RecipientLimits) :
  keeps P (setLimits recipient f).
Proof. intros st H. exact H. Qed.

Lemma keeps_limitsOf (recipient : string) : keeps P (limitsOf recipient).
Proof. intros st H. exact H. Qed.

Lemma keeps_socketEvent (e : SocketEvent) : keeps P (socketEvent e).
Proof. intros st H. exact H. Qed.

Lemma keeps_rateLimitError (msg : string) (context : obj) :
  keeps P (rateLimitError env msg context).
Proof. unfold rateLimitError. frame; try apply keeps_dateNow. Qed.

Ltac frame_calls :=
  repeat first
    [ progress frame
    | match goal with
      | |- keeps _ (dateNow _) => apply keeps_dateNow
      | |- keeps _ (ask _ _) => apply keeps_ask
      | |- keeps _ (writeLog _ _ _) => apply keeps_writeLog
      | |- keeps _ (setLimits _ _) => apply keeps_setLimits
      | |- keeps _ (limitsOf _) => apply keeps_limitsOf
      | |- keeps _ (socketEvent _) => apply keeps_socketEvent
      | |- keeps _ (rateLimitError _ _ _) => apply keeps_rateLimitError
      end ].

Lemma keeps_checkRateLimit (recipient : string) :
  keeps P (checkRateLimit env recipient).
Proof.
  unfold checkRateLimit, checkRateLimitAt, materialize, rapidAttemptCheck,
    banCheck, consecutiveFailureCheck, windowReset, burstCheck.
  frame_calls.
Qed.

Lemma keeps_createConnection : keeps P (createConnection env).
Proof. unfold createConnection. frame_calls. Qed.

Lemma keeps_sendCommand (socket : nat) (command : string) :
  keeps P (sendCommand env socket command).
Proof. unfold sendCommand. frame_calls. Qed.

Lemma keeps_verifyConnection : keeps P (verifyConnection env).
Proof. unfold verifyConnection. frame_calls. apply keeps_createConnection. Qed.

Lemma keeps_validateRecipient (recipient : string) :
  keeps P (validateRecipient env recipient).
Proof. unfold validateRecipient. frame_calls. Qed.

Lemma keeps_mimeAttachments (list : list Attachment) (boundary message : string) :
  keeps P (mimeAttachments env list boundary message).
Proof.
  revert message. induction list as [|a rest IH]; intros message; simpl.
  - apply keeps_ret.
  - destruct (truthy_str (path a)).
    + apply keeps_bind; [|intros ?; apply IH].
      unfold loadAttachment, attachmentError. frame_calls.
    + destruct (truthy_content (content a)); apply IH.
Qed.

Lemma keeps_buildMimeMessage (options : MailOptions) (boundary : string) :
  keeps P (buildMimeMessage env options boundary).
Proof.
  unfold buildMimeMessage. frame_calls; try apply keeps_mimeAttachments.
Qed.

End Frame.

(** ** Metrics accumulator *)

Section Accumulator.
Variable env : Env.

(** What one call of [updateMetrics] does to the counters. *)
Lemma updateMetrics_counters (success : bool) (sendTime : Z) (st : Mailer) :
  let m := metrics st in
  let m' := metrics (snd (updateMetrics env success sendTime st)) in
  emails_total m' = emails_total m + 1
  /\ emails_successful m'
     = emails_successful m + (if success then 1 else 0)
  /\ emails_failed m' = emails_failed m + (if success then 0 else 1)
  /\ last_email_status m' = (if success then StatusSuccess else StatusFailure)
  /\ consecutive_failures m'
     = (if success then 0 else consecutive_failures m).
Proof.
  destruct success; cbn; unfold incr; repeat split; lia.
Qed.

(** What it does to the timing record. *)
Lemma updateMetrics_duration (success : bool) (sendTime : Z) (st : Mailer) :
  let d := email_send_duration_seconds (metrics st) in
  let d' := email_send_duration_seconds
              (metrics (snd (updateMetrics env success sendTime st))) in
  d_count d' = d_count d + 1
  /\ d_buckets d' = bumpBuckets (inject_Z sendTime / 1000)%Q (d_buckets d).
Proof.
  destruct success; cbn; unfold incr; split; try lia; reflexivity.
Qed.

Lemma bucketOf_bump (key : string) (s : Q) (buckets : list (string * Z)) :
  bucketOf key (bumpBuckets s buckets)
  = option_map (fun n => if atMost s key then n + 1 else n)
      (bucketOf key buckets).
Proof.
  induction buckets as [|[k n] rest IH]; simpl; [reflexivity|].
  destruct (atMost s k) eqn:Hk; simpl;
    destruct (String.eqb_spec key k) as [->|Hne]; simpl;
    try exact IH; rewrite ?Hk; unfold incr; f_equal; lia.
Qed.

Lemma bucket_updateMetrics (key : string) (success : bool) (sendTime : Z)
    (st : Mailer) :
  bucket key (metrics (snd (updateMetrics env success sendTime st)))
  = option_map
      (fun n => if atMost (inject_Z sendTime / 1000)%Q key then n + 1 else n)
      (bucket key (metrics st)).
Proof.
  unfold bucket.
  destruct (updateMetrics_duration success sendTime st) as [_ ->].
  apply bucketOf_bump.
Qed.

Section Invariant.
Variable P : Metrics -> Prop.
Hypothesis P_frame : forall m m' : Metrics, core m' = core m -> P m -> P m'.
Hypothesis P_update :
  forall (success : bool) (sendTime : Z),
    keeps P (updateMetrics env success sendTime).

Ltac method_calls :=
  repeat first
    [ progress keeps_structure
    | match goal with
      | |- keeps _ (metric _) =>
          apply keeps_metric; intros ? ?; eapply P_frame; [|eassumption];
          reflexivity
      | |- keeps _ (failureStats _) =>
          apply keeps_metric; intros ? ?; eapply P_frame; [|eassumption];
          reflexivity
      | |- keeps _ (dateNow _) => apply keeps_dateNow; exact P_frame
      | |- keeps _ (ask _ _) => apply keeps_ask; exact P_frame
      | |- keeps _ (writeLog _ _ _) => apply keeps_writeLog; exact P_frame
      | |- keeps _ (setLimits _ _) => apply keeps_setLimits; exact P_frame
      | |- keeps _ (socketEvent _) => apply keeps_socketEvent; exact P_frame
      | |- keeps _ (generateBoundary _) => unfold generateBoundary
      | |- keeps _ (logAttempt _ _) => unfold logAttempt
      | |- keeps _ (countErrorType _) => unfold countErrorType
      | |- keeps _ (createConnection _) =>
          apply keeps_createConnection; exact P_frame
      | |- keeps _ (sendCommand _ _ _) => apply keeps_sendCommand; exact P_frame
      | |- keeps _ (verifyConnection _) =>
          apply keeps_verifyConnection; exact P_frame
      | |- keeps _ (validateRecipient _ _) =>
          apply keeps_validateRecipient; exact P_frame
      | |- keeps _ (checkRateLimit _ _) =>
          apply keeps_checkRateLimit; exact P_frame
      | |- keeps _ (buildMimeMessage _ _ _) =>
          apply keeps_buildMimeMessage; exact P_frame
      | |- keeps _ (updateMetrics _ _ _) => apply P_update
      end ].

Lemma keeps_sendFailed (options : MailOptions) (recipientList : list string)
    (startTime : Z) (socket : option nat) (currentCommand : string)
    (error : MailError) :
  keeps P (sendFailed env options recipientList startTime socket
             currentCommand error).
Proof. unfold sendFailed. method_calls. Qed.

Lemma keeps_sendData (options : MailOptions) (recipientList : list string)
    (startTime : Z) (socket : nat) :
  keeps P (sendData env options recipientList startTime socket).
Proof. unfold sendData. method_calls. Qed.

Lemma keeps_closeSocket (socket : nat) (st : Mailer) :
  P (metrics st) -> P (metrics (closeSocket socket st)).
Proof.
  unfold closeSocket. destruct (negb _); [|tauto].
  apply P_frame. reflexivity.
Qed.

Lemma keeps_transaction (options : MailOptions) (recipientList : list string) :
  keeps P (transaction env options recipientList).
Proof.
  unfold transaction. method_calls.
  - apply keeps_sendFailed.
  - apply keeps_finally; [|apply keeps_closeSocket].
    method_calls; first [apply keeps_sendFailed | apply keeps_sendData].
Qed.

Lemma keeps_sendMail (options : MailOptions) : keeps P (sendMail env options).
Proof. unfold sendMail. method_calls. apply keeps_transaction. Qed.

(** A property of the metrics that holds of a new mailer holds of every
    state the mailer reaches. *)
Lemma reachable_metrics :
  (forall cfg t1 t2, P (initialMetrics cfg t1 t2)) ->
  forall st : Mailer, reachable env st -> P (metrics st).
Proof.
  intros Hinit st Hreach. induction Hreach as [cfg file history t st Hnew| |].
  - unfold newFastMailer in Hnew.
    destruct (negb _); [discriminate|].
    injection Hnew as <-. apply Hinit.
  - apply keeps_sendMail. assumption.
  - apply keeps_verifyConnection; assumption.
Qed.

End Invariant.

End Accumulator.

Section AccumulatorClaims.
Variable env : Env.

Lemma counters_add_up_frame (m m' : Metrics) :
  core m' = core m -> counters_add_up m -> counters_add_up m'.
Proof.
  unfold core, counters_add_up. intros Hcore H.
  injection Hcore as -> -> -> _. exact H.
Qed.

Lemma counters_add_up_update (success : bool) (sendTime : Z) :
  keeps counters_add_up (updateMetrics env success sendTime).
Proof.
  intros st H. unfold counters_add_up in *.
  destruct (updateMetrics_counters env success sendTime st)
    as (-> & -> & -> & _).
  destruct success; lia.
Qed.

(** C5: in every state a mailer reaches, [emails_total] is the sum of
    [emails_successful] and [emails_failed]; a call of [updateMetrics] adds
    one to [emails_total] and to exactly one of the two others, sets
    [last_email_status] accordingly, clears [consecutive_failures] on a
    success, and leaves the sum right. *)
Theorem updateMetrics_counts_each_send_once :
  forall st : Mailer,
    reachable env st ->
    counters_add_up (metrics st)
    /\ forall (success : bool) (sendTime : Z),
         let m := metrics st in
         let m' := metrics (snd (updateMetrics env success sendTime st)) in
         emails_total m' = emails_total m + 1
         /\ (if success
             then emails_successful m' = emails_successful m + 1
                  /\ emails_failed m' = emails_failed m
                  /\ last_email_status m' = StatusSuccess
                  /\ consecutive_failures m' = 0
             else emails_failed m' = emails_failed m + 1
                  /\ emails_successful m' = emails_successful m
                  /\ last_email_status m' = StatusFailure)
         /\ counters_add_up m'.
Proof.
  intros st Hreach.
  assert (Hinv : counters_add_up (metrics st)).
  { apply (reachable_metrics env counters_add_up); try assumption.
    - apply counters_add_up_frame.
    - apply counters_add_up_update.
    - intros cfg t1 t2. reflexivity. }
  split; [exact Hinv|].
  intros success sendTime m m'.
  destruct (updateMetrics_counters env success sendTime st)
    as (Htotal & Hok & Hko & Hstatus & Hconsecutive).
  split; [exact Htotal|]. split.
  - destruct success; repeat split; try assumption; lia.
  - apply counters_add_up_update. exact Hinv.
Qed.

Lemma parseFloat_cutoffs :
  forall (key : string) (cutoff : Q),
    In (key, cutoff) cutoffs -> parseFloat key = Some cutoff.
Proof.
  intros key cutoff Hin. simpl in Hin.
  repeat (destruct Hin as [Heq|Hin];
          [injection Heq as <- <-; reflexivity|]).
  destruct Hin.
Qed.

Lemma bucket_present_frame (key : string) (m m' : Metrics) :
  core m' = core m -> is_Some (bucket key m) -> is_Some (bucket key m').
Proof.
  unfold core, bucket. intros Hcore H.
  injection Hcore as _ _ _ ->. exact H.
Qed.

Lemma bucket_present_update (key : string) (success : bool) (sendTime : Z) :
  keeps (fun m => is_Some (bucket key m)) (updateMetrics env success sendTime).
Proof.
  intros st [n Hn]. rewrite bucket_updateMetrics, Hn. simpl. eauto.
Qed.

Lemma bucket_present (key : string) (cutoff : Q) (st : Mailer) :
  In (key, cutoff) cutoffs -> reachable env st ->
  is_Some (bucket key (metrics st)).
Proof.
  intros Hin Hreach.
  apply (reachable_metrics env (fun m => is_Some (bucket key m)));
    try assumption.
  - apply bucket_present_frame.
  - apply bucket_present_update.
  - intros cfg t1 t2. simpl in Hin.
    repeat (destruct Hin as [Heq|Hin];
            [injection Heq as <- <-; eexists; reflexivity|]).
    destruct Hin.
Qed.

Lemma last_bucket_bounded_frame (m m' : Metrics) :
  core m' = core m -> last_bucket_bounded m -> last_bucket_bounded m'.
Proof.
  unfold core, last_bucket_bounded, bucket. intros Hcore H.
  injection Hcore as _ _ _ ->. exact H.
Qed.

Lemma last_bucket_bounded_update (success : bool) (sendTime : Z) :
  keeps last_bucket_bounded (updateMetrics env success sendTime).
Proof.
  intros st (n & Hn & Hle). unfold last_bucket_bounded.
  rewrite bucket_updateMetrics, Hn.
  destruct (updateMetrics_duration env success sendTime st) as [-> _].
  simpl. eexists. split; [reflexivity|].
  destruct (atMost _ _); lia.
Qed.

Lemma bucket_at_least_frame (key : string) (n : Z) (m m' : Metrics) :
  core m' = core m -> bucket_at_least key n m -> bucket_at_least key n m'.
Proof.
  unfold core, bucket_at_least, bucket. intros Hcore H.
  injection Hcore as _ _ _ ->. exact H.
Qed.

Lemma bucket_at_least_update (key : string) (n : Z) (success : bool)
    (sendTime : Z) :
  keeps (bucket_at_least key n) (updateMetrics env success sendTime).
Proof.
  intros st (n' & Hn' & Hle). unfold bucket_at_least.
  rewrite bucket_updateMetrics, Hn'. simpl. eexists. split; [reflexivity|].
  destruct (atMost _ _); lia.
Qed.

(** C9: the buckets are cumulative.  In every state a mailer reaches, a
    call of [updateMetrics] with a duration of [s] seconds adds one to the
    bucket of each cutoff [b] of 0.1, 0.5, 1, 2 and 5 with [s <= b] and
    leaves the others; no bucket ever decreases over a call of
    [updateMetrics], [sendMail] or [verifyConnection]; and the bucket of 5
    is at most the [count] of the timing record. *)
Theorem histogram_buckets_cumulative :
  forall st : Mailer,
    reachable env st ->
    (forall (key : string) (cutoff : Q) (success : bool) (sendTime : Z),
       In (key, cutoff) cutoffs ->
       exists n : Z,
         bucket key (metrics st) = Some n
         /\ bucket key (metrics (snd (updateMetrics env success sendTime st)))
            = Some (n + hit (inject_Z sendTime / 1000)%Q cutoff))
    /\ (forall (key : string) (n : Z),
          bucket key (metrics st) = Some n ->
          (forall (success : bool) (sendTime : Z),
             bucket_at_least key n
               (metrics (snd (updateMetrics env success sendTime st))))
          /\ (forall options : MailOptions,
                bucket_at_least key n (metrics (snd (sendMail env options st))))
          /\ bucket_at_least key n (metrics (snd (verifyConnection env st))))
    /\ last_bucket_bounded (metrics st).
Proof.
  intros st Hreach. split; [|split].
  - intros key cutoff success sendTime Hin.
    destruct (bucket_present key cutoff st Hin Hreach) as [n Hn].
    exists n. split; [exact Hn|].
    rewrite bucket_updateMetrics, Hn. simpl.
    unfold atMost, hit. rewrite (parseFloat_cutoffs key cutoff Hin).
    destruct (Qle_bool _ _); f_equal; lia.
  - intros key n Hn.
    assert (Hnow : bucket_at_least key n (metrics st)).
    { exists n. split; [exact Hn|lia]. }
    split; [|split].
    + intros success sendTime. apply bucket_at_least_update. exact Hnow.
    + intros options.
      apply (keeps_sendMail env (bucket_at_least key n)); try assumption.
      * apply bucket_at_least_frame.
      * apply bucket_at_least_update.
    + apply (keeps_verifyConnection env (bucket_at_least key n));
        try assumption.
      apply bucket_at_least_frame.
  - apply (reachable_metrics env last_bucket_bounded); try assumption.
    + apply last_bucket_bounded_frame.
    + apply last_bucket_bounded_update.
    + intros cfg t1 t2. exists 0. split; [reflexivity|simpl; lia].
Qed.

End AccumulatorClaims.

Lemma sample_reachable :
  reachable Sample.world
    (snd (sendMail Sample.world (Sample.mailTo "a@b.co") Sample.plainMailer)).
Proof.
  apply reachable_sendMail.
  apply (reachable_new Sample.world Sample.plainConfig [] [] 0).
  vm_compute. reflexivity.
Defined.

Lemma updateMetrics_counts_each_send_once_witness :
  let st := snd (sendMail Sample.world (Sample.mailTo "a@b.co")
                   Sample.plainMailer) in
  reachable Sample.world st
  /\ emails_total (metrics st) = 1
  /\ counters_add_up (metrics st).
Proof.
  split; [exact sample_reachable|].
  split; [vm_compute; reflexivity|].
  exact (proj1 (updateMetrics_counts_each_send_once Sample.world _
                  sample_reachable)).
Defined.

Lemma histogram_buckets_cumulative_witness :
  let st := snd (sendMail Sample.world (Sample.mailTo "a@b.co")
                   Sample.plainMailer) in
  reachable Sample.world st
  /\ bucket "0.1" (metrics st) = Some 1
  /\ last_bucket_bounded (metrics st).
Proof.
  split; [exact sample_reachable|].
  split; [vm_compute; reflexivity|].
  exact (proj2 (proj2 (histogram_buckets_cumulative Sample.world _
                         sample_reachable))).
Defined.

(** ** Rate-limit controller *)



Section Wp.
Context {A B : Type}.

Lemma wp_bind (m : M A) (k : A -> M B) (Q : Result B -> Mailer -> Prop)
    (st : Mailer) :
  wp m (fun res st' =>
          match res with
          | Ok a => wp (k a) Q st'
          | Throw e => Q (Throw e) st'
          end) st ->
  wp (bind m k) Q st.
Proof.
  unfold wp, bind. destruct (m st) as [[a|e] st']; simpl; trivial.
Qed.

Lemma wp_then (m : M A) (k : A -> M B) (Q1 : Result A -> Mailer -> Prop)
    (Q : Result B -> Mailer -> Prop) (st : Mailer) :
  wp m Q1 st ->
  (forall res st',
     Q1 res st' ->
     match res with
     | Ok a => wp (k a) Q st'
     | Throw e => Q (Throw e) st'
     end) ->
  wp (bind m k) Q st.
Proof. intros Hm Hk. apply wp_bind. unfold wp in *. apply Hk, Hm. Qed.

End Wp.

Section RateLimitFacts.
Variable env : Env.
Variable cfg : MailerConfig.
Variable recipient : string.
Variable now : Z.

(** The methods called by the controller leave the entries alone. *)
Lemma writeLog_spec (level : string) (data : obj) (st : Mailer) :
  fst (writeLog env level data st) = Ok tt
  /\ rateLimits (snd (writeLog env level data st)) = rateLimits st
  /\ config (snd (writeLog env level data st)) = config st
  /\ metrics (snd (writeLog env level data st)) = metrics st
  /\ sockets (snd (writeLog env level data st)) = sockets st.
Proof.
  unfold writeLog, appendFileSync, bind, gets, dateNow, ret. simpl.
  destruct (negb _ || negb _); simpl; [auto|].
  destruct (env_appendFile _ _); simpl; auto.
Qed.

Lemma wp_writeLog (level : string) (data : obj)
    (Q : Result unit -> Mailer -> Prop) (st : Mailer) (l : RecipientLimits) :
  rateLimits st !! recipient = Some l -> config st = cfg ->
  (forall st', rateLimits st' !! recipient = Some l -> config st' = cfg ->
               Q (Ok tt) st') ->
  wp (writeLog env level data) Q st.
Proof.
  intros Hl Hc HQ. unfold wp.
  destruct (writeLog_spec level data st) as (-> & Hrl & Hcfg & _).
  apply HQ; congruence.
Qed.

Lemma wp_rateLimitError (msg : string) (context : obj)
    (Q : Result unit -> Mailer -> Prop) (st : Mailer) (l : RecipientLimits) :
  rateLimits st !! recipient = Some l -> config st = cfg ->
  (forall e st', message e = msg ->
                 rateLimits st' !! recipient = Some l -> config st' = cfg ->
                 Q (Throw e) st') ->
  wp (rateLimitError env msg context) Q st.
Proof. intros Hl Hc HQ. unfold wp. simpl. apply HQ; auto. Qed.

Lemma wp_metric (f : Metrics -> Metrics)
    (Q : Result unit -> Mailer -> Prop) (st : Mailer) (l : RecipientLimits) :
  rateLimits st !! recipient = Some l -> config st = cfg ->
  (forall st', rateLimits st' !! recipient = Some l -> config st' = cfg ->
               Q (Ok tt) st') ->
  wp (metric f) Q st.
Proof. intros Hl Hc HQ. unfold wp. simpl. apply HQ; auto. Qed.

Lemma wp_setLimits (f : RecipientLimits -> RecipientLimits)
    (Q : Result unit -> Mailer -> Prop) (st : Mailer) (l : RecipientLimits) :
  rateLimits st !! recipient = Some l -> config st = cfg ->
  (forall st', rateLimits st' !! recipient = Some (f l) -> config st' = cfg ->
               Q (Ok tt) st') ->
  wp (setLimits recipient f) Q st.
Proof.
  intros Hl Hc HQ. unfold wp. simpl. apply HQ; [|exact Hc].
  simpl. rewrite lookup_alter_eq, Hl. reflexivity.
Qed.

Lemma wp_limitsOf (Q : Result RecipientLimits -> Mailer -> Prop) (st : Mailer)
    (l : RecipientLimits) :
  rateLimits st !! recipient = Some l -> Q (Ok l) st ->
  wp (limitsOf recipient) Q st.
Proof.
  intros Hl HQ. unfold wp. simpl.
  rewrite (lookup_total_correct _ _ _ Hl). exact HQ.
Qed.

Lemma wp_config (Q : Result MailerConfig -> Mailer -> Prop) (st : Mailer) :
  config st = cfg -> Q (Ok cfg) st -> wp (gets config) Q st.
Proof. intros Hc HQ. unfold wp. simpl. rewrite Hc. exact HQ. Qed.

Lemma wp_ret {T : Type} (a : T) (Q : Result T -> Mailer -> Prop) (st : Mailer) :
  Q (Ok a) st -> wp (ret a) Q st.
Proof. trivial. Qed.

(** One statement of the controller. *)
Ltac rl_step :=
  lazymatch goal with
  | |- wp (bind _ _) _ _ => apply wp_bind
  | |- wp (ret _) _ _ => apply wp_ret
  | Hc : config ?st = cfg |- wp (gets config) _ ?st =>
      apply (wp_config _ st Hc)
  | Hl : rateLimits ?st !! recipient = Some ?l
    |- wp (limitsOf recipient) _ ?st =>
      apply (wp_limitsOf _ st l Hl)
  | Hl : rateLimits ?st !! recipient = Some ?l, Hc : config ?st = cfg
    |- wp (setLimits recipient ?f) _ ?st =>
      apply (wp_setLimits f _ st l Hl Hc); clear Hl Hc; clear st;
      intros st Hl Hc
  | Hl : rateLimits ?st !! recipient = Some ?l, Hc : config ?st = cfg
    |- wp (metric ?f) _ ?st =>
      apply (wp_metric f _ st l Hl Hc); clear Hl Hc; clear st;
      intros st Hl Hc
  | Hl : rateLimits ?st !! recipient = Some ?l, Hc : config ?st = cfg
    |- wp (writeLog env ?lvl ?data) _ ?st =>
      apply (wp_writeLog lvl data _ st l Hl Hc); clear Hl Hc; clear st;
      intros st Hl Hc
  | Hl : rateLimits ?st !! recipient = Some ?l, Hc : config ?st = cfg
    |- wp (rateLimitError env ?msg ?ctx) _ ?st =>
      let e := fresh "e" in
      let He := fresh "He" in
      apply (wp_rateLimitError msg ctx _ st l Hl Hc); clear Hl Hc; clear st;
      intros e st He Hl Hc
  end; cbv beta iota.

Ltac rl_steps := repeat rl_step.

Ltac rl_done :=
  split; [assumption|]; eexists; split; [eassumption|]; simpl.

Lemma materialize_spec (st : Mailer) :
  config st = cfg ->
  wp (materialize recipient now)
    (fun res st' =>
       res = Ok tt
       /\ tracks cfg recipient
            (fun l' =>
               match rateLimits st !! recipient with
               | Some l => l' = l
               | None => l' = freshLimits now
               end) st') st.
Proof.
  intros Hc. unfold wp, materialize, bind, gets, modify, ret, tracks. simpl.
  destruct (rateLimits st !! recipient) as [l|] eqn:Hl; simpl.
  - rewrite Hl. eauto.
  - rewrite lookup_insert_eq. eauto.
Qed.

Lemma rapidAttemptCheck_spec (st : Mailer) (l : RecipientLimits) :
  rateLimits st !! recipient = Some l -> config st = cfg ->
  wp (rapidAttemptCheck env recipient now)
    (fun res st' =>
       tracks cfg recipient
         (fun l' =>
            match res with
            | Ok _ => lastAttempt l' = now
            | Throw e =>
                message e = rapidMessage
                /\ lastAttempt l' = lastAttempt l /\ banned l' = true
            end) st') st.
Proof.
  intros Hl Hc. unfold rapidAttemptCheck. rl_steps.
  destruct (now - lastAttempt l <? _).
  - rl_steps. simpl. destruct (_ >=? _); rl_steps; rl_done; auto.
  - rl_steps. rl_done. reflexivity.
Qed.

Lemma banCheck_spec (st : Mailer) (l : RecipientLimits) :
  rateLimits st !! recipient = Some l -> config st = cfg ->
  wp (banCheck env recipient now)
    (fun res st' =>
       tracks cfg recipient
         (fun l' =>
            lastAttempt l' = lastAttempt l
            /\ match res with
               | Ok _ => banned l' = false
               | Throw e => message e = bannedMessage \/ e = invalidTimeValue
               end) st') st.
Proof.
  intros Hl Hc. unfold banCheck. rl_steps.
  destruct (banned l) eqn:Hb.
  - destruct (now <? banExpiry l); rl_steps; [|rl_done; auto].
    destruct (validTime (banExpiry l)); rl_steps; [rl_done; auto|].
    unfold wp. simpl. rl_done. auto.
  - rl_steps. rl_done. auto.
Qed.

Lemma consecutiveFailureCheck_spec (st : Mailer) (l : RecipientLimits) :
  rateLimits st !! recipient = Some l -> config st = cfg ->
  wp (consecutiveFailureCheck env recipient now)
    (fun res st' =>
       tracks cfg recipient
         (fun l' =>
            lastAttempt l' = lastAttempt l
            /\ match res with
               | Ok _ => banned l' = banned l
               | Throw e =>
                   message e = "Too many consecutive failures for recipient"
               end) st') st.
Proof.
  intros Hl Hc. unfold consecutiveFailureCheck. rl_steps.
  destruct (consecutiveFailures l >=? _).
  - destruct (now - lastFailure l <? _); rl_steps; rl_done; auto.
  - rl_steps. rl_done. auto.
Qed.

Lemma windowReset_spec (st : Mailer) (l : RecipientLimits) :
  rateLimits st !! recipient = Some l -> config st = cfg ->
  wp (windowReset recipient now)
    (fun res st' =>
       res = Ok tt
       /\ tracks cfg recipient
            (fun l' => lastAttempt l' = lastAttempt l /\ banned l' = banned l)
            st') st.
Proof.
  intros Hl Hc. unfold windowReset. rl_steps.
  destruct (now - lastReset l >? _); rl_steps;
    (split; [reflexivity|]); rl_done; auto.
Qed.

Lemma burstCheck_spec (st : Mailer) (l : RecipientLimits) :
  rateLimits st !! recipient = Some l -> config st = cfg ->
  wp (burstCheck env recipient)
    (fun res st' =>
       tracks cfg recipient
         (fun l' =>
            l' = l
            /\ match res with
               | Ok _ => reaches (count l) (effectiveBurstLimit cfg) = false
               | Throw e => message e = "Rate limit exceeded for recipient"
               end) st') st.
Proof.
  intros Hl Hc. unfold burstCheck. rl_steps.
  destruct (reaches (count l) _) eqn:Hcount.
  - rl_steps. rl_done. auto.
  - rl_steps. rl_done. split; [reflexivity|].
    first [exact Hcount | reflexivity].
Qed.

(** The whole of [checkRateLimit] after its reading of the clock.  A call
    that returns leaves the recipient unbanned, with a count that had not
    reached the burst limit before it was incremented, and stamped with
    [now]; a call that throws leaves it stamped with [now] unless it is the
    rapid-attempt ban that throws. *)
Lemma checkRateLimitAt_spec (st : Mailer) :
  config st = cfg ->
  wp (checkRateLimitAt env recipient now)
    (fun res st' =>
       tracks cfg recipient
         (fun l' =>
            match res with
            | Ok _ =>
                lastAttempt l' = now /\ banned l' = false
                /\ reaches (count l' - 1) (effectiveBurstLimit cfg) = false
            | Throw e =>
                lastAttempt l' = now
                \/ (message e = rapidMessage
                    /\ exists l, rateLimits st !! recipient = Some l
                                 /\ lastAttempt l' = lastAttempt l)
            end) st') st.
Proof.
  intros Hc. unfold checkRateLimitAt.
  eapply wp_then; [apply (materialize_spec st Hc)|].
  intros res st0 (-> & Hc0 & l0 & Hl0 & Hfresh). clear Hc.
  eapply wp_then; [apply (rapidAttemptCheck_spec st0 l0 Hl0 Hc0)|].
  intros [[]|e] st1 (Hc1 & l1 & Hl1 & H1).
  2:{ split; [exact Hc1|]. exists l1. split; [exact Hl1|].
      destruct H1 as (Hmsg & Hlast & _).
      destruct (rateLimits st !! recipient) as [l|].
      - right. subst l0. eauto.
      - left. subst l0. exact Hlast. }
  clear st0 Hc0 Hl0 Hfresh.
  eapply wp_then; [apply (banCheck_spec st1 l1 Hl1 Hc1)|].
  intros [[]|e] st2 (Hc2 & l2 & Hl2 & Hlast2 & H2).
  2:{ split; [exact Hc2|]. exists l2. split; [exact Hl2|]. left. congruence. }
  eapply wp_then; [apply (consecutiveFailureCheck_spec st2 l2 Hl2 Hc2)|].
  intros [[]|e] st3 (Hc3 & l3 & Hl3 & Hlast3 & H3).
  2:{ split; [exact Hc3|]. exists l3. split; [exact Hl3|]. left. congruence. }
  eapply wp_then; [apply (windowReset_spec st3 l3 Hl3 Hc3)|].
  intros res st4 (-> & Hc4 & l4 & Hl4 & Hlast4 & H4).
  eapply wp_then; [apply (burstCheck_spec st4 l4 Hl4 Hc4)|].
  intros [[]|e] st5 (Hc5 & l5 & Hl5 & -> & H5).
  2:{ split; [exact Hc5|]. exists l4. split; [exact Hl5|]. left. congruence. }
  apply (wp_setLimits _ _ st5 l4 Hl5 Hc5). intros st6 Hl6 Hc6.
  split; [exact Hc6|]. eexists. split; [exact Hl6|]. simpl.
  unfold incr. replace (Z.succ (count l4) - 1) with (count l4) by lia.
  repeat split; congruence.
Qed.

End RateLimitFacts.

Section RateLimitClaims.
Variable env : Env.

Lemma checkRateLimit_spec (recipient : string) (st : Mailer) :
  wp (checkRateLimit env recipient)
    (fun res st' =>
       tracks (config st) recipient
         (fun l' =>
            match res with
            | Ok _ =>
                lastAttempt l' = env_now env (tick st) /\ banned l' = false
                /\ reaches (count l' - 1) (effectiveBurstLimit (config st))
                   = false
            | Throw e =>
                lastAttempt l' = env_now env (tick st)
                \/ (message e = rapidMessage
                    /\ exists l, rateLimits st !! recipient = Some l
                                 /\ lastAttempt l' = lastAttempt l)
            end) st') st.
Proof.
  unfold checkRateLimit. apply wp_bind. unfold wp at 1. simpl.
  apply (checkRateLimitAt_spec env (config st) recipient
           (env_now env (tick st)) (upd_tick S st)).
  reflexivity.
Qed.


(** Every exit of [checkRateLimit] but one stamps the recipient with the
    time of the call: the rapid-attempt ban throws before line 213. *)
Lemma checkRateLimit_lastAttempt (recipient : string) (st : Mailer) :
  let now := env_now env (tick st) in
  let res := fst (checkRateLimit env recipient st) in
  let st' := snd (checkRateLimit env recipient st) in
  exists l' : RecipientLimits,
    rateLimits st' !! recipient = Some l'
    /\ (lastAttempt l' = now
        \/ exists e l,
             res = Throw e /\ message e = rapidMessage
             /\ rateLimits st !! recipient = Some l
             /\ lastAttempt l' = lastAttempt l).
Proof.
  intros now res st'.
  pose proof (checkRateLimit_spec recipient st) as H. unfold wp in H.
  fold res st' in H. destruct H as (_ & l' & Hl' & H).
  exists l'. split; [exact Hl'|].
  destruct res as [[]|e].
  - left. tauto.
  - destruct H as [H|(Hmsg & l & Hl & Hlast)]; [left; exact H|].
    right. exists e, l. auto.
Qed.

End RateLimitClaims.


(** C4: the tenth call within ten seconds for one recipient is turned down
    by the rapid-attempt ban, and the recipient's [lastAttempt] is then the
    time of the ninth call, not of the tenth.  The other three rejections
    and the normal return all leave [lastAttempt] at the time of the call
    (lemma [checkRateLimit_lastAttempt]). *)
Theorem checkRateLimit_rapid_ban_skips_lastAttempt :
  let recipient := "a@b.co" in
  let st8 := afterChecks Sample.world 8 recipient Sample.plainMailer in
  let st9 := afterChecks Sample.world 9 recipient Sample.plainMailer in
  let st10 := afterChecks Sample.world 10 recipient Sample.plainMailer in
  let ninth := env_now Sample.world (tick st8) in
  let tenth := env_now Sample.world (tick st9) in
  tenth - ninth < 10000
  /\ (exists e : MailError,
        fst (checkRateLimit Sample.world recipient st9) = Throw e
        /\ code e = "ERATELIMIT" /\ message e = rapidMessage)
  /\ (lastAttempt <$> rateLimits st9 !! recipient) = Some ninth
  /\ (lastAttempt <$> rateLimits st10 !! recipient) = Some ninth
  /\ ninth <> tenth.
Proof.
  cbv zeta. split; [vm_compute; reflexivity|].
  split; [eexists; split; [vm_compute; reflexivity|split; reflexivity]|].
  split; [vm_compute; reflexivity|].
  split; [vm_compute; reflexivity|].
  vm_compute. discriminate.
Qed.

(** ** Mailer facade *)

Section FacadeFacts.
Variable env : Env.

Lemma logAttempt_spec (options : MailOptions) (st : Mailer) :
  fst (logAttempt env options st) = Ok tt
  /\ untouched st (snd (logAttempt env options st)).
Proof.
  unfold logAttempt, bind, dateNow. simpl.
  match goal with
  | |- context [writeLog env ?lvl ?data ?s] =>
      destruct (writeLog_spec env lvl data s) as (Hres & Hrl & Hcfg & Hm & Hs);
      destruct (writeLog env lvl data s) as [res st']
  end.
  simpl in *. subst res. simpl. unfold untouched. auto.
Qed.

(** The probe: one socket, whatever the relay answers. *)
Lemma verifyConnection_spec (st : Mailer) :
  let outcome := env_connect env (tick st) in
  let st' := snd (verifyConnection env st) in
  config st' = config st
  /\ core (metrics st') = core (metrics st)
  /\ rateLimits st' = rateLimits st
  /\ match outcome with
     | Connected =>
         fst (verifyConnection env st) = Ok true
         /\ sockets st' = (sockets st ++ probeEvents (config st) (tick st))%list
     | _ =>
         fst (verifyConnection env st) = Ok false
         /\ sockets st'
            = (sockets st ++ failedProbeEvents (config st) (tick st) outcome)%list
     end.
Proof.
  unfold verifyConnection, try_catch, createConnection, bind, gets,
    socketEvent, modify, ask, metric, dateNow, throw, ret, probeEvents,
    failedProbeEvents.
  simpl. destruct (env_connect env (tick st)); simpl.
  - destruct (truthy_bool (secure (config st))); simpl;
      repeat split; rewrite <- ?app_assoc; reflexivity.
  - repeat split; rewrite <- ?app_assoc; reflexivity.
  - repeat split.
Qed.

(** The validation loop stops at the first invalid recipient. *)
Lemma validation_rejects (recipientList : list string) (st : Mailer) :
  (exists r, In r recipientList /\ validateEmail r = false) ->
  exists (e : MailError) (st' : Mailer),
    for_each recipientList (validateRecipient env) st = (Throw e, st')
    /\ code e = "EINVALIDEMAIL"
    /\ details_type e = "validation_error"
    /\ config st' = config st
    /\ core (metrics st') = core (metrics st)
    /\ rateLimits st' = rateLimits st
    /\ sockets st' = sockets st.
Proof.
  induction recipientList as [|r rest IH]; intros (bad & Hin & Hbad);
    [destruct Hin|].
  simpl. unfold bind at 1. unfold validateRecipient at 1.
  destruct (validateEmail r) eqn:Hr; simpl.
  - destruct Hin as [->|Hin]; [congruence|].
    apply IH. eauto.
  - eexists. eexists. repeat split.
Qed.

End FacadeFacts.

Section FacadeClaims.
Variable env : Env.

(** C1, as the code has it: [sendMail] probes the relay before it
    validates.  For a request with an invalid recipient, when the probe
    connects the call rejects with [EINVALIDEMAIL] / [validation_error]
    and the only socket events are those of the probe, which is ended
    again; when the probe fails the call rejects with [ECONNECTION].
    Either way [emails_total] and the rate-limit entries are unchanged. *)
Theorem sendMail_invalid_recipient_after_probe :
  forall (options : MailOptions) (st : Mailer),
    (exists r, In r (allRecipients options) /\ validateEmail r = false) ->
    let probed := snd (logAttempt env options st) in
    let outcome := env_connect env (tick probed) in
    exists (e : MailError) (st' : Mailer),
      sendMail env options st = (Throw e, st')
      /\ emails_total (metrics st') = emails_total (metrics st)
      /\ rateLimits st' = rateLimits st
      /\ match outcome with
         | Connected =>
             code e = "EINVALIDEMAIL"
             /\ details_type e = "validation_error"
             /\ sockets st'
                = (sockets st ++ probeEvents (config st) (tick probed))%list
         | _ =>
             code e = "ECONNECTION"
             /\ details_type e = "connection_error"
             /\ sockets st'
                = (sockets st
                   ++ failedProbeEvents (config st) (tick probed) outcome)%list
         end.
Proof.
  intros options st Hbad probed outcome.
  destruct (logAttempt_spec env options st) as (Hlog & Hc0 & Hm0 & Hr0 & Hs0).
  fold probed in Hc0, Hm0, Hr0, Hs0.
  destruct (verifyConnection_spec env probed) as (Hc1 & Hm1 & Hr1 & Hprobe).
  fold outcome in Hprobe.
  unfold sendMail, bind at 1, gets. simpl.
  unfold bind at 1.
  destruct (logAttempt env options st) as [res0 st0] eqn:E0.
  simpl in Hlog. subst res0. simpl in probed. subst probed.
  unfold bind at 1.
  destruct (verifyConnection env st0) as [res1 st1] eqn:E1.
  simpl in *.
  assert (Htotal : emails_total (metrics st1) = emails_total (metrics st)).
  { unfold core in Hm1. injection Hm1 as -> _ _ _. rewrite Hm0. reflexivity. }
  destruct outcome.
  - destruct Hprobe as [-> Hsock]. simpl.
    destruct (validation_rejects env (allRecipients options) st1 Hbad)
      as (e & st2 & Hrun & Hcode & Htype & Hc2 & Hm2 & Hr2 & Hs2).
    unfold bind at 1. rewrite Hrun.
    exists e, st2. split; [reflexivity|].
    split; [unfold core in Hm2; injection Hm2 as -> _ _ _; exact Htotal|].
    split; [congruence|].
    repeat split; try assumption. rewrite Hs2, Hsock, Hs0, Hc0. reflexivity.
  - destruct Hprobe as [-> Hsock]. simpl.
    eexists. eexists. split; [reflexivity|]. simpl.
    split; [exact Htotal|]. split; [congruence|].
    repeat split. rewrite Hsock, Hs0, Hc0. reflexivity.
  - destruct Hprobe as [-> Hsock]. simpl.
    eexists. eexists. split; [reflexivity|]. simpl.
    split; [exact Htotal|]. split; [congruence|].
    repeat split. rewrite Hsock, Hs0, Hc0. reflexivity.
Qed.

End FacadeClaims.

Lemma sendMail_invalid_recipient_after_probe_witness :
  exists (e : MailError) (st' : Mailer),
    sendMail Sample.world (Sample.mailTo "notanemail") Sample.plainMailer
      = (Throw e, st')
    /\ emails_total (metrics st') = 0
    /\ rateLimits st' = rateLimits Sample.plainMailer
    /\ code e = "EINVALIDEMAIL"
    /\ details_type e = "validation_error"
    /\ sockets st'
       = [SockConnect 3 "smtp.example.com" 465; SockTls 3; SockEnd 3].
Proof.
  destruct (sendMail_invalid_recipient_after_probe Sample.world
              (Sample.mailTo "notanemail") Sample.plainMailer)
    as (e & st' & Hrun & Htotal & Hlimits & Hcode & Htype & Hsockets).
  - exists "notanemail". split; [left; reflexivity|vm_compute; reflexivity].
  - exists e, st'. repeat split; assumption.
Defined.

(** C1 as the specification words it fails twice over: with a relay that
    accepts connections the rejected call has opened (and closed) a socket,
    and with a relay that refuses them the call rejects with another code. *)
Lemma sendMail_invalid_recipient_opens_probe_socket :
  ~ rejects_invalid_without_socket Sample.world (Sample.mailTo "notanemail")
      Sample.plainMailer
  /\ ~ rejects_invalid_without_socket refusingWorld (Sample.mailTo "notanemail")
         Sample.plainMailer.
Proof.
  split.
  - intros (e & st' & Hrun & _ & _ & _ & Hsockets).
    assert (Hst : st' = snd (sendMail Sample.world (Sample.mailTo "notanemail")
                               Sample.plainMailer))
      by (rewrite Hrun; reflexivity).
    rewrite Hst in Hsockets. vm_compute in Hsockets. discriminate.
  - intros (e & st' & Hrun & Hcode & _).
    assert (He : Throw e = fst (sendMail refusingWorld
                                  (Sample.mailTo "notanemail")
                                  Sample.plainMailer))
      by (rewrite Hrun; reflexivity).
    vm_compute in He. injection He as ->. discriminate.
Qed.

(** ** MIME composer *)

Section RegexFacts.
Import Regex.

Lemma void_cat (a b : regex) : void (cat a b) = void a || void b.
Proof.
  destruct a, b; simpl; rewrite ?orb_true_r, ?orb_false_r; reflexivity.
Qed.

Lemma void_alt (a b : regex) : void (alt a b) = void a && void b.
Proof.
  destruct a, b; simpl; rewrite ?andb_true_r, ?andb_false_r; reflexivity.
Qed.

Lemma void_not_nullable (r : regex) : void r = true -> nullable r = false.
Proof.
  induction r; simpl; try discriminate; try reflexivity.
  - intros [H|H]%orb_true_iff; [rewrite IHr1|rewrite IHr2, andb_false_r]; auto.
  - intros [H1 H2]%andb_true_iff. rewrite IHr1, IHr2; auto.
Qed.

Lemma void_deriv (c : ascii) (r : regex) : void r = true -> void (deriv c r) = true.
Proof.
  induction r; simpl; try discriminate; try reflexivity.
  - intros [H|H]%orb_true_iff.
    + rewrite (void_not_nullable _ H), void_cat, IHr1; auto.
    + destruct (nullable r1);
        rewrite ?void_alt, ?void_cat, ?IHr2, ?H, ?orb_true_r; auto.
  - intros [H1 H2]%andb_true_iff. rewrite void_alt, IHr1, IHr2; auto.
Qed.

Lemma void_test (s : string) (r : regex) : void r = true -> test r s = false.
Proof.
  revert r. induction s as [|c s IH]; intros r H; simpl.
  - apply void_not_nullable, H.
  - apply IH, void_deriv, H.
Qed.

Lemma uses_only_cat (p : ascii -> bool) (a b : regex) :
  uses_only p a -> uses_only p b -> uses_only p (cat a b).
Proof. destruct a, b; simpl; tauto. Qed.

Lemma uses_only_alt (p : ascii -> bool) (a b : regex) :
  uses_only p a -> uses_only p b -> uses_only p (alt a b).
Proof. destruct a, b; simpl; tauto. Qed.

Lemma uses_only_deriv (p : ascii -> bool) (c : ascii) (r : regex) :
  uses_only p r -> uses_only p (deriv c r).
Proof.
  induction r; simpl; try tauto.
  - intros _. destruct (b c); exact I.
  - intros [H1 H2]. destruct (nullable r1);
      repeat first [apply uses_only_alt | apply uses_only_cat]; auto.
  - intros [H1 H2]. apply uses_only_alt; auto.
  - intros H. apply uses_only_cat; auto.
Qed.

(** A character outside the classes of [r] cannot start a match. *)
Lemma deriv_outside (p : ascii -> bool) (c : ascii) (r : regex) :
  uses_only p r -> p c = false -> void (deriv c r) = true.
Proof.
  intros Hr Hc. induction r; simpl in *; try reflexivity.
  - destruct (b c) eqn:Hb; [|reflexivity].
    rewrite (Hr c Hb) in Hc. discriminate.
  - destruct Hr as [H1 H2]. destruct (nullable r1);
      rewrite ?void_alt, ?void_cat, ?IHr1, ?IHr2; auto.
  - destruct Hr as [H1 H2]. rewrite void_alt, IHr1, IHr2; auto.
  - rewrite void_cat, IHr; auto.
Qed.

Lemma test_chars (p : ascii -> bool) (s : string) (r : regex) (c : ascii) :
  uses_only p r -> test r s = true -> JsString.contains c s = true ->
  p c = true.
Proof.
  revert r. induction s as [|a s IH]; intros r Hr Htest Hc; simpl in *;
    [discriminate|].
  assert (Ha : p a = true).
  { destruct (p a) eqn:Hpa; [reflexivity|].
    rewrite (void_test s _ (deriv_outside p a r Hr Hpa)) in Htest.
    discriminate. }
  destruct (Ascii.eqb_spec a c) as [<-|_]; [exact Ha|].
  simpl in Hc. apply (IH (deriv a r)); auto using uses_only_deriv.
Qed.

End RegexFacts.

Section ComposerFacts.
Import JsString.

Lemma emailRegex_alphabet : uses_only email_char emailRegex.
Proof.
  assert (Halnum : forall c, alnum c = true -> email_char c = true).
  { intros c H. unfold email_char, local_char. rewrite H. reflexivity. }
  assert (Hlocal : forall c, local_char c = true -> email_char c = true).
  { intros c H. unfold email_char. rewrite H. reflexivity. }
  assert (Hdomain : forall c, domain_char c = true -> email_char c = true).
  { intros c H. unfold email_char, local_char, domain_char in *.
    apply orb_true_iff in H as [->|H]; [reflexivity|].
    unfold Regex.one_of in *. simpl in *.
    rewrite orb_false_r in H. rewrite H, !orb_true_r. reflexivity. }
  assert (Hdot : forall c, Ascii.eqb "." c = true -> email_char c = true).
  { intros c H. unfold email_char. rewrite H, orb_true_r. reflexivity. }
  assert (Hat : forall c, Ascii.eqb "@" c = true -> email_char c = true).
  { intros c H. unfold email_char. rewrite H, orb_true_r. reflexivity. }
  unfold emailRegex, local_atom, domain_label, Regex.Plus, Regex.Opt,
    Regex.lit.
  simpl. tauto.
Qed.









End ComposerFacts.


(** ** The scenarios of the test suite, run on the model *)

(** Burst limit two: the third call within the window is turned down. *)
Example burst_limit_third_call :
  let st2 := afterChecks Sample.world 2 "a@b.co" burstTwoMailer in
  fst (checkRateLimit Sample.world "a@b.co" burstTwoMailer) = Ok tt
  /\ (message <$> match fst (checkRateLimit Sample.world "a@b.co" st2) with
                  | Throw e => Some e
                  | Ok _ => None
                  end) = Some "Rate limit exceeded for recipient"
  /\ rate_limit_exceeded_total
       (metrics (snd (checkRateLimit Sample.world "a@b.co" st2))) = 1.
Proof. repeat split; vm_compute; reflexivity. Qed.

(** A send that took 150 ms falls in the buckets from 0.5 upwards. *)
Example send_of_150_ms :
  let m := metrics (snd (updateMetrics Sample.world true 150
                           Sample.plainMailer)) in
  emails_successful m = 1
  /\ bucket "0.1" m = Some 0
  /\ bucket "0.5" m = Some 1
  /\ bucket "5" m = Some 1
  /\ last_email_status m = StatusSuccess.
Proof. repeat split; vm_compute; reflexivity. Qed.

(** A whole send through an accepting relay. *)
Example send_through_accepting_relay :
  let run := sendMail Sample.world (Sample.mailTo "a@b.co")
               Sample.plainMailer in
  (success <$> match fst run with
               | Ok r => Some r
               | Throw _ => None
               end) = Some true
  /\ emails_total (metrics (snd run)) = 1
  /\ emails_successful (metrics (snd run)) = 1
  /\ active_connections (metrics (snd run)) = 1.
Proof. repeat split; vm_compute; reflexivity. Qed.

(** The text format prints the masked payload, so the custom-field copy
    does not show in it. *)
Example text_format_stays_masked :
  logFile (snd (writeLog Sample.world "debug" loginPayload textMailer))
  = [TextLine (JIso 1700000000004) "DEBUG"
       [("event", JStr "login"); ("password", MASK)]].
Proof. vm_compute. reflexivity. Qed.

(** * Further properties *)

(** ** Address validator *)

Section ValidatorMore.
Import Regex.

Lemma needs_not_nullable (c : ascii) (r : regex) :
  needs c r -> nullable r = false.
Proof.
  induction r; simpl; try tauto.
  - intros [H|H]; [rewrite IHr1|rewrite IHr2, andb_false_r]; auto.
  - intros [H1 H2]. rewrite IHr1; auto.
Qed.

Lemma needs_cat (c : ascii) (a b : regex) :
  needs c a \/ needs c b -> needs c (cat a b).
Proof. destruct a, b; simpl; tauto. Qed.

Lemma needs_alt (c : ascii) (a b : regex) :
  needs c a -> needs c b -> needs c (alt a b).
Proof. destruct a, b; simpl; tauto. Qed.

Lemma needs_deriv (c x : ascii) (r : regex) :
  needs c r -> x <> c -> needs c (deriv x r).
Proof.
  intros Hr Hx. induction r; simpl in *; try tauto.
  - destruct (b x) eqn:Hb; [|exact I]. elim Hx. auto.
  - destruct (nullable r1) eqn:Hnull.
    + destruct Hr as [H|H];
        [rewrite (needs_not_nullable c r1 H) in Hnull; discriminate|].
      apply needs_alt; [apply needs_cat; right; exact H|auto].
    + apply needs_cat. tauto.
  - destruct Hr. apply needs_alt; auto.
Qed.

Lemma test_needs (c : ascii) (s : string) (r : regex) :
  needs c r -> test r s = true -> JsString.contains c s = true.
Proof.
  revert r. induction s as [|x s IH]; intros r Hr Htest; simpl in *.
  - rewrite (needs_not_nullable c r Hr) in Htest. discriminate.
  - destruct (Ascii.eqb_spec x c) as [_|Hne]; [reflexivity|].
    simpl. apply (IH (deriv x r)); auto using needs_deriv.
Qed.

Lemma validateEmail_matches (email : string) :
  validateEmail email = true -> test emailRegex email = true.
Proof.
  unfold validateEmail.
  destruct (negb _ || _ || _ || _ || _ || _); [discriminate|tauto].
Qed.

(** X1: an address the validator accepts is made of ASCII letters and
    digits, the characters [!#$%&'*+-/=?^_`{|}~], the dot and the at sign,
    and of nothing else (no blank, no control character, no quote, comma
    or angle bracket). *)
Theorem validateEmail_alphabet :
  forall (email : string) (c : ascii),
    validateEmail email = true ->
    JsString.contains c email = true ->
    email_char c = true.
Proof.
  intros email c Hvalid Hin.
  exact (test_chars email_char email emailRegex c emailRegex_alphabet
           (validateEmail_matches email Hvalid) Hin).
Qed.

(** X2: an address the validator accepts holds an at sign and a dot. *)
Theorem validateEmail_needs_at_and_dot :
  forall email : string,
    validateEmail email = true ->
    JsString.contains "@" email = true /\ JsString.contains "." email = true.
Proof.
  intros email Hvalid. apply validateEmail_matches in Hvalid.
  assert (Heq : forall a x : ascii, Ascii.eqb a x = true -> x = a).
  { intros a x H. symmetry. apply Ascii.eqb_eq, H. }
  split; apply (test_needs _ email emailRegex); try exact Hvalid;
    unfold emailRegex, Plus, lit; cbn [needs].
  - right. right. left. apply Heq.
  - right. right. right. right. left. left. apply Heq.
Qed.

End ValidatorMore.

Lemma validateEmail_alphabet_witness :
  validateEmail "a+b@c.d" = true
  /\ JsString.contains "+" "a+b@c.d" = true
  /\ email_char "+" = true.
Proof.
  split; [vm_compute; reflexivity|]. split; [vm_compute; reflexivity|].
  apply (validateEmail_alphabet "a+b@c.d" "+"); vm_compute; reflexivity.
Defined.

Lemma validateEmail_needs_at_and_dot_witness :
  validateEmail "a.b@c.d.e" = true
  /\ JsString.contains "@" "a.b@c.d.e" = true
  /\ JsString.contains "." "a.b@c.d.e" = true.
Proof.
  split; [vm_compute; reflexivity|].
  apply (validateEmail_needs_at_and_dot "a.b@c.d.e"). vm_compute. reflexivity.
Defined.

(** ** Header sanitizer *)

Section SanitizerMore.
Import JsString.

Lemma sanitizeHeader_app (a b : string) :
  sanitizeHeader (a ++ b) = sanitizeHeader a ++ sanitizeHeader b.
Proof.
  induction a as [|c a IH]; simpl; [reflexivity|].
  destruct (header_unsafe c); simpl; rewrite IH; reflexivity.
Qed.

Lemma sanitizeHeader_length (x : string) :
  (String.length (sanitizeHeader x) <= String.length x)%nat.
Proof.
  induction x as [|c x IH]; simpl; [lia|].
  destruct (header_unsafe c); simpl; lia.
Qed.

Lemma sanitizeHeader_kept (c : ascii) (x : string) :
  header_unsafe c = false ->
  contains c (sanitizeHeader x) = contains c x.
Proof.
  intros Hc. induction x as [|a x IH]; simpl; [reflexivity|].
  destruct (header_unsafe a) eqn:Ha; simpl; rewrite IH; [|reflexivity].
  destruct (Ascii.eqb_spec a c) as [->|_]; [congruence|reflexivity].
Qed.

(** X3: the sanitizer works character by character: it distributes over
    concatenation, never lengthens its argument, and keeps every character
    other than CR, LF, TAB, VT and FF. *)
Theorem sanitizeHeader_characterwise :
  forall (a b : string) (c : ascii),
    sanitizeHeader (a ++ b) = sanitizeHeader a ++ sanitizeHeader b
    /\ (String.length (sanitizeHeader a) <= String.length a)%nat
    /\ contains c (sanitizeHeader a)
       = negb (header_unsafe c) && contains c a.
Proof.
  intros a b c. split; [apply sanitizeHeader_app|].
  split; [apply sanitizeHeader_length|].
  destruct (header_unsafe c) eqn:Hc; simpl.
  - apply sanitizeHeader_keeps_safe, Hc.
  - apply sanitizeHeader_kept, Hc.
Qed.

(** X4: a value without CR, LF, TAB, VT and FF goes through the sanitizer
    unchanged, and only such a value does. *)
Theorem sanitizeHeader_identity_iff_clean :
  forall x : string, sanitizeHeader x = x <-> header_clean x = true.
Proof.
  induction x as [|c x IH]; simpl; [tauto|].
  destruct (header_unsafe c) eqn:Hc; simpl.
  - split; [|discriminate]. intros H.
    pose proof (sanitizeHeader_length x) as Hlen. rewrite H in Hlen.
    simpl in Hlen. lia.
  - rewrite <- IH. split; [intros [= ->]; reflexivity|intros ->; reflexivity].
Qed.

End SanitizerMore.

(** ** Structured logger *)

Section LoggerMore.
Variable env : Env.

Lemma set_keeps_keys (k : string) (v : jsvalue) (o : obj) :
  is_Some (JsObject.get k o) ->
  map fst (JsObject.set k v o) = map fst o.
Proof.
  induction o as [|[k' v'] rest IH]; simpl; intros [w Hw]; [discriminate|].
  destruct (String.eqb_spec k k') as [->|Hne]; simpl; [reflexivity|].
  f_equal. apply IH. eauto.
Qed.

Lemma maskStep_keys (masked : obj) (field : string) :
  map fst (maskStep masked field) = map fst masked.
Proof.
  unfold maskStep, JsObject.truthy_at.
  destruct (JsObject.get field masked) as [v|] eqn:Hv; [|reflexivity].
  destruct (JsObject.truthy v); [|reflexivity].
  apply set_keeps_keys. eauto.
Qed.

Lemma mask_fold_get (fields : list string) (masked : obj) (k : string) :
  JsObject.get k (fold_left maskStep fields masked)
  = if existsb (String.eqb k) fields && JsObject.truthy_at k masked
    then Some MASK else JsObject.get k masked.
Proof.
  revert masked. induction fields as [|f rest IH]; intros masked;
    [reflexivity|].
  simpl. rewrite IH. unfold maskStep.
  destruct (String.eqb_spec k f) as [->|Hne]; simpl.
  - destruct (JsObject.truthy_at f masked) eqn:Ht.
    + unfold JsObject.truthy_at. rewrite get_set_same. simpl.
      rewrite andb_true_r. destruct (existsb _ rest); reflexivity.
    + rewrite Ht, andb_false_r. reflexivity.
  - destruct (JsObject.truthy_at f masked); [|reflexivity].
    unfold JsObject.truthy_at. rewrite !get_set_other by exact Hne.
    reflexivity.
Qed.

Lemma mask_fold_keys (fields : list string) (masked : obj) :
  map fst (fold_left maskStep fields masked) = map fst masked.
Proof.
  revert masked. induction fields as [|f rest IH]; intros masked;
    [reflexivity|].
  simpl. rewrite IH. apply maskStep_keys.
Qed.

(** X5: masking is shallow and exact.  The masked copy has the keys of the
    payload in the same order; under [password], [auth], [token] and [key]
    a truthy value is replaced by [********]; every other property, and a
    falsy value under one of the four keys, is the payload's own value
    (whatever is nested inside it). *)
Theorem maskSensitiveData_exact :
  forall (data : obj) (k : string),
    map fst (maskSensitiveData data) = map fst data
    /\ JsObject.get k (maskSensitiveData data)
       = if sensitive k && JsObject.truthy_at k data
         then Some MASK else JsObject.get k data.
Proof.
  intros data k. split.
  - apply (mask_fold_keys sensitiveFields).
  - apply (mask_fold_get sensitiveFields).
Qed.

Lemma shouldLog_closed (cfg : MailerConfig) (level : string) :
  configLevel cfg <> "debug" ->
  level <> configLevel cfg
  \/ ~ In (configLevel cfg) ["info"; "warn"; "error"] ->
  shouldLog cfg level = false.
Proof.
  intros Hdebug Hother. unfold shouldLog.
  destruct (String.eqb_spec (configLevel cfg) "debug"); [contradiction|].
  destruct (String.eqb_spec (configLevel cfg) "info") as [Hi|_].
  { destruct (String.eqb_spec level "info"); [|reflexivity].
    destruct Hother as [H|H]; [congruence|]. elim H. rewrite Hi. simpl. auto. }
  destruct (String.eqb_spec (configLevel cfg) "warn") as [Hw|_].
  { destruct (String.eqb_spec level "warn"); [|reflexivity].
    destruct Hother as [H|H]; [congruence|]. elim H. rewrite Hw. simpl. auto. }
  destruct (String.eqb_spec (configLevel cfg) "error") as [He|_];
    [|reflexivity].
  destruct (String.eqb_spec level "error"); [|reflexivity].
  destruct Hother as [H|H]; [congruence|]. elim H. rewrite He. simpl. auto.
Qed.

(** X6: [writeLog] never throws and touches nothing but the log file and
    the clock: configuration, metrics, rate-limit entries and sockets are
    as before, and the log file is the old one with at most one line
    appended.  Without a log file, or when the level is filtered out, the
    mailer is left exactly as it was. *)
Theorem writeLog_is_contained :
  forall (level : string) (data : obj) (st : Mailer),
    let st' := snd (writeLog env level data st) in
    fst (writeLog env level data st) = Ok tt
    /\ untouched st st'
    /\ logFilePath st' = logFilePath st
    /\ (exists extra : list LogLine,
          logFile st' = (logFile st ++ extra)%list
          /\ (length extra <= 1)%nat)
    /\ (if negb (truthy_str (logFilePath st))
           || negb (shouldLog (config st) level)
        then st' = st else tick st' = (tick st + 2)%nat).
Proof.
  intros level data st.
  unfold writeLog, appendFileSync, bind, gets, dateNow, ret, untouched.
  simpl.
  destruct (negb (truthy_str (logFilePath st))
            || negb (shouldLog (config st) level)); simpl.
  - repeat split; try reflexivity.
    exists []. rewrite app_nil_r. split; [reflexivity|simpl; lia].
  - destruct (env_appendFile env (S (tick st))); simpl;
      repeat split; try reflexivity; try lia.
    + eexists. split; [reflexivity|simpl; lia].
    + exists []. rewrite app_nil_r. split; [reflexivity|simpl; lia].
Qed.

(** X7: unless the configured level is [debug], a message of another level
    than the configured one is dropped, and with a configured level that is
    none of [debug], [info], [warn], [error] every message is dropped:
    [writeLog] returns and leaves the mailer as it was.  With the default
    level [info] this drops the [error] entries of failed sends. *)
Theorem writeLog_drops_other_levels :
  forall (level : string) (data : obj) (st : Mailer),
    configLevel (config st) <> "debug" ->
    level <> configLevel (config st)
    \/ ~ In (configLevel (config st)) ["info"; "warn"; "error"] ->
    writeLog env level data st = (Ok tt, st).
Proof.
  intros level data st Hdebug Hother.
  unfold writeLog, bind, gets, ret. simpl.
  rewrite (shouldLog_closed _ _ Hdebug Hother), orb_true_r. reflexivity.
Qed.

End LoggerMore.

Lemma writeLog_drops_other_levels_witness :
  truthy_str (logFilePath infoMailer) = true
  /\ writeLog Sample.world "error" loginPayload infoMailer
     = (Ok tt, infoMailer).
Proof.
  split; [vm_compute; reflexivity|].
  apply (writeLog_drops_other_levels Sample.world "error" loginPayload
           infoMailer).
  - vm_compute. discriminate.
  - left. vm_compute. discriminate.
Defined.

(** ** What the methods never do *)

Section Steps.
Variable R : Mailer -> Mailer -> Prop.
Hypothesis R_refl : forall st, R st st.
Hypothesis R_trans : forall a b c, R a b -> R b c -> R a c.

Lemma steps_ret {A : Type} (a : A) : steps R (ret a).
Proof. intros st. apply R_refl. Qed.

Lemma steps_throw {A : Type} (e : MailError) : steps R (@throw A e).
Proof. intros st. apply R_refl. Qed.

Lemma steps_gets {A : Type} (f : Mailer -> A) : steps R (gets f).
Proof. intros st. apply R_refl. Qed.

Lemma steps_bind {A B : Type} (m : M A) (k : A -> M B) :
  steps R m -> (forall a, steps R (k a)) -> steps R (bind m k).
Proof.
  intros Hm Hk st. unfold bind. specialize (Hm st).
  destruct (m st) as [[a|e] st']; simpl in *; [|exact Hm].
  eapply R_trans; [exact Hm|apply Hk].
Qed.

Lemma steps_try_catch {A : Type} (m : M A) (h : MailError -> M A) :
  steps R m -> (forall e, steps R (h e)) -> steps R (try_catch m h).
Proof.
  intros Hm Hh st. unfold try_catch. specialize (Hm st).
  destruct (m st) as [[a|e] st']; simpl in *; [exact Hm|].
  eapply R_trans; [exact Hm|apply Hh].
Qed.

Lemma steps_attempt {A B : Type} (m : M A) (h : MailError -> M B)
    (k : A -> M B) :
  steps R m -> (forall e, steps R (h e)) -> (forall a, steps R (k a)) ->
  steps R (attempt m h k).
Proof.
  intros Hm Hh Hk st. unfold attempt. specialize (Hm st).
  destruct (m st) as [[a|e] st']; simpl in *;
    (eapply R_trans; [exact Hm|]); [apply Hk|apply Hh].
Qed.

Lemma steps_finally {A : Type} (m : M A) (f : Mailer -> Mailer) :
  steps R m -> (forall st, R st (f st)) -> steps R (finally m f).
Proof.
  intros Hm Hf st. unfold finally. specialize (Hm st).
  destruct (m st) as [r st']; simpl in *.
  eapply R_trans; [exact Hm|apply Hf].
Qed.

Lemma steps_when (b : bool) (m : M unit) : steps R m -> steps R (when b m).
Proof. intros Hm. destruct b; [exact Hm|apply steps_ret]. Qed.

Lemma steps_for_each {A : Type} (xs : list A) (body : A -> M unit) :
  Forall (fun x => steps R (body x)) xs -> steps R (for_each xs body).
Proof.
  induction 1 as [|x rest Hx _ IH]; simpl; [apply steps_ret|].
  apply steps_bind; [exact Hx|intros _; exact IH].
Qed.

End Steps.

Ltac steps_structure :=
  repeat match goal with
    | |- steps _ (ret _) => apply steps_ret; assumption
    | |- steps _ (throw _) => apply steps_throw; assumption
    | |- steps _ (gets _) => apply steps_gets; assumption
    | |- steps _ (bind _ _) => apply steps_bind; [assumption| |intros ?]
    | |- steps _ (try_catch _ _) =>
        apply steps_try_catch; [assumption| |intros ?]
    | |- steps _ (attempt _ _ _) =>
        apply steps_attempt; [assumption| |intros ?|intros ?]
    | |- steps _ (when _ _) => apply steps_when; [assumption|]
    | |- steps _ (if ?b then _ else _) => destruct b
    | |- steps _ (match ?x with _ => _ end) => destruct x
    | |- steps _ (let _ := _ in _) => cbv zeta
    end.

Section Journey.
Variable env : Env.
Variable R : Mailer -> Mailer -> Prop.
Variable touch : string -> Prop.
Hypothesis R_refl : forall st, R st st.
Hypothesis R_trans : forall a b c, R a b -> R b c -> R a c.
Hypothesis R_tick : forall st, R st (upd_tick S st).
Hypothesis R_metrics : forall f st, R st (upd_metrics f st).
Hypothesis R_log :
  forall line st, R st (upd_logFile (fun f => app f [line]) st).
Hypothesis R_sock :
  forall e st, R st (upd_sockets (fun h => app h [e]) st).
Hypothesis R_alter :
  forall k f st, touch k -> R st (upd_rateLimits (alter f k) st).
Hypothesis R_insert :
  forall k l st, touch k -> rateLimits st !! k = None ->
                 R st (upd_rateLimits (insert k l) st).

Lemma steps_dateNow : steps R (dateNow env).
Proof. intros st. apply R_tick. Qed.

Lemma steps_ask {A : Type} (oracle : Env -> nat -> A) : steps R (ask env oracle).
Proof. intros st. apply R_tick. Qed.

Lemma steps_metric (f : Metrics -> Metrics) : steps R (metric f).
Proof. intros st. apply R_metrics. Qed.

Lemma steps_socketEvent (e : SocketEvent) : steps R (socketEvent e).
Proof. intros st. apply R_sock. Qed.

Lemma steps_setLimits (k : string) (f : RecipientLimits -> RecipientLimits) :
  touch k -> steps R (setLimits k f).
Proof. intros Hk st. apply R_alter, Hk. Qed.

Lemma steps_appendFileSync (line : LogLine) : steps R (appendFileSync env line).
Proof.
  intros st. unfold appendFileSync.
  destruct (env_appendFile env (tick st)); simpl; [|apply R_tick].
  eapply R_trans; [apply R_log|apply R_tick].
Qed.

Ltac journey :=
  repeat first
    [ progress steps_structure
    | match goal with
      | |- steps _ (dateNow _) => apply steps_dateNow
      | |- steps _ (ask _ _) => apply steps_ask
      | |- steps _ (metric _) => apply steps_metric
      | |- steps _ (failureStats _) => apply steps_metric
      | |- steps _ (duration _) => apply steps_metric
      | |- steps _ (socketEvent _) => apply steps_socketEvent
      | |- steps _ (appendFileSync _ _) => apply steps_appendFileSync
      | |- steps _ (limitsOf _) => apply steps_gets; assumption
      | |- steps _ (setLimits _ _) => apply steps_setLimits; assumption
      end ].

Lemma steps_writeLog (level : string) (data : obj) :
  steps R (writeLog env level data).
Proof. unfold writeLog. journey. Qed.

Lemma steps_rateLimitError (msg : string) (context : obj) :
  steps R (rateLimitError env msg context).
Proof. unfold rateLimitError. journey. Qed.

Lemma steps_materialize (k : string) (now : Z) :
  touch k -> steps R (materialize k now).
Proof.
  intros Hk st. unfold materialize, bind, gets. simpl.
  destruct (rateLimits st !! k) eqn:Hl; simpl; [apply R_refl|].
  apply R_insert; assumption.
Qed.

Ltac journey_calls :=
  repeat first
    [ progress journey
    | match goal with
      | |- steps _ (writeLog _ _ _) => apply steps_writeLog
      | |- steps _ (rateLimitError _ _ _) => apply steps_rateLimitError
      | |- steps _ (materialize _ _) => apply steps_materialize; assumption
      end ].

Lemma steps_checkRateLimit (k : string) :
  touch k -> steps R (checkRateLimit env k).
Proof.
  intros Hk.
  unfold checkRateLimit, checkRateLimitAt, rapidAttemptCheck, banCheck,
    consecutiveFailureCheck, windowReset, burstCheck.
  journey_calls.
Qed.

Lemma steps_createConnection : steps R (createConnection env).
Proof. unfold createConnection. journey_calls. Qed.

Lemma steps_sendCommand (socket : nat) (command : string) :
  steps R (sendCommand env socket command).
Proof. unfold sendCommand. journey_calls. Qed.

Lemma steps_verifyConnection : steps R (verifyConnection env).
Proof.
  unfold verifyConnection. journey_calls. apply steps_createConnection.
Qed.

Lemma steps_validateRecipient (recipient : string) :
  steps R (validateRecipient env recipient).
Proof. unfold validateRecipient. journey_calls. Qed.

Lemma steps_mimeAttachments (list : list Attachment) (boundary message : string) :
  steps R (mimeAttachments env list boundary message).
Proof.
  revert message. induction list as [|a rest IH]; intros message; simpl.
  - apply steps_ret, R_refl.
  - destruct (truthy_str (path a)).
    + apply steps_bind; [assumption| |intros ?; apply IH].
      unfold loadAttachment, attachmentError. journey_calls.
    + destruct (truthy_content (content a)); apply IH.
Qed.

Lemma steps_buildMimeMessage (options : MailOptions) (boundary : string) :
  steps R (buildMimeMessage env options boundary).
Proof.
  unfold buildMimeMessage. journey_calls; apply steps_mimeAttachments.
Qed.

Lemma steps_updateMetrics (success : bool) (sendTime : Z) :
  steps R (updateMetrics env success sendTime).
Proof. unfold updateMetrics. journey_calls. Qed.

Ltac journey_methods :=
  repeat first
    [ progress journey_calls
    | match goal with
      | |- steps _ (generateBoundary _) => unfold generateBoundary
      | |- steps _ (countErrorType _) => unfold countErrorType
      | |- steps _ (logAttempt _ _) => unfold logAttempt
      | |- steps _ (createConnection _) => apply steps_createConnection
      | |- steps _ (sendCommand _ _ _) => apply steps_sendCommand
      | |- steps _ (verifyConnection _) => apply steps_verifyConnection
      | |- steps _ (buildMimeMessage _ _ _) => apply steps_buildMimeMessage
      | |- steps _ (updateMetrics _ _ _) => apply steps_updateMetrics
      end ].

Lemma steps_sendFailed (options : MailOptions) (recipientList : list string)
    (startTime : Z) (socket : option nat) (currentCommand : string)
    (error : MailError) :
  Forall touch recipientList ->
  steps R (sendFailed env options recipientList startTime socket
             currentCommand error).
Proof.
  intros Htouch. unfold sendFailed. journey_methods.
  - apply steps_for_each; [assumption..|].
    apply Forall_forall. intros x _. apply steps_metric.
  - apply steps_for_each; [assumption..|].
    eapply Forall_impl; [exact Htouch|]. intros x Hx. simpl in Hx.
    journey_methods.
Qed.

Lemma steps_sendData (options : MailOptions) (recipientList : list string)
    (startTime : Z) (socket : nat) :
  Forall touch recipientList ->
  steps R (sendData env options recipientList startTime socket).
Proof.
  intros Htouch. unfold sendData. journey_methods.
  apply steps_for_each; [assumption..|].
  eapply Forall_impl; [exact Htouch|]. intros x Hx. simpl in Hx.
  journey_methods.
Qed.

Lemma steps_closeSocket (socket : nat) (st : Mailer) :
  R st (closeSocket socket st).
Proof.
  unfold closeSocket. destruct (negb _); [|apply R_refl].
  eapply R_trans; [apply R_sock|apply R_metrics].
Qed.

Lemma steps_transaction (options : MailOptions) (recipientList : list string) :
  Forall touch recipientList ->
  steps R (transaction env options recipientList).
Proof.
  intros Htouch. unfold transaction. journey_methods.
  - apply steps_sendFailed, Htouch.
  - apply steps_finally; [assumption| |apply steps_closeSocket].
    journey_methods;
      first [ apply steps_sendFailed, Htouch
            | apply steps_sendData, Htouch
            | apply steps_for_each; [assumption..|];
              apply Forall_forall; intros x _; journey_methods ].
Qed.

Lemma steps_sendMail (options : MailOptions) :
  Forall touch (allRecipients options) ->
  steps R (sendMail env options).
Proof.
  intros Htouch. unfold sendMail. journey_methods.
  - apply steps_for_each; [assumption..|].
    apply Forall_forall. intros x _. apply steps_validateRecipient.
  - apply steps_for_each; [assumption..|].
    eapply Forall_impl; [exact Htouch|]. intros x Hx.
    apply steps_checkRateLimit, Hx.
  - apply steps_transaction, Htouch.
Qed.

End Journey.

Section JourneyClaims.
Variable env : Env.

Ltac by_fields := intros; unfold same_setup, no_socket_event; simpl; auto.

(** X8: the configuration is fixed at construction: [sendMail],
    [verifyConnection] and [checkRateLimit] leave the configuration and the
    path of the log file as they found them, whatever they return or
    throw. *)
Theorem setup_is_immutable :
  forall (options : MailOptions) (recipient : string) (st : Mailer),
    same_setup st (snd (sendMail env options st))
    /\ same_setup st (snd (verifyConnection env st))
    /\ same_setup st (snd (checkRateLimit env recipient st)).
Proof.
  intros options recipient st.
  assert (Hrefl : forall s, same_setup s s) by by_fields.
  assert (Htrans : forall a b c,
             same_setup a b -> same_setup b c -> same_setup a c).
  { unfold same_setup. intros a b c [? ?] [? ?]. split; congruence. }
  split; [|split].
  - apply (steps_sendMail env same_setup (fun _ => True) Hrefl Htrans);
      [by_fields..|].
    apply Forall_forall. auto.
  - apply (steps_verifyConnection env same_setup Hrefl Htrans); by_fields.
  - apply (steps_checkRateLimit env same_setup (fun _ => True) Hrefl Htrans);
      by_fields.
Qed.

Lemma log_extended_refl (st : Mailer) : log_extended st st.
Proof. exists []. rewrite app_nil_r. reflexivity. Qed.

Lemma log_extended_trans (a b c : Mailer) :
  log_extended a b -> log_extended b c -> log_extended a c.
Proof.
  intros [x Hx] [y Hy]. exists (x ++ y)%list.
  rewrite Hy, Hx, app_assoc. reflexivity.
Qed.

(** X9: the log file is append-only: after [sendMail] or
    [verifyConnection] it is the log file from before, followed by the
    lines of this call (if any). *)
Theorem log_is_append_only :
  forall (options : MailOptions) (st : Mailer),
    log_extended st (snd (sendMail env options st))
    /\ log_extended st (snd (verifyConnection env st)).
Proof.
  intros options st.
  assert (Hsame : forall s s', logFile s' = logFile s -> log_extended s s').
  { intros s s' H. exists []. rewrite app_nil_r. exact H. }
  assert (Hline : forall line s,
             log_extended s (upd_logFile (fun f => app f [line]) s)).
  { intros line s. exists [line]. reflexivity. }
  split.
  - apply (steps_sendMail env log_extended (fun _ => True)
             log_extended_refl log_extended_trans);
      first [ exact Hline
            | apply Forall_forall; solve [auto]
            | intros; apply Hsame; reflexivity ].
  - apply (steps_verifyConnection env log_extended
             log_extended_refl log_extended_trans);
      intros; apply Hsame; reflexivity.
Qed.

(** X10: rate-limit entries are never evicted: an address that has an
    entry before [sendMail] or [checkRateLimit] still has one after. *)
Theorem rate_limit_entries_never_evicted :
  forall (options : MailOptions) (recipient : string) (st : Mailer)
         (k : string),
    is_Some (rateLimits st !! k) ->
    is_Some (rateLimits (snd (sendMail env options st)) !! k)
    /\ is_Some (rateLimits (snd (checkRateLimit env recipient st)) !! k).
Proof.
  intros options recipient st k Hk.
  assert (Hrefl : forall s, entries_kept s s) by (intros s j H; exact H).
  assert (Htrans : forall a b c,
             entries_kept a b -> entries_kept b c -> entries_kept a c).
  { intros a b c Hab Hbc j H. apply Hbc, Hab, H. }
  assert (Halter : forall j f s, True ->
             entries_kept s (upd_rateLimits (alter f j) s)).
  { intros j f s _ i [l Hl]. simpl. rewrite lookup_alter.
    case_decide; subst; rewrite Hl; simpl; eauto. }
  assert (Hinsert : forall j l s, True -> rateLimits s !! j = None ->
             entries_kept s (upd_rateLimits (insert j l) s)).
  { intros j l s _ _ i [l' Hl']. simpl. rewrite lookup_insert.
    case_decide; subst; eauto. }
  assert (Hsame : forall s s',
             rateLimits s' = rateLimits s -> entries_kept s s').
  { intros s s' H j. rewrite H. tauto. }
  split.
  - apply (steps_sendMail env entries_kept (fun _ => True) Hrefl Htrans);
      try assumption; try (intros; apply Hsame; reflexivity).
    apply Forall_forall. auto.
  - apply (steps_checkRateLimit env entries_kept (fun _ => True) Hrefl Htrans);
      try assumption; try (intros; apply Hsame; reflexivity). exact I.
Qed.

(** X11: rate limiting is per recipient: [sendMail] leaves the entry of
    every address that is not a recipient of the request as it was (absent
    entries included), and [verifyConnection] leaves all entries alone. *)
Theorem rate_limit_entries_are_isolated :
  forall (options : MailOptions) (st : Mailer) (k : string),
    ~ In k (allRecipients options) ->
    rateLimits (snd (sendMail env options st)) !! k = rateLimits st !! k
    /\ rateLimits (snd (verifyConnection env st)) = rateLimits st.
Proof.
  intros options st k Hk. split.
  - apply (steps_sendMail env (entry_untouched k) (fun j => j <> k));
      unfold entry_untouched.
    + reflexivity.
    + intros; congruence.
    + reflexivity.
    + reflexivity.
    + reflexivity.
    + reflexivity.
    + intros j f s Hj. simpl. apply lookup_alter_ne, Hj.
    + intros j l s Hj _. simpl. apply lookup_insert_ne, Hj.
    + apply Forall_forall. intros x Hx ->.
      apply list_elem_of_In in Hx. contradiction.
  - apply (steps_verifyConnection env
             (fun s s' => rateLimits s' = rateLimits s));
      intros; simpl; congruence.
Qed.

(** X12: the rate-limit check does no network input or output: after
    [checkRateLimit], returned or thrown, the socket history is as before,
    and so are the counters [emails_total], [emails_successful] and
    [emails_failed]. *)
Theorem checkRateLimit_stays_local :
  forall (recipient : string) (st : Mailer),
    let st' := snd (checkRateLimit env recipient st) in
    sockets st' = sockets st
    /\ emails_total (metrics st') = emails_total (metrics st)
    /\ emails_successful (metrics st') = emails_successful (metrics st)
    /\ emails_failed (metrics st') = emails_failed (metrics st).
Proof.
  intros recipient st st'. split.
  - apply (steps_checkRateLimit env no_socket_event (fun _ => True));
      unfold no_socket_event; first [exact I | intros; simpl; congruence].
  - pose proof (keeps_checkRateLimit env
                  (fun m => core m = core (metrics st))) as H.
    unfold keeps in H. specialize (H ltac:(intros; congruence) recipient st
                                     eq_refl).
    fold st' in H. unfold core in H.
    injection H as -> -> -> _. auto.
Qed.

End JourneyClaims.

Lemma rate_limit_entries_never_evicted_witness :
  is_Some (rateLimits (sampleEntry fullEntry) !! "a@b.co")
  /\ is_Some (rateLimits
                (snd (sendMail Sample.world (Sample.mailTo "x@y.zz")
                        (sampleEntry fullEntry))) !! "a@b.co")
  /\ is_Some (rateLimits
                (snd (checkRateLimit Sample.world "x@y.zz"
                        (sampleEntry fullEntry))) !! "a@b.co").
Proof.
  assert (H : is_Some (rateLimits (sampleEntry fullEntry) !! "a@b.co")).
  { exists fullEntry. vm_compute. reflexivity. }
  split; [exact H|].
  exact (rate_limit_entries_never_evicted Sample.world
           (Sample.mailTo "x@y.zz") "x@y.zz" (sampleEntry fullEntry)
           "a@b.co" H).
Defined.

Lemma rate_limit_entries_are_isolated_witness :
  ~ In "a@b.co" (allRecipients (Sample.mailTo "x@y.zz"))
  /\ rateLimits (snd (sendMail Sample.world (Sample.mailTo "x@y.zz")
                        (sampleEntry fullEntry))) !! "a@b.co"
     = rateLimits (sampleEntry fullEntry) !! "a@b.co".
Proof.
  assert (H : ~ In "a@b.co" (allRecipients (Sample.mailTo "x@y.zz"))).
  { simpl. intros [H|[]]. discriminate. }
  split; [exact H|].
  exact (proj1 (rate_limit_entries_are_isolated Sample.world
                  (Sample.mailTo "x@y.zz") (sampleEntry fullEntry)
                  "a@b.co" H)).
Defined.

(** ** Metrics accumulator: what the timing record keeps *)

Section AccumulatorMore.
Variable env : Env.

Lemma updateMetrics_extremes (success : bool) (sendTime : Z) (st : Mailer) :
  let d := email_send_duration_seconds (metrics st) in
  let d' := email_send_duration_seconds
              (metrics (snd (updateMetrics env success sendTime st))) in
  d_max d' = Qmax (d_max d) (inject_Z sendTime / 1000)%Q
  /\ d_min d' = Qmin (d_min d) (inject_Z sendTime / 1000)%Q.
Proof. destruct success; cbn; split; reflexivity. Qed.

Lemma frame_duration (m m' : Metrics) :
  core m' = core m ->
  emails_total m' = emails_total m
  /\ email_send_duration_seconds m' = email_send_duration_seconds m.
Proof. unfold core. intros [= -> _ _ ->]. auto. Qed.

(** X13: every send that is counted is timed: in every state a mailer
    reaches, the [count] of [email_send_duration_seconds] equals
    [emails_total]. *)
Theorem duration_count_is_emails_total :
  forall st : Mailer, reachable env st -> timed_every_send (metrics st).
Proof.
  apply (reachable_metrics env timed_every_send).
  - unfold timed_every_send. intros m m' Hcore H.
    destruct (frame_duration m m' Hcore) as [-> ->]. exact H.
  - intros success sendTime st H. unfold timed_every_send in *.
    destruct (updateMetrics_counters env success sendTime st) as (-> & _).
    destruct (updateMetrics_duration env success sendTime st) as (-> & _).
    lia.
  - reflexivity.
Qed.

Lemma atMost_cutoff (s : Q) (key : string) (cutoff : Q) :
  parseFloat key = Some cutoff -> atMost s key = Qle_bool s cutoff.
Proof. unfold atMost. intros ->. reflexivity. Qed.

Lemma Qle_bool_mono (s a b : Q) :
  (a <= b)%Q -> Qle_bool s a = true -> Qle_bool s b = true.
Proof.
  rewrite !Qle_bool_iff. intros Hab Hsa. eapply Qle_trans; eassumption.
Qed.

Lemma bumped (key : string) (n : Z) (success : bool) (sendTime : Z)
    (st : Mailer) :
  bucket key (metrics st) = Some n ->
  bucket key (metrics (snd (updateMetrics env success sendTime st)))
  = Some (if atMost (inject_Z sendTime / 1000)%Q key then n + 1 else n).
Proof. intros H. rewrite bucket_updateMetrics, H. reflexivity. Qed.

(** X14: the histogram is cumulative across its cutoffs: in every state a
    mailer reaches, the five buckets are present, not negative, and ordered
    as their cutoffs are, [0.1 <= 0.5 <= 1 <= 2 <= 5]. *)
Theorem histogram_buckets_are_ordered :
  forall st : Mailer, reachable env st -> buckets_ordered (metrics st).
Proof.
  apply (reachable_metrics env buckets_ordered).
  - unfold buckets_ordered, bucket. intros m m' Hcore H.
    destruct (frame_duration m m' Hcore) as [_ ->]. exact H.
  - intros success sendTime st
      (a & b & c & d & e & Ha & Hb & Hc & Hd & He & H0 & Hab & Hbc & Hcd & Hde).
    unfold buckets_ordered.
    rewrite (bumped _ _ success sendTime st Ha),
      (bumped _ _ success sendTime st Hb),
      (bumped _ _ success sendTime st Hc),
      (bumped _ _ success sendTime st Hd),
      (bumped _ _ success sendTime st He).
    do 5 eexists. repeat (split; [reflexivity|]).
    set (s := (inject_Z sendTime / 1000)%Q).
    rewrite (atMost_cutoff s "0.1" 0.1%Q eq_refl),
      (atMost_cutoff s "0.5" 0.5%Q eq_refl),
      (atMost_cutoff s "1" 1%Q eq_refl),
      (atMost_cutoff s "2" 2%Q eq_refl),
      (atMost_cutoff s "5" 5%Q eq_refl).
    assert (H1 : Qle_bool s 0.1 = true -> Qle_bool s 0.5 = true)
      by (apply Qle_bool_mono; discriminate).
    assert (H2 : Qle_bool s 0.5 = true -> Qle_bool s 1 = true)
      by (apply Qle_bool_mono; discriminate).
    assert (H3 : Qle_bool s 1 = true -> Qle_bool s 2 = true)
      by (apply Qle_bool_mono; discriminate).
    assert (H4 : Qle_bool s 2 = true -> Qle_bool s 5 = true)
      by (apply Qle_bool_mono; discriminate).
    destruct (Qle_bool s 0.1), (Qle_bool s 0.5), (Qle_bool s 1),
      (Qle_bool s 2), (Qle_bool s 5);
      try (specialize (H1 eq_refl)); try (specialize (H2 eq_refl));
      try (specialize (H3 eq_refl)); try (specialize (H4 eq_refl));
      try discriminate; lia.
  - intros cfg t1 t2. exists 0, 0, 0, 0, 0.
    repeat (split; [reflexivity|]). lia.
Qed.

Lemma Qmin_le_r (a s : Q) : (Qmin a s <= s)%Q.
Proof.
  unfold Qmin. destruct (Qle_bool a s) eqn:H.
  - apply Qle_bool_iff, H.
  - apply Qle_refl.
Qed.

Lemma Qmin_le_l (a s : Q) : (Qmin a s <= a)%Q.
Proof.
  unfold Qmin. destruct (Qle_bool a s) eqn:H; [apply Qle_refl|].
  apply Qlt_le_weak, Qnot_le_lt. rewrite <- Qle_bool_iff, H. discriminate.
Qed.

Lemma Qmax_ge_r (b s : Q) : (s <= Qmax b s)%Q.
Proof.
  unfold Qmax. destruct (Qle_bool b s) eqn:H; [apply Qle_refl|].
  apply Qlt_le_weak, Qnot_le_lt. rewrite <- Qle_bool_iff, H. discriminate.
Qed.

Lemma Qmax_ge_l (b s : Q) : (b <= Qmax b s)%Q.
Proof.
  unfold Qmax. destruct (Qle_bool b s) eqn:H; [|apply Qle_refl].
  apply Qle_bool_iff, H.
Qed.

(** X15: the extremes of the timing record are consistent in every state a
    mailer reaches: [count] is not negative, [max] is not negative (a
    negative duration from a clock set back does not lower it), [min] is at
    most its initial [Number.MAX_VALUE], and once a send has been timed
    [min <= max]. *)
Theorem duration_extremes_are_consistent :
  forall st : Mailer, reachable env st -> extremes_consistent (metrics st).
Proof.
  apply (reachable_metrics env extremes_consistent).
  - unfold extremes_consistent. intros m m' Hcore H.
    destruct (frame_duration m m' Hcore) as [_ ->]. exact H.
  - intros success sendTime st (Hcount & Hmax & Hmin & Horder).
    unfold extremes_consistent.
    destruct (updateMetrics_duration env success sendTime st) as (-> & _).
    destruct (updateMetrics_extremes success sendTime st) as (-> & ->).
    split; [lia|]. split; [|split].
    + eapply Qle_trans; [exact Hmax|apply Qmax_ge_l].
    + eapply Qle_trans; [apply Qmin_le_l|exact Hmin].
    + intros _. eapply Qle_trans; [apply Qmin_le_r|apply Qmax_ge_r].
  - intros cfg t1 t2. unfold extremes_consistent. simpl.
    split; [lia|]. split; [apply Qle_refl|]. split; [apply Qle_refl|lia].
Qed.

End AccumulatorMore.

Lemma duration_count_is_emails_total_witness :
  timed_every_send
    (metrics (snd (sendMail Sample.world (Sample.mailTo "a@b.co")
                     Sample.plainMailer))).
Proof.
  exact (duration_count_is_emails_total Sample.world _ sample_reachable).
Defined.

Lemma histogram_buckets_are_ordered_witness :
  buckets_ordered
    (metrics (snd (sendMail Sample.world (Sample.mailTo "a@b.co")
                     Sample.plainMailer))).
Proof.
  exact (histogram_buckets_are_ordered Sample.world _ sample_reachable).
Defined.

Lemma duration_extremes_are_consistent_witness :
  extremes_consistent
    (metrics (snd (sendMail Sample.world (Sample.mailTo "a@b.co")
                     Sample.plainMailer))).
Proof.
  exact (duration_extremes_are_consistent Sample.world _ sample_reachable).
Defined.

(** ** Rate-limit controller: the ways through [checkRateLimit] *)

Section Controller.
Variable env : Env.
Variable cfg : MailerConfig.
Variable recipient : string.
Variable now : Z.

Lemma run_metric (f : Metrics -> Metrics) (Q : Result unit -> Mailer -> Prop)
    (st : Mailer) (l : RecipientLimits) (m : Metrics) :
  holds cfg recipient l m st ->
  (forall st', holds cfg recipient l (f m) st' -> Q (Ok tt) st') ->
  wp (metric f) Q st.
Proof.
  intros (Hc & Hl & Hm) HQ. apply HQ. repeat split; simpl; congruence.
Qed.

Lemma run_setLimits (f : RecipientLimits -> RecipientLimits)
    (Q : Result unit -> Mailer -> Prop) (st : Mailer) (l : RecipientLimits)
    (m : Metrics) :
  holds cfg recipient l m st ->
  (forall st', holds cfg recipient (f l) m st' -> Q (Ok tt) st') ->
  wp (setLimits recipient f) Q st.
Proof.
  intros (Hc & Hl & Hm) HQ. apply HQ. repeat split; simpl; try assumption.
  rewrite lookup_alter_eq, Hl. reflexivity.
Qed.

Lemma run_writeLog (level : string) (data : obj)
    (Q : Result unit -> Mailer -> Prop) (st : Mailer) (l : RecipientLimits)
    (m : Metrics) :
  holds cfg recipient l m st ->
  (forall st', holds cfg recipient l m st' -> Q (Ok tt) st') ->
  wp (writeLog env level data) Q st.
Proof.
  intros (Hc & Hl & Hm) HQ. unfold wp.
  destruct (writeLog_spec env level data st) as (-> & Hrl & Hcfg & Hmet & _).
  apply HQ. repeat split; congruence.
Qed.

Lemma run_rateLimitError (msg : string) (context : obj)
    (Q : Result unit -> Mailer -> Prop) (st : Mailer) (l : RecipientLimits)
    (m : Metrics) :
  holds cfg recipient l m st ->
  (forall e st',
     code e = "ERATELIMIT" -> details_type e = "rate_limit_error" ->
     message e = msg -> holds cfg recipient l m st' -> Q (Throw e) st') ->
  wp (rateLimitError env msg context) Q st.
Proof.
  intros (Hc & Hl & Hm) HQ. unfold wp. simpl.
  apply HQ; repeat split; assumption.
Qed.

Lemma run_limitsOf (Q : Result RecipientLimits -> Mailer -> Prop) (st : Mailer)
    (l : RecipientLimits) (m : Metrics) :
  holds cfg recipient l m st -> Q (Ok l) st -> wp (limitsOf recipient) Q st.
Proof. intros (Hc & Hl & Hm). apply wp_limitsOf, Hl. Qed.

Lemma run_config (Q : Result MailerConfig -> Mailer -> Prop) (st : Mailer)
    (l : RecipientLimits) (m : Metrics) :
  holds cfg recipient l m st -> Q (Ok cfg) st -> wp (gets config) Q st.
Proof. intros (Hc & Hl & Hm). apply wp_config, Hc. Qed.

Lemma run_materialize_known (Q : Result unit -> Mailer -> Prop) (st : Mailer)
    (l : RecipientLimits) (m : Metrics) :
  holds cfg recipient l m st -> Q (Ok tt) st ->
  wp (materialize recipient now) Q st.
Proof.
  intros (Hc & Hl & Hm) HQ. unfold wp, materialize, bind, gets. simpl.
  rewrite Hl. exact HQ.
Qed.

Lemma run_materialize_new (Q : Result unit -> Mailer -> Prop) (st : Mailer) :
  config st = cfg -> rateLimits st !! recipient = None ->
  (forall st', holds cfg recipient (freshLimits now) (metrics st) st' ->
               Q (Ok tt) st') ->
  wp (materialize recipient now) Q st.
Proof.
  intros Hc Hl HQ. unfold wp, materialize, bind, gets. simpl.
  rewrite Hl. simpl. apply HQ. repeat split; simpl; try assumption.
  apply lookup_insert_eq.
Qed.

Lemma run_throw {T : Type} (e : MailError) (Q : Result T -> Mailer -> Prop)
    (st : Mailer) :
  Q (Throw e) st -> wp (throw e) Q st.
Proof. trivial. Qed.

(** One statement of the controller. *)
Ltac run_step :=
  lazymatch goal with
  | |- wp (bind _ _) _ _ => apply wp_bind
  | |- wp (ret _) _ _ => apply wp_ret
  | |- wp (throw _) _ _ => apply run_throw
  | H : holds cfg recipient ?l ?m ?st |- wp (gets config) _ ?st =>
      apply (run_config _ st l m H)
  | H : holds cfg recipient ?l ?m ?st |- wp (limitsOf recipient) _ ?st =>
      apply (run_limitsOf _ st l m H)
  | H : holds cfg recipient ?l ?m ?st |- wp (materialize recipient now) _ ?st =>
      apply (run_materialize_known _ st l m H)
  | H : holds cfg recipient ?l ?m ?st |- wp (setLimits recipient ?f) _ ?st =>
      apply (run_setLimits f _ st l m H); clear H; clear st; intros st H
  | H : holds cfg recipient ?l ?m ?st |- wp (metric ?f) _ ?st =>
      apply (run_metric f _ st l m H); clear H; clear st; intros st H
  | H : holds cfg recipient ?l ?m ?st |- wp (writeLog env ?lvl ?d) _ ?st =>
      apply (run_writeLog lvl d _ st l m H); clear H; clear st; intros st H
  | H : holds cfg recipient ?l ?m ?st
    |- wp (rateLimitError env ?msg ?ctx) _ ?st =>
      let e := fresh "e" in
      let Hcode := fresh "Hcode" in
      let Htype := fresh "Htype" in
      let Hmsg := fresh "Hmsg" in
      apply (run_rateLimitError msg ctx _ st l m H); clear H; clear st;
      intros e st Hcode Htype Hmsg H
  | |- wp (if ?b then _ else _) _ _ =>
      let E := fresh "E" in destruct b eqn:E
  end; cbv beta iota.

Ltac as_props :=
  repeat match goal with
    | H : (_ <? _) = true |- _ => apply Z.ltb_lt in H
    | H : (_ <? _) = false |- _ => apply Z.ltb_ge in H
    | H : (_ >=? _) = true |- _ => rewrite Z.geb_leb in H; apply Z.leb_le in H
    | H : (_ >=? _) = false |- _ => rewrite Z.geb_leb in H; apply Z.leb_gt in H
    | H : (_ >? _) = true |- _ => rewrite Z.gtb_ltb in H; apply Z.ltb_lt in H
    | H : (_ >? _) = false |- _ => rewrite Z.gtb_ltb in H; apply Z.ltb_ge in H
    end.

Ltac run_all :=
  unfold checkRateLimitAt, rapidAttemptCheck, banCheck,
    consecutiveFailureCheck, windowReset, burstCheck;
  repeat run_step; simpl in *; as_props.

Lemma leaves_intro (Q : Result unit -> RecipientLimits -> Metrics -> Prop)
    (res : Result unit) (st : Mailer) (l : RecipientLimits) (m : Metrics) :
  holds cfg recipient l m st -> Q res l m -> leaves recipient Q res st.
Proof. intros (Hc & Hl & Hm) HQ. exists l. rewrite Hm. auto. Qed.

Ltac run_finish Hnr :=
  unfold assign, incr, decr, rapid_trips, rapidPeriodOf, maxRapidAttemptsOf,
    rapidBanDurationOf, failureBanDurationOf, maxConsecutiveFailuresOf,
    failureCooldownOf, cooldownPeriodOf, effectiveBurstLimit in *;
  try solve [exfalso; first [lia | congruence | apply Hnr; lia]].

Ltac run_leaf :=
  eapply leaves_intro; [eassumption|]; simpl;
  unfold assign, incr, decr;
  repeat match goal with
    | |- _ /\ _ => split
    | |- exists _ : MailError, _ => eexists
    end;
  eauto; try lia; try congruence.

Lemma ban_is_enforced_at (st : Mailer) (l : RecipientLimits) (m : Metrics) :
  holds cfg recipient l m st ->
  banned l = true -> now < banExpiry l ->
  wp (checkRateLimitAt env recipient now)
    (leaves recipient (fun res l' m' =>
       (exists e,
          res = Throw e
          /\ if validTime (banExpiry l)
             then code e = "ERATELIMIT"
                  /\ details_type e = "rate_limit_error"
             else (code e = "ERATELIMIT" /\ message e = rapidMessage)
                  \/ (e = invalidTimeValue
                      /\ last_email_status m' = StatusFailure
                      /\ errors_rate_limit (errors_by_type m')
                         = errors_rate_limit (errors_by_type m) + 1))
       /\ banned l' = true /\ count l' = count l)) st.
Proof.
  intros H Hb He. destruct (validTime (banExpiry l)) eqn:Hvalid.
  - run_all; run_finish I; run_leaf.
  - run_all; run_finish I; eapply leaves_intro; try eassumption; simpl;
      unfold assign, incr, rapidMessage;
      (split; [eexists; split; [reflexivity|]|split; congruence]);
      first [left; split; assumption | right; repeat split; lia].
Qed.

Lemma first_sighting_at (st : Mailer) :
  config st = cfg -> rateLimits st !! recipient = None ->
  1 < maxRapidAttemptsOf cfg -> 0 < maxConsecutiveFailuresOf cfg ->
  reaches 0 (effectiveBurstLimit cfg) = false ->
  wp (checkRateLimitAt env recipient now)
    (leaves recipient (fun res l' m' =>
       res = Ok tt
       /\ l' = {| count := 1; lastReset := now; banned := false;
                  banExpiry := 0; consecutiveFailures := 0;
                  lastFailure := 0; rapidAttempts := 1;
                  lastAttempt := now |}
       /\ m' = metrics st)) st.
Proof.
  intros Hc Hl Hrapid Hfail Hburst. unfold checkRateLimitAt.
  apply wp_bind. apply (run_materialize_new _ st Hc Hl). intros st0 H.
  cbv beta iota. generalize dependent (metrics st). intros m H.
  clear Hc Hl. run_all; run_finish I; run_leaf.
Qed.

Lemma count_moves_at (st : Mailer) (l : RecipientLimits) (m : Metrics) :
  holds cfg recipient l m st ->
  wp (checkRateLimitAt env recipient now)
    (leaves recipient (fun res l' m' =>
       match res with
       | Ok _ => count l' = count l + 1 \/ count l' = 1
       | Throw _ => count l' = count l \/ count l' = 0
       end)) st.
Proof.
  intros H. run_all; run_finish I; run_leaf.
Qed.

Lemma burst_is_enforced_at (st : Mailer) (l : RecipientLimits) (m : Metrics) :
  holds cfg recipient l m st ->
  banned l = false -> ~ rapid_trips cfg now l ->
  consecutiveFailures l < maxConsecutiveFailuresOf cfg ->
  now - lastReset l <= cooldownPeriodOf cfg ->
  reaches (count l) (effectiveBurstLimit cfg) = true ->
  wp (checkRateLimitAt env recipient now)
    (leaves recipient (fun res l' m' =>
       (exists e, res = Throw e /\ code e = "ERATELIMIT"
                  /\ message e = "Rate limit exceeded for recipient")
       /\ count l' = count l
       /\ rate_limit_exceeded_total m' = rate_limit_exceeded_total m + 1
       /\ errors_rate_limit (errors_by_type m')
          = errors_rate_limit (errors_by_type m) + 1
       /\ last_email_status m' = StatusFailure)) st.
Proof.
  intros H Hb Hnr Hcf Hwin Hburst.
  run_all; run_finish Hnr; run_leaf.
Qed.

Lemma admission_at (st : Mailer) (l : RecipientLimits) (m : Metrics) :
  holds cfg recipient l m st ->
  banned l = false -> ~ rapid_trips cfg now l ->
  consecutiveFailures l < maxConsecutiveFailuresOf cfg
  \/ failureCooldownOf cfg <= now - lastFailure l ->
  reaches (if now - lastReset l >? cooldownPeriodOf cfg then 0 else count l)
    (effectiveBurstLimit cfg) = false ->
  wp (checkRateLimitAt env recipient now)
    (leaves recipient (fun res l' m' =>
       res = Ok tt
       /\ count l'
          = (if now - lastReset l >? cooldownPeriodOf cfg then 1
             else count l + 1)
       /\ lastReset l'
          = (if now - lastReset l >? cooldownPeriodOf cfg then now
             else lastReset l)
       /\ consecutiveFailures l'
          = (if consecutiveFailures l >=? maxConsecutiveFailuresOf cfg then 0
             else consecutiveFailures l)
       /\ lastAttempt l' = now /\ banned l' = false
       /\ m' = m)) st.
Proof.
  intros H Hb Hnr Hcf Hburst.
  unfold cooldownPeriodOf, maxConsecutiveFailuresOf in *.
  run_all;
    repeat match goal with
      | H : context [?a >? ?b] |- _ =>
          destruct (Z.gtb_spec a b); try lia
      | |- context [?a >? ?b] => destruct (Z.gtb_spec a b); try lia
      | |- context [?a >=? ?b] => destruct (Z.geb_spec a b); try lia
      end;
    run_finish Hnr; run_leaf.
Qed.

Lemma failures_ban_at (st : Mailer) (l : RecipientLimits) (m : Metrics) :
  holds cfg recipient l m st ->
  banned l = false -> ~ rapid_trips cfg now l ->
  maxConsecutiveFailuresOf cfg <= consecutiveFailures l ->
  now - lastFailure l < failureCooldownOf cfg ->
  wp (checkRateLimitAt env recipient now)
    (leaves recipient (fun res l' m' =>
       (exists e, res = Throw e /\ code e = "ERATELIMIT"
                  /\ message e = "Too many consecutive failures for recipient")
       /\ banned l' = true
       /\ banExpiry l' = now + failureBanDurationOf cfg
       /\ count l' = count l
       /\ banned_recipients_count m' = banned_recipients_count m + 1
       /\ errors_rate_limit (errors_by_type m')
          = errors_rate_limit (errors_by_type m) + 1
       /\ last_email_status m' = StatusFailure)) st.
Proof.
  intros H Hb Hnr Hcf Hcool.
  run_all; run_finish Hnr; run_leaf.
Qed.

Lemma expired_ban_at (st : Mailer) (l : RecipientLimits) (m : Metrics) :
  holds cfg recipient l m st ->
  banned l = true -> banExpiry l <= now -> ~ rapid_trips cfg now l ->
  0 < maxConsecutiveFailuresOf cfg ->
  reaches 0 (effectiveBurstLimit cfg) = false ->
  wp (checkRateLimitAt env recipient now)
    (leaves recipient (fun res l' m' =>
       res = Ok tt
       /\ l' = {| count := 1; lastReset := now; banned := false;
                  banExpiry := banExpiry l; consecutiveFailures := 0;
                  lastFailure := lastFailure l; rapidAttempts := 0;
                  lastAttempt := now |}
       /\ banned_recipients_count m' = banned_recipients_count m - 1)) st.
Proof.
  intros H Hb He Hnr Hcf Hburst.
  run_all; run_finish Hnr; run_leaf.
Qed.

Lemma rapid_ban_at (st : Mailer) (l : RecipientLimits) (m : Metrics) :
  holds cfg recipient l m st ->
  rapid_trips cfg now l ->
  wp (checkRateLimitAt env recipient now)
    (leaves recipient (fun res l' m' =>
       (exists e, res = Throw e /\ code e = "ERATELIMIT"
                  /\ message e = rapidMessage)
       /\ banned l' = true
       /\ banExpiry l' = now + rapidBanDurationOf cfg
       /\ rapidAttempts l' = rapidAttempts l + 1
       /\ count l' = count l
       /\ banned_recipients_count m' = banned_recipients_count m + 1
       /\ last_email_status m' = last_email_status m
       /\ errors_by_type m' = errors_by_type m)) st.
Proof.
  intros H [Hperiod Hmax].
  run_all; run_finish I; run_leaf.
Qed.

Lemma count_from_zero_at (st : Mailer) :
  config st = cfg -> rateLimits st !! recipient = None ->
  wp (checkRateLimitAt env recipient now)
    (leaves recipient (fun res l' m' =>
       match res with
       | Ok _ => count l' = 0 + 1 \/ count l' = 1
       | Throw _ => count l' = 0 \/ count l' = 0
       end)) st.
Proof.
  intros Hc Hl. unfold checkRateLimitAt.
  apply wp_bind. apply (run_materialize_new _ st Hc Hl). intros st0 H.
  cbv beta iota. generalize dependent (metrics st). intros m H.
  clear Hc Hl. run_all; run_finish I; run_leaf.
Qed.

(** The [RangeError] comes from an entry that was banned, until a time
    that [Date] cannot hold, when the call began. *)
Ltac range_leaf :=
  eapply leaves_intro; [eassumption|]; simpl;
  let Heq := fresh "Heq" in
  intros Heq;
  first [ discriminate Heq
        | injection Heq as ->;
          match goal with
          | H : code invalidTimeValue = _ |- _ => discriminate H
          end
        | split; congruence
        | exfalso; congruence ].

Lemma range_error_at (st : Mailer) (l : RecipientLimits) (m : Metrics) :
  holds cfg recipient l m st ->
  wp (checkRateLimitAt env recipient now)
    (leaves recipient (fun res l' m' =>
       res = Throw invalidTimeValue ->
       banned l = true /\ validTime (banExpiry l) = false)) st.
Proof.
  intros H. run_all; range_leaf.
Qed.

Lemma range_error_new (st : Mailer) :
  config st = cfg -> rateLimits st !! recipient = None ->
  wp (checkRateLimitAt env recipient now)
    (leaves recipient (fun res l' m' => res <> Throw invalidTimeValue)) st.
Proof.
  intros Hc Hl. unfold checkRateLimitAt.
  apply wp_bind. apply (run_materialize_new _ st Hc Hl). intros st0 H.
  cbv beta iota. generalize dependent (metrics st). intros m H.
  clear Hc Hl. run_all; range_leaf.
Qed.

End Controller.

Section ControllerClaims.
Variable env : Env.

Lemma checkRateLimit_at (recipient : string) (st : Mailer)
    (Q : Result unit -> Mailer -> Prop) :
  wp (checkRateLimitAt env recipient (env_now env (tick st))) Q
    (upd_tick S st) ->
  Q (fst (checkRateLimit env recipient st))
    (snd (checkRateLimit env recipient st)).
Proof.
  unfold wp, checkRateLimit, bind, dateNow. simpl.
  destruct (checkRateLimitAt env recipient _ _) as [[[]|e] st']; trivial.
Qed.

Lemma holds_start (recipient : string) (st : Mailer) (l : RecipientLimits) :
  rateLimits st !! recipient = Some l ->
  holds (config st) recipient l (metrics st) (upd_tick S st).
Proof. intros Hl. repeat split; assumption. Qed.

Lemma checkRateLimit_range_error (recipient : string) (st : Mailer) :
  fst (checkRateLimit env recipient st) = Throw invalidTimeValue ->
  endlessly_banned st recipient.
Proof.
  intros Hthrown. unfold endlessly_banned.
  destruct (rateLimits st !! recipient) as [l|] eqn:Hl.
  - exists l. split; [reflexivity|].
    destruct (checkRateLimit_at recipient st _
                (range_error_at env (config st) recipient _ _ l (metrics st)
                   (holds_start recipient st l Hl)))
      as (l' & _ & H).
    exact (H Hthrown).
  - destruct (checkRateLimit_at recipient st _
                (range_error_new env (config st) recipient
                   (env_now env (tick st)) (upd_tick S st) eq_refl Hl))
      as (l' & _ & H).
    destruct (H Hthrown).
Qed.

(** X16: while a ban is active every call for the recipient is turned
    down: with [banned] set and [now < banExpiry], [checkRateLimit] throws
    and leaves the recipient banned and its count as it was.  Where the
    ban expiry is a time value that [Date] can hold (at most 8.64e15 ms
    either way) the error is [ERATELIMIT] / [rate_limit_error].  Where it
    is not, the call throws [ERATELIMIT] only if it trips the rapid-attempt
    ban; otherwise line 223 throws the [RangeError] "Invalid time value",
    which has neither [code] nor [details], after the status and
    [errors_by_type.rate_limit] have been updated. *)
Theorem active_ban_rejects :
  forall (recipient : string) (st : Mailer) (l : RecipientLimits),
    rateLimits st !! recipient = Some l ->
    banned l = true ->
    env_now env (tick st) < banExpiry l ->
    let res := fst (checkRateLimit env recipient st) in
    let st' := snd (checkRateLimit env recipient st) in
    exists l' : RecipientLimits,
      rateLimits st' !! recipient = Some l'
      /\ (exists e,
            res = Throw e
            /\ if validTime (banExpiry l)
               then code e = "ERATELIMIT"
                    /\ details_type e = "rate_limit_error"
               else (code e = "ERATELIMIT" /\ message e = rapidMessage)
                    \/ (e = invalidTimeValue
                        /\ last_email_status (metrics st') = StatusFailure
                        /\ errors_rate_limit (errors_by_type (metrics st'))
                           = errors_rate_limit
                               (errors_by_type (metrics st)) + 1))
      /\ banned l' = true /\ count l' = count l.
Proof.
  intros recipient st l Hl Hb He. cbv zeta.
  exact (checkRateLimit_at recipient st _
           (ban_is_enforced_at env (config st) recipient _ _ l (metrics st)
              (holds_start recipient st l Hl) Hb He)).
Qed.

(** X17: the first call for a recipient is admitted when more than one
    rapid attempt is allowed, the failure limit is positive and a count
    of zero does not reach the burst limit ([0 >= burstLimit] is false: the
    limit is positive, or [NaN]): it returns, and the new entry has a
    count of one, one rapid attempt, no ban and no failure, and the time of
    the call as window start and as last attempt.  The metrics are
    untouched. *)
Theorem first_sighting_is_admitted :
  forall (recipient : string) (st : Mailer),
    rateLimits st !! recipient = None ->
    1 < maxRapidAttemptsOf (config st) ->
    0 < maxConsecutiveFailuresOf (config st) ->
    reaches 0 (effectiveBurstLimit (config st)) = false ->
    let now := env_now env (tick st) in
    let res := fst (checkRateLimit env recipient st) in
    let st' := snd (checkRateLimit env recipient st) in
    res = Ok tt
    /\ rateLimits st' !! recipient
       = Some {| count := 1; lastReset := now; banned := false;
                 banExpiry := 0; consecutiveFailures := 0; lastFailure := 0;
                 rapidAttempts := 1; lastAttempt := now |}
    /\ metrics st' = metrics st.
Proof.
  intros recipient st Hl Hrapid Hfail Hburst. cbv zeta.
  pose proof (checkRateLimit_at recipient st (leaves recipient _)
                (first_sighting_at env (config st) recipient
                   (env_now env (tick st)) (upd_tick S st)
                   eq_refl Hl Hrapid Hfail Hburst)) as H.
  destruct H as (l' & Hl' & Hres & -> & Hm). auto.
Qed.

(** X18: the count moves only on admission: when [checkRateLimit] returns
    the count is the old one plus one, or one after a reset; when it throws
    the count is the old one, or zero after a reset.  A recipient seen for
    the first time starts from zero. *)
Theorem count_moves_only_on_admission :
  forall (recipient : string) (st : Mailer),
    let before := default 0 (count <$> rateLimits st !! recipient) in
    let res := fst (checkRateLimit env recipient st) in
    let st' := snd (checkRateLimit env recipient st) in
    exists l' : RecipientLimits,
      rateLimits st' !! recipient = Some l'
      /\ match res with
         | Ok _ => count l' = before + 1 \/ count l' = 1
         | Throw _ => count l' = before \/ count l' = 0
         end.
Proof.
  intros recipient st. cbv zeta.
  destruct (rateLimits st !! recipient) as [l|] eqn:Hl; simpl.
  - exact (checkRateLimit_at recipient st _
             (count_moves_at env (config st) recipient _ _ l (metrics st)
                (holds_start recipient st l Hl))).
  - exact (checkRateLimit_at recipient st _
             (count_from_zero_at env (config st) recipient
                (env_now env (tick st)) (upd_tick S st) eq_refl Hl)).
Qed.

(** X19: the burst limit within a window: for a recipient that is not
    banned, not tripping the rapid-attempt check and under the failure
    limit, whose window is still open and whose count has reached the burst
    limit ([count >= burstLimit], whatever number the limit is),
    [checkRateLimit] throws "Rate limit exceeded for recipient",
    leaves the count, adds one to [rate_limit_exceeded_total] and to
    [errors_by_type.rate_limit] and sets the status to failure. *)
Theorem burst_limit_rejects :
  forall (recipient : string) (st : Mailer) (l : RecipientLimits),
    let now := env_now env (tick st) in
    rateLimits st !! recipient = Some l ->
    banned l = false ->
    ~ rapid_trips (config st) now l ->
    consecutiveFailures l < maxConsecutiveFailuresOf (config st) ->
    now - lastReset l <= cooldownPeriodOf (config st) ->
    reaches (count l) (effectiveBurstLimit (config st)) = true ->
    let res := fst (checkRateLimit env recipient st) in
    let st' := snd (checkRateLimit env recipient st) in
    exists l' : RecipientLimits,
      rateLimits st' !! recipient = Some l'
      /\ (exists e, res = Throw e /\ code e = "ERATELIMIT"
                    /\ message e = "Rate limit exceeded for recipient")
      /\ count l' = count l
      /\ rate_limit_exceeded_total (metrics st')
         = rate_limit_exceeded_total (metrics st) + 1
      /\ errors_rate_limit (errors_by_type (metrics st'))
         = errors_rate_limit (errors_by_type (metrics st)) + 1
      /\ last_email_status (metrics st') = StatusFailure.
Proof.
  intros recipient st l now Hl Hb Hnr Hcf Hwin Hburst. cbv zeta.
  exact (checkRateLimit_at recipient st _
           (burst_is_enforced_at env (config st) recipient _ _ l (metrics st)
              (holds_start recipient st l Hl) Hb Hnr Hcf Hwin Hburst)).
Qed.

(** X20: admission: for a recipient that is not banned and does not trip
    the rapid-attempt check, whose failures are under the limit or older
    than the failure cooldown, [checkRateLimit] returns when the count (zero
    if the window is over) has not reached the burst limit
    ([count >= burstLimit] is false).  The count is then one
    and the window starts anew if the window was over, and the count is one
    more otherwise; failures at the limit are forgiven; the metrics are
    untouched. *)
Theorem admission_counts_the_send :
  forall (recipient : string) (st : Mailer) (l : RecipientLimits),
    let now := env_now env (tick st) in
    let stale := now - lastReset l >? cooldownPeriodOf (config st) in
    rateLimits st !! recipient = Some l ->
    banned l = false ->
    ~ rapid_trips (config st) now l ->
    consecutiveFailures l < maxConsecutiveFailuresOf (config st)
    \/ failureCooldownOf (config st) <= now - lastFailure l ->
    reaches (if stale then 0 else count l) (effectiveBurstLimit (config st))
    = false ->
    let res := fst (checkRateLimit env recipient st) in
    let st' := snd (checkRateLimit env recipient st) in
    exists l' : RecipientLimits,
      rateLimits st' !! recipient = Some l'
      /\ res = Ok tt
      /\ count l' = (if stale then 1 else count l + 1)
      /\ lastReset l' = (if stale then now else lastReset l)
      /\ consecutiveFailures l'
         = (if consecutiveFailures l >=? maxConsecutiveFailuresOf (config st)
            then 0 else consecutiveFailures l)
      /\ lastAttempt l' = now /\ banned l' = false
      /\ metrics st' = metrics st.
Proof.
  intros recipient st l now stale Hl Hb Hnr Hcf Hburst. cbv zeta.
  exact (checkRateLimit_at recipient st _
           (admission_at env (config st) recipient _ _ l (metrics st)
              (holds_start recipient st l Hl) Hb Hnr Hcf Hburst)).
Qed.

(** X21: too many consecutive failures: for a recipient that is not
    banned and does not trip the rapid-attempt check, with
    [consecutiveFailures] at the limit and the last failure within the
    failure cooldown, [checkRateLimit] throws "Too many consecutive failures
    for recipient", bans the recipient until [now + (banDuration ?? 7200000)]
    and adds one to [banned_recipients_count] and [errors_by_type.rate_limit]. *)
Theorem consecutive_failures_ban :
  forall (recipient : string) (st : Mailer) (l : RecipientLimits),
    let now := env_now env (tick st) in
    rateLimits st !! recipient = Some l ->
    banned l = false ->
    ~ rapid_trips (config st) now l ->
    maxConsecutiveFailuresOf (config st) <= consecutiveFailures l ->
    now - lastFailure l < failureCooldownOf (config st) ->
    let res := fst (checkRateLimit env recipient st) in
    let st' := snd (checkRateLimit env recipient st) in
    exists l' : RecipientLimits,
      rateLimits st' !! recipient = Some l'
      /\ (exists e,
            res = Throw e /\ code e = "ERATELIMIT"
            /\ message e = "Too many consecutive failures for recipient")
      /\ banned l' = true
      /\ banExpiry l' = now + failureBanDurationOf (config st)
      /\ count l' = count l
      /\ banned_recipients_count (metrics st')
         = banned_recipients_count (metrics st) + 1
      /\ errors_rate_limit (errors_by_type (metrics st'))
         = errors_rate_limit (errors_by_type (metrics st)) + 1
      /\ last_email_status (metrics st') = StatusFailure.
Proof.
  intros recipient st l now Hl Hb Hnr Hcf Hcool. cbv zeta.
  exact (checkRateLimit_at recipient st _
           (failures_ban_at env (config st) recipient _ _ l (metrics st)
              (holds_start recipient st l Hl) Hb Hnr Hcf Hcool)).
Qed.

(** X22: an expired ban is lifted by the next call: with [banned] set and
    [now >= banExpiry], for a call that does not trip the rapid-attempt
    check, a positive failure limit and a burst limit that a count of zero
    does not reach, [checkRateLimit] returns,
    the entry is reset (count one, window and last attempt at [now], no
    failures, no rapid attempts, not banned) and [banned_recipients_count]
    goes down by one. *)
Theorem expired_ban_is_lifted :
  forall (recipient : string) (st : Mailer) (l : RecipientLimits),
    let now := env_now env (tick st) in
    rateLimits st !! recipient = Some l ->
    banned l = true ->
    banExpiry l <= now ->
    ~ rapid_trips (config st) now l ->
    0 < maxConsecutiveFailuresOf (config st) ->
    reaches 0 (effectiveBurstLimit (config st)) = false ->
    let res := fst (checkRateLimit env recipient st) in
    let st' := snd (checkRateLimit env recipient st) in
    res = Ok tt
    /\ rateLimits st' !! recipient
       = Some {| count := 1; lastReset := now; banned := false;
                 banExpiry := banExpiry l; consecutiveFailures := 0;
                 lastFailure := lastFailure l; rapidAttempts := 0;
                 lastAttempt := now |}
    /\ banned_recipients_count (metrics st')
       = banned_recipients_count (metrics st) - 1.
Proof.
  intros recipient st l now Hl Hb He Hnr Hcf Hburst. cbv zeta.
  pose proof (checkRateLimit_at recipient st (leaves recipient _)
                (expired_ban_at env (config st) recipient
                   (env_now env (tick st)) (upd_tick S st) l (metrics st)
                   (holds_start recipient st l Hl) Hb He Hnr Hcf Hburst)) as H.
  destruct H as (l' & Hl' & Hres & -> & Hm). auto.
Qed.

(** X23: the rapid-attempt ban: a call within the rapid period of the last
    attempt that brings [rapidAttempts] to the maximum throws "Too many
    rapid sending attempts", bans the recipient until
    [now + (banDuration || 7200000)] and adds one to
    [banned_recipients_count], already banned or not.  Unlike the other
    rejections it leaves [last_email_status] and [errors_by_type] alone. *)
Theorem rapid_attempts_ban :
  forall (recipient : string) (st : Mailer) (l : RecipientLimits),
    let now := env_now env (tick st) in
    rateLimits st !! recipient = Some l ->
    rapid_trips (config st) now l ->
    let res := fst (checkRateLimit env recipient st) in
    let st' := snd (checkRateLimit env recipient st) in
    exists l' : RecipientLimits,
      rateLimits st' !! recipient = Some l'
      /\ (exists e, res = Throw e /\ code e = "ERATELIMIT"
                    /\ message e = rapidMessage)
      /\ banned l' = true
      /\ banExpiry l' = now + rapidBanDurationOf (config st)
      /\ rapidAttempts l' = rapidAttempts l + 1
      /\ count l' = count l
      /\ banned_recipients_count (metrics st')
         = banned_recipients_count (metrics st) + 1
      /\ last_email_status (metrics st') = last_email_status (metrics st)
      /\ errors_by_type (metrics st') = errors_by_type (metrics st).
Proof.
  intros recipient st l now Hl Htrip. cbv zeta.
  exact (checkRateLimit_at recipient st _
           (rapid_ban_at env (config st) recipient _ _ l (metrics st)
              (holds_start recipient st l Hl) Htrip)).
Qed.

End ControllerClaims.

Ltac by_ltb := apply Z.ltb_lt; vm_compute; reflexivity.
Ltac by_leb := apply Z.leb_le; vm_compute; reflexivity.
Ltac no_rapid_trip :=
  let H := fresh in
  intros [H _]; apply Z.ltb_lt in H; vm_compute in H; discriminate H.

Lemma active_ban_rejects_witness :
  exists l' : RecipientLimits,
    rateLimits (snd (checkRateLimit Sample.world "a@b.co"
                       (sampleEntry bannedEntry))) !! "a@b.co" = Some l'
    /\ (exists e,
          fst (checkRateLimit Sample.world "a@b.co" (sampleEntry bannedEntry))
          = Throw e
          /\ code e = "ERATELIMIT" /\ details_type e = "rate_limit_error")
    /\ banned l' = true /\ count l' = 0.
Proof.
  assert (Hl : rateLimits (sampleEntry bannedEntry) !! "a@b.co"
               = Some bannedEntry) by (vm_compute; reflexivity).
  assert (Hnow : env_now Sample.world (tick (sampleEntry bannedEntry))
                 < banExpiry bannedEntry) by by_ltb.
  destruct (active_ban_rejects Sample.world "a@b.co"
              (sampleEntry bannedEntry) bannedEntry Hl eq_refl Hnow)
    as (l' & Hl' & (e & He & Hcode) & Hbanned & Hcount).
  exists l'. split; [exact Hl'|]. split; [|split; assumption].
  exists e. split; [exact He|exact Hcode].
Defined.

Lemma first_sighting_is_admitted_witness :
  fst (checkRateLimit Sample.world "a@b.co" burstTwoMailer) = Ok tt
  /\ rateLimits (snd (checkRateLimit Sample.world "a@b.co" burstTwoMailer))
       !! "a@b.co"
     = Some (entryOf 1 (sampleNow burstTwoMailer) false 0 0 0 1
               (sampleNow burstTwoMailer))
  /\ metrics (snd (checkRateLimit Sample.world "a@b.co" burstTwoMailer))
     = metrics burstTwoMailer.
Proof.
  apply (first_sighting_is_admitted Sample.world "a@b.co" burstTwoMailer).
  - vm_compute. reflexivity.
  - by_ltb.
  - by_ltb.
  - vm_compute. reflexivity.
Defined.

Lemma burst_limit_rejects_witness :
  exists l' : RecipientLimits,
    rateLimits (snd (checkRateLimit Sample.world "a@b.co"
                       (sampleEntry fullEntry))) !! "a@b.co" = Some l'
    /\ (exists e,
          fst (checkRateLimit Sample.world "a@b.co" (sampleEntry fullEntry))
          = Throw e
          /\ code e = "ERATELIMIT"
          /\ message e = "Rate limit exceeded for recipient")
    /\ count l' = 2
    /\ rate_limit_exceeded_total
         (metrics (snd (checkRateLimit Sample.world "a@b.co"
                          (sampleEntry fullEntry))))
       = rate_limit_exceeded_total (metrics (sampleEntry fullEntry)) + 1
    /\ errors_rate_limit
         (errors_by_type
            (metrics (snd (checkRateLimit Sample.world "a@b.co"
                             (sampleEntry fullEntry)))))
       = errors_rate_limit (errors_by_type (metrics (sampleEntry fullEntry)))
         + 1
    /\ last_email_status
         (metrics (snd (checkRateLimit Sample.world "a@b.co"
                          (sampleEntry fullEntry))))
       = StatusFailure.
Proof.
  apply (burst_limit_rejects Sample.world "a@b.co" (sampleEntry fullEntry)
           fullEntry).
  - vm_compute. reflexivity.
  - reflexivity.
  - no_rapid_trip.
  - by_ltb.
  - by_leb.
  - vm_compute. reflexivity.
Defined.

Lemma admission_counts_the_send_witness :
  exists l' : RecipientLimits,
    rateLimits (snd (checkRateLimit Sample.world "a@b.co"
                       (sampleEntry staleEntry))) !! "a@b.co" = Some l'
    /\ fst (checkRateLimit Sample.world "a@b.co" (sampleEntry staleEntry))
       = Ok tt
    /\ count l' = 1
    /\ lastReset l' = sampleNow (sampleEntry staleEntry)
    /\ consecutiveFailures l' = 0
    /\ lastAttempt l' = sampleNow (sampleEntry staleEntry)
    /\ banned l' = false
    /\ metrics (snd (checkRateLimit Sample.world "a@b.co"
                       (sampleEntry staleEntry)))
       = metrics (sampleEntry staleEntry).
Proof.
  apply (admission_counts_the_send Sample.world "a@b.co"
           (sampleEntry staleEntry) staleEntry).
  - vm_compute. reflexivity.
  - reflexivity.
  - no_rapid_trip.
  - left. by_ltb.
  - vm_compute. reflexivity.
Defined.

Lemma consecutive_failures_ban_witness :
  exists l' : RecipientLimits,
    rateLimits (snd (checkRateLimit Sample.world "a@b.co"
                       (sampleEntry failingEntry))) !! "a@b.co" = Some l'
    /\ (exists e,
          fst (checkRateLimit Sample.world "a@b.co" (sampleEntry failingEntry))
          = Throw e
          /\ code e = "ERATELIMIT"
          /\ message e = "Too many consecutive failures for recipient")
    /\ banned l' = true
    /\ banExpiry l' = sampleNow (sampleEntry failingEntry) + 7200000
    /\ count l' = 0
    /\ banned_recipients_count
         (metrics (snd (checkRateLimit Sample.world "a@b.co"
                          (sampleEntry failingEntry))))
       = banned_recipients_count (metrics (sampleEntry failingEntry)) + 1
    /\ errors_rate_limit
         (errors_by_type
            (metrics (snd (checkRateLimit Sample.world "a@b.co"
                             (sampleEntry failingEntry)))))
       = errors_rate_limit
           (errors_by_type (metrics (sampleEntry failingEntry))) + 1
    /\ last_email_status
         (metrics (snd (checkRateLimit Sample.world "a@b.co"
                          (sampleEntry failingEntry))))
       = StatusFailure.
Proof.
  apply (consecutive_failures_ban Sample.world "a@b.co"
           (sampleEntry failingEntry) failingEntry).
  - vm_compute. reflexivity.
  - reflexivity.
  - no_rapid_trip.
  - by_leb.
  - by_ltb.
Defined.

Lemma expired_ban_is_lifted_witness :
  fst (checkRateLimit Sample.world "a@b.co" (sampleEntry expiredEntry))
  = Ok tt
  /\ rateLimits (snd (checkRateLimit Sample.world "a@b.co"
                        (sampleEntry expiredEntry))) !! "a@b.co"
     = Some (entryOf 1 (sampleNow (sampleEntry expiredEntry)) false
               1600007200000 0 1600000000000 0
               (sampleNow (sampleEntry expiredEntry)))
  /\ banned_recipients_count
       (metrics (snd (checkRateLimit Sample.world "a@b.co"
                        (sampleEntry expiredEntry))))
     = banned_recipients_count (metrics (sampleEntry expiredEntry)) - 1.
Proof.
  apply (expired_ban_is_lifted Sample.world "a@b.co"
           (sampleEntry expiredEntry) expiredEntry).
  - vm_compute. reflexivity.
  - reflexivity.
  - by_leb.
  - no_rapid_trip.
  - by_ltb.
  - vm_compute. reflexivity.
Defined.

Lemma rapid_attempts_ban_witness :
  exists l' : RecipientLimits,
    rateLimits (snd (checkRateLimit Sample.world "a@b.co"
                       (sampleEntry rapidEntry))) !! "a@b.co" = Some l'
    /\ (exists e,
          fst (checkRateLimit Sample.world "a@b.co" (sampleEntry rapidEntry))
          = Throw e
          /\ code e = "ERATELIMIT" /\ message e = rapidMessage)
    /\ banned l' = true
    /\ banExpiry l' = sampleNow (sampleEntry rapidEntry) + 7200000
    /\ rapidAttempts l' = 10
    /\ count l' = 1
    /\ banned_recipients_count
         (metrics (snd (checkRateLimit Sample.world "a@b.co"
                          (sampleEntry rapidEntry))))
       = banned_recipients_count (metrics (sampleEntry rapidEntry)) + 1
    /\ last_email_status
         (metrics (snd (checkRateLimit Sample.world "a@b.co"
                          (sampleEntry rapidEntry))))
       = last_email_status (metrics (sampleEntry rapidEntry))
    /\ errors_by_type
         (metrics (snd (checkRateLimit Sample.world "a@b.co"
                          (sampleEntry rapidEntry))))
       = errors_by_type (metrics (sampleEntry rapidEntry)).
Proof.
  apply (rapid_attempts_ban Sample.world "a@b.co" (sampleEntry rapidEntry)
           rapidEntry).
  - vm_compute. reflexivity.
  - split; [by_ltb|by_leb].
Defined.

(** ** Mailer facade: what a send does to the counters *)

Section Mwp.

Lemma mwp_ret {A : Type} (a : A) (P : Metrics -> Prop)
    (Qok : A -> Metrics -> Prop) (Qthrow : MailError -> Metrics -> Prop) :
  (forall m, P m -> Qok a m) -> mwp (ret a) P Qok Qthrow.
Proof. intros H st HP. simpl. auto. Qed.

Lemma mwp_throw {A : Type} (e : MailError) (P : Metrics -> Prop)
    (Qok : A -> Metrics -> Prop) (Qthrow : MailError -> Metrics -> Prop) :
  (forall m, P m -> Qthrow e m) -> mwp (throw e) P Qok Qthrow.
Proof. intros H st HP. simpl. auto. Qed.

Lemma mwp_bind {A B : Type} (m : M A) (k : A -> M B) (P : Metrics -> Prop)
    (R : A -> Metrics -> Prop) (Qok : B -> Metrics -> Prop)
    (Qthrow : MailError -> Metrics -> Prop) :
  mwp m P R Qthrow -> (forall a, mwp (k a) (R a) Qok Qthrow) ->
  mwp (bind m k) P Qok Qthrow.
Proof.
  intros Hm Hk st HP. specialize (Hm st HP). unfold bind.
  destruct (m st) as [[a|e] st']; simpl in *; [|exact Hm].
  apply Hk, Hm.
Qed.

Lemma mwp_attempt {A B : Type} (m : M A) (h : MailError -> M B)
    (k : A -> M B) (P : Metrics -> Prop) (R1 : A -> Metrics -> Prop)
    (R2 : MailError -> Metrics -> Prop) (Qok : B -> Metrics -> Prop)
    (Qthrow : MailError -> Metrics -> Prop) :
  mwp m P R1 R2 ->
  (forall e, mwp (h e) (R2 e) Qok Qthrow) ->
  (forall a, mwp (k a) (R1 a) Qok Qthrow) ->
  mwp (attempt m h k) P Qok Qthrow.
Proof.
  intros Hm Hh Hk st HP. specialize (Hm st HP). unfold attempt.
  destruct (m st) as [[a|e] st']; simpl in *; [apply Hk|apply Hh]; exact Hm.
Qed.

Lemma mwp_weaken {A : Type} (m : M A) (P P' : Metrics -> Prop)
    (Qok Qok' : A -> Metrics -> Prop)
    (Qthrow Qthrow' : MailError -> Metrics -> Prop) :
  mwp m P Qok Qthrow ->
  (forall x, P' x -> P x) ->
  (forall a x, Qok a x -> Qok' a x) ->
  (forall e x, Qthrow e x -> Qthrow' e x) ->
  mwp m P' Qok' Qthrow'.
Proof.
  intros Hm HP Hok Hthrow st H. specialize (Hm st (HP _ H)).
  destruct (fst (m st)); auto.
Qed.

(** A method that keeps [P] returns or throws with [P]. *)
Lemma mwp_keeps {A : Type} (m : M A) (P : Metrics -> Prop) :
  keeps P m -> mwp m P (fun _ => P) (fun _ => P).
Proof. intros Hm st HP. specialize (Hm st HP). destruct (fst (m st)); exact Hm. Qed.

Lemma plain_for_each {A : Type} (xs : list A) (body : A -> M unit)
    (P : Metrics -> Prop) (Qthrow : MailError -> Metrics -> Prop) :
  (forall x, mwp (body x) P (fun _ => P) Qthrow) ->
  mwp (for_each xs body) P (fun _ => P) Qthrow.
Proof.
  intros Hbody. induction xs as [|x rest IH]; simpl.
  - apply mwp_ret. auto.
  - eapply mwp_bind; [apply Hbody|intros u; exact IH].
Qed.

End Mwp.

Section Accounting.
Variable env : Env.
Variable c : Z * Z * Z.

Lemma counted_frame (k : Z * Z * Z) (m m' : Metrics) :
  core m' = core m -> counted k m -> counted k m'.
Proof.
  unfold counted, counters, core. intros H <-. injection H as -> -> -> _.
  reflexivity.
Qed.

Lemma mwp_kept {A : Type} (m : M A) (P : Metrics -> Prop)
    (Qthrow : MailError -> Metrics -> Prop) :
  keeps P m -> (forall e x, P x -> Qthrow e x) ->
  mwp m P (fun _ => P) Qthrow.
Proof.
  intros Hm Hthrow. eapply mwp_weaken; [apply mwp_keeps, Hm|..]; auto.
Qed.

Lemma mwp_gets {A : Type} (f : Mailer -> A) (P : Metrics -> Prop)
    (Qthrow : MailError -> Metrics -> Prop) :
  mwp (gets f) P (fun _ => P) Qthrow.
Proof. intros st H. exact H. Qed.

Lemma mwp_dateNow (P : Metrics -> Prop) (Qthrow : MailError -> Metrics -> Prop) :
  mwp (dateNow env) P (fun _ => P) Qthrow.
Proof. intros st H. exact H. Qed.

Lemma mwp_ask {A : Type} (oracle : Env -> nat -> A) (P : Metrics -> Prop)
    (Qthrow : MailError -> Metrics -> Prop) :
  mwp (ask env oracle) P (fun _ => P) Qthrow.
Proof. intros st H. exact H. Qed.

Lemma mwp_metric (f : Metrics -> Metrics) (P : Metrics -> Prop)
    (Qthrow : MailError -> Metrics -> Prop) :
  (forall x, P x -> P (f x)) -> mwp (metric f) P (fun _ => P) Qthrow.
Proof. intros Hf st H. simpl. auto. Qed.

Lemma mwp_setLimits (recipient : string)
    (f : RecipientLimits -> RecipientLimits) (P : Metrics -> Prop)
    (Qthrow : MailError -> Metrics -> Prop) :
  mwp (setLimits recipient f) P (fun _ => P) Qthrow.
Proof. intros st H. exact H. Qed.

Lemma mwp_writeLog (level : string) (data : obj) (P : Metrics -> Prop)
    (Qthrow : MailError -> Metrics -> Prop) :
  mwp (writeLog env level data) P (fun _ => P) Qthrow.
Proof.
  intros st H.
  destruct (writeLog_spec env level data st) as (-> & _ & _ & -> & _).
  exact H.
Qed.

Lemma mwp_when (b : bool) (m : M unit) (P : Metrics -> Prop)
    (Qthrow : MailError -> Metrics -> Prop) :
  mwp m P (fun _ => P) Qthrow -> mwp (when b m) P (fun _ => P) Qthrow.
Proof. intros Hm. destruct b; [exact Hm|]. apply mwp_ret. auto. Qed.

Lemma mwp_updateMetrics_success (sendTime : Z)
    (Qthrow : MailError -> Metrics -> Prop) :
  mwp (updateMetrics env true sendTime) (counted c)
    (fun _ m => counted (oneMoreSuccess c) m
                /\ last_email_status m = StatusSuccess
                /\ consecutive_failures m = 0)
    Qthrow.
Proof.
  intros st H.
  destruct (updateMetrics_counters env true sendTime st)
    as (Ht & Hs & Hf & Hstatus & Hrun).
  replace (fst (updateMetrics env true sendTime st)) with (Ok tt : Result unit)
    by reflexivity.
  cbv zeta in *. unfold counted, counters in *. subst c.
  unfold oneMoreSuccess. rewrite Ht, Hs, Hf. repeat split; auto.
  repeat f_equal; lia.
Qed.

Lemma mwp_updateMetrics_failure (sendTime : Z)
    (Qthrow : MailError -> Metrics -> Prop) :
  mwp (updateMetrics env false sendTime) (counted c)
    (fun _ => failed_once c) Qthrow.
Proof.
  intros st H.
  destruct (updateMetrics_counters env false sendTime st)
    as (Ht & Hs & Hf & Hstatus & Hrun).
  replace (fst (updateMetrics env false sendTime st)) with (Ok tt : Result unit)
    by reflexivity.
  cbv zeta in *. unfold failed_once, counted, counters in *. subst c.
  unfold oneMoreFailure. rewrite Ht, Hs, Hf. split; auto.
  repeat f_equal; lia.
Qed.

(** One statement that cannot throw. *)
Ltac stays :=
  intros ? HP;
  first [ exact HP
        | split; [exact (proj1 HP) | first [exact (proj2 HP) | reflexivity]] ].

Ltac statement :=
  match goal with
  | |- mwp (gets _) _ _ _ => apply mwp_gets
  | |- mwp (dateNow _) _ _ _ => apply mwp_dateNow
  | |- mwp (ask _ _) _ _ _ => apply mwp_ask
  | |- mwp (metric _) _ _ _ => apply mwp_metric; stays
  | |- mwp (failureStats _) _ _ _ => apply mwp_metric; stays
  | |- mwp (setLimits _ _) _ _ _ => apply mwp_setLimits
  | |- mwp (writeLog _ _ _) _ _ _ => apply mwp_writeLog
  | |- mwp (updateMetrics _ true _) _ _ _ => apply mwp_updateMetrics_success
  | |- mwp (updateMetrics _ false _) _ _ _ => apply mwp_updateMetrics_failure
  | |- mwp (countErrorType _) _ _ _ =>
      unfold countErrorType;
      repeat match goal with
        | |- mwp (if ?b then _ else _) _ _ _ => destruct b
        end;
      apply mwp_metric; stays
  end.

Ltac statements :=
  repeat match goal with
    | |- mwp (bind (for_each _ _) _) _ _ _ =>
        eapply mwp_bind; [apply plain_for_each; intros ?|intros ?; cbv beta]
    | |- mwp (bind (when _ _) _) _ _ _ =>
        eapply mwp_bind; [apply mwp_when|intros ?; cbv beta]
    | |- mwp (bind _ _) _ _ _ =>
        eapply mwp_bind; [statement|intros ?; cbv beta]
    | |- mwp (for_each _ _) _ _ _ => apply plain_for_each; intros ?
    | |- mwp (let _ := _ in _) _ _ _ => cbv zeta
    | |- mwp (match ?x with Some _ => _ | None => _ end) _ _ _ => destruct x
    | |- mwp (ret _) _ _ _ => apply mwp_ret; intros ? HP; exact HP
    | |- _ => statement
    end.

Lemma sendFailed_counts_one_failure (options : MailOptions)
    (recipientList : list string) (startTime : Z) (socket : option nat)
    (currentCommand : string) (error : MailError)
    (Qok : SendResult -> Metrics -> Prop) :
  mwp (sendFailed env options recipientList startTime socket currentCommand
         error)
    (counted c) Qok (fun _ => failed_once c).
Proof.
  unfold sendFailed. statements. apply mwp_throw. auto.
Qed.

(** A block of the [try] statement that leaves the counters alone. *)
Ltac kept_block :=
  keeps_structure;
  match goal with
  | |- keeps _ (sendCommand _ _ _) =>
      apply keeps_sendCommand; apply counted_frame
  | |- keeps _ (socketEvent _) =>
      apply keeps_socketEvent; apply counted_frame
  | |- keeps _ (createConnection _) =>
      apply keeps_createConnection; apply counted_frame
  | |- keeps _ (buildMimeMessage _ _ _) =>
      apply keeps_buildMimeMessage; apply counted_frame
  | |- keeps _ (verifyConnection _) =>
      apply keeps_verifyConnection; apply counted_frame
  | |- keeps _ (validateRecipient _ _) =>
      apply keeps_validateRecipient; apply counted_frame
  | |- keeps _ (checkRateLimit _ _) =>
      apply keeps_checkRateLimit; apply counted_frame
  | |- keeps _ (ask _ _) => apply keeps_ask; apply counted_frame
  | |- keeps _ (dateNow _) => apply keeps_dateNow; apply counted_frame
  | |- keeps _ (writeLog _ _ _) => apply keeps_writeLog; apply counted_frame
  end.

Lemma sendData_counts_one_success (options : MailOptions)
    (recipientList : list string) (startTime : Z) (socket : nat) :
  mwp (sendData env options recipientList startTime socket)
    (counted c) (sent_once c) (fun _ => counted c).
Proof.
  unfold sendData, generateBoundary.
  eapply mwp_bind; [apply mwp_gets|intros cfg; cbv beta].
  eapply mwp_bind; [apply mwp_kept; [kept_block|auto]|intros ?; cbv beta].
  eapply mwp_bind; [apply mwp_kept; [kept_block|auto]|intros ?; cbv beta].
  eapply mwp_bind; [apply mwp_kept; [kept_block|auto]|intros ?; cbv beta].
  eapply mwp_bind; [apply mwp_kept; [kept_block|auto]|intros ?; cbv beta].
  statements. apply mwp_ret. intros m (Hc & Hs & Hf). unfold sent_once. auto.
Qed.

Lemma mwp_finally_close {A : Type} (m : M A) (socket : nat)
    (P : Metrics -> Prop) (Qok : A -> Metrics -> Prop)
    (Qthrow : MailError -> Metrics -> Prop) :
  mwp m P Qok Qthrow ->
  (forall a x, Qok a x -> Qok a (upd_active_connections decr x)) ->
  (forall e x, Qthrow e x -> Qthrow e (upd_active_connections decr x)) ->
  mwp (finally m (closeSocket socket)) P Qok Qthrow.
Proof.
  intros Hm Hok Hthrow st HP. specialize (Hm st HP). unfold finally.
  destruct (m st) as [[a|e] st']; simpl in *; unfold closeSocket;
    destruct (negb _); simpl; auto.
Qed.

Lemma transaction_counts_one_outcome (options : MailOptions)
    (recipientList : list string) :
  mwp (transaction env options recipientList)
    (counted c) (sent_once c) (fun _ => failed_once c).
Proof.
  unfold transaction.
  eapply mwp_bind; [apply mwp_gets|intros cfg; cbv beta].
  eapply mwp_bind; [apply mwp_dateNow|intros startTime; cbv beta zeta].
  eapply mwp_attempt;
    [apply mwp_keeps; kept_block
    |intros e; apply sendFailed_counts_one_failure
    |intros socket].
  apply mwp_finally_close; [|intros a x H; exact H|intros e x H; exact H].
  repeat (eapply mwp_attempt;
    [apply mwp_keeps; kept_block
    |intros e; apply sendFailed_counts_one_failure
    |intros ?]).
  eapply mwp_attempt;
    [apply sendData_counts_one_success
    |intros e; apply sendFailed_counts_one_failure
    |intros r; apply mwp_ret; auto].
Qed.

Lemma sendMail_mwp (options : MailOptions) :
  mwp (sendMail env options)
    (counted c) (sent_once c) (fun _ m => counted c m \/ failed_once c m).
Proof.
  unfold sendMail.
  eapply mwp_bind; [apply mwp_gets|intros cfg; cbv beta].
  eapply mwp_bind;
    [apply mwp_kept; [unfold logAttempt; kept_block|auto]|intros ?; cbv beta].
  eapply mwp_bind; [apply mwp_kept; [kept_block|auto]|intros verified; cbv beta].
  destruct (negb verified).
  - statements. apply mwp_throw. auto.
  - cbv zeta.
    eapply mwp_bind; [apply mwp_kept; [kept_block|auto]|intros ?; cbv beta].
    eapply mwp_bind; [apply mwp_kept; [kept_block|auto]|intros ?; cbv beta].
    eapply mwp_weaken; [apply transaction_counts_one_outcome|..]; auto.
Qed.

End Accounting.

Section SendAccounting.
Variable env : Env.

(** X24: [sendMail] returns only after counting the send as a success
    exactly once, with the status set to success and the run of failures
    reset; when it throws, no success is counted and the send is counted
    as a failure at most once. *)
Theorem sendMail_counts_each_outcome :
  forall (options : MailOptions) (st : Mailer),
    let m := metrics st in
    let m' := metrics (snd (sendMail env options st)) in
    match fst (sendMail env options st) with
    | Ok r =>
        success r = true
        /\ counters m' = oneMoreSuccess (counters m)
        /\ last_email_status m' = StatusSuccess
        /\ consecutive_failures m' = 0
    | Throw _ =>
        counters m' = counters m
        \/ (counters m' = oneMoreFailure (counters m)
            /\ last_email_status m' = StatusFailure)
    end.
Proof.
  intros options st.
  exact (sendMail_mwp env (counters (metrics st)) options st eq_refl).
Qed.

End SendAccounting.

(** ** Mailer facade: the probe and the errors of a send *)

Section Throws.
Context {E : MailError -> Prop}.

Lemma throws_ret {A : Type} (a : A) : throws_only E (ret a).
Proof. intros st e H. discriminate H. Qed.

Lemma throws_throw {A : Type} (e : MailError) :
  E e -> throws_only E (@throw A e).
Proof. intros He st e' H. simpl in H. injection H as <-. exact He. Qed.

Lemma throws_gets {A : Type} (f : Mailer -> A) : throws_only E (gets f).
Proof. intros st e H. discriminate H. Qed.

Lemma throws_modify (f : Mailer -> Mailer) : throws_only E (modify f).
Proof. intros st e H. discriminate H. Qed.

Lemma throws_bind {A B : Type} (m : M A) (k : A -> M B) :
  throws_only E m -> (forall a, throws_only E (k a)) ->
  throws_only E (bind m k).
Proof.
  intros Hm Hk st e. unfold bind. specialize (Hm st).
  destruct (m st) as [[a|e'] st']; simpl in *; [apply Hk|].
  intros H. injection H as <-. apply Hm. reflexivity.
Qed.

(** What the [try] block throws is caught. *)
Lemma throws_try_catch {A : Type} (m : M A) (h : MailError -> M A) :
  (forall e, throws_only E (h e)) -> throws_only E (try_catch m h).
Proof.
  intros Hh st e. unfold try_catch.
  destruct (m st) as [[a|e'] st']; simpl; [discriminate|apply Hh].
Qed.

Lemma throws_attempt {A B : Type} (m : M A) (h : MailError -> M B)
    (k : A -> M B) :
  (forall e, throws_only E (h e)) -> (forall a, throws_only E (k a)) ->
  throws_only E (attempt m h k).
Proof.
  intros Hh Hk st e. unfold attempt.
  destruct (m st) as [[a|e'] st']; simpl; [apply Hk|apply Hh].
Qed.

Lemma throws_finally {A : Type} (m : M A) (f : Mailer -> Mailer) :
  throws_only E m -> throws_only E (finally m f).
Proof.
  intros Hm st e. unfold finally. specialize (Hm st e).
  destruct (m st) as [r st']. exact Hm.
Qed.

Lemma throws_when (b : bool) (m : M unit) :
  throws_only E m -> throws_only E (when b m).
Proof. destruct b; [tauto|]. intros _. apply throws_ret. Qed.

Lemma throws_for_each {A : Type} (xs : list A) (body : A -> M unit) :
  (forall x, throws_only E (body x)) -> throws_only E (for_each xs body).
Proof.
  intros Hbody. induction xs as [|x rest IH]; simpl.
  - apply throws_ret.
  - apply throws_bind; [apply Hbody|intros _; exact IH].
Qed.

End Throws.

(** Takes a method apart down to its [throw] statements. *)
Ltac throw_sites :=
  repeat match goal with
    | |- throws_only _ (ret _) => apply throws_ret
    | |- throws_only _ (gets _) => apply throws_gets
    | |- throws_only _ (modify _) => apply throws_modify
    | |- throws_only _ (metric _) => apply throws_modify
    | |- throws_only _ (failureStats _) => apply throws_modify
    | |- throws_only _ (setLimits _ _) => apply throws_modify
    | |- throws_only _ (socketEvent _) => apply throws_modify
    | |- throws_only _ (limitsOf _) => apply throws_gets
    | |- throws_only _ (bind _ _) => apply throws_bind; [|intros ?]
    | |- throws_only _ (try_catch _ _) => apply throws_try_catch; intros ?
    | |- throws_only _ (attempt _ _ _) =>
        apply throws_attempt; [intros ?|intros ?]
    | |- throws_only _ (finally _ _) => apply throws_finally
    | |- throws_only _ (when _ _) => apply throws_when
    | |- throws_only _ (for_each _ _) => apply throws_for_each; intros ?
    | |- throws_only _ (if ?b then _ else _) => destruct b
    | |- throws_only _ (match ?x with _ => _ end) => destruct x
    | |- throws_only _ (let _ := _ in _) => cbv zeta
    end.

Section Errors.
Variable env : Env.

Lemma throws_dateNow (E : MailError -> Prop) : throws_only E (dateNow env).
Proof. intros st e H. discriminate H. Qed.

Lemma throws_ask {A : Type} (E : MailError -> Prop)
    (oracle : Env -> nat -> A) :
  throws_only E (ask env oracle).
Proof. intros st e H. discriminate H. Qed.

Lemma throws_writeLog (E : MailError -> Prop) (level : string) (data : obj) :
  throws_only E (writeLog env level data).
Proof.
  intros st e H.
  destruct (writeLog_spec env level data st) as (Hok & _).
  rewrite Hok in H. discriminate H.
Qed.

Ltac error_sites :=
  repeat first
    [ progress throw_sites
    | match goal with
      | |- throws_only _ (dateNow _) => apply throws_dateNow
      | |- throws_only _ (ask _ _) => apply throws_ask
      | |- throws_only _ (writeLog _ _ _) => apply throws_writeLog
      | |- throws_only _ (countErrorType _) => unfold countErrorType
      | |- throws_only _ (generateBoundary _) => unfold generateBoundary
      | |- throws_only _ (logAttempt _ _) => unfold logAttempt
      | |- throws_only _ (updateMetrics _ _ _) =>
          intros ? ? Hthrown; discriminate Hthrown
      | |- throws_only _ (rateLimitError _ _ _) => unfold rateLimitError
      | |- throws_only _ (throw _) =>
          apply throws_throw;
          first [ repeat split; reflexivity
                | left; repeat split; reflexivity
                | right; reflexivity ]
      end ].

Lemma throws_weaken {A : Type} (E E' : MailError -> Prop) (m : M A) :
  throws_only E m -> (forall e, E e -> E' e) -> throws_only E' m.
Proof. intros Hm HE st e H. apply HE, (Hm st e H). Qed.

Lemma sendFailed_error (options : MailOptions) (recipientList : list string)
    (startTime : Z) (socket : option nat) (currentCommand : string)
    (error : MailError) :
  throws_only well_formed_error
    (sendFailed env options recipientList startTime socket currentCommand
       error).
Proof.
  unfold sendFailed. error_sites.
  apply throws_throw. unfold well_formed_error, or_str. simpl.
  repeat split;
    match goal with
    | |- JsString.truthy (if JsString.truthy ?s then _ else _) = true =>
        destruct (JsString.truthy s) eqn:Hs; [exact Hs|reflexivity]
    end.
Qed.

Lemma checkRateLimit_error (recipient : string) :
  throws_only (fun e => well_formed_error e \/ e = invalidTimeValue)
    (checkRateLimit env recipient).
Proof.
  unfold checkRateLimit, checkRateLimitAt, materialize, rapidAttemptCheck,
    banCheck, consecutiveFailureCheck, windowReset, burstCheck.
  error_sites.
Qed.

Lemma transaction_error (options : MailOptions) (recipientList : list string) :
  throws_only well_formed_error (transaction env options recipientList).
Proof.
  unfold transaction. error_sites; apply sendFailed_error.
Qed.

Lemma verifyConnection_error : throws_only (fun _ => False) (verifyConnection env).
Proof. unfold verifyConnection. error_sites. Qed.

Lemma sendMail_error (options : MailOptions) :
  throws_only (fun e => well_formed_error e \/ e = invalidTimeValue)
    (sendMail env options).
Proof.
  unfold sendMail.
  apply throws_bind; [apply throws_gets|intros cfg].
  apply throws_bind; [error_sites|intros ?].
  apply throws_bind.
  { intros st e H. destruct (verifyConnection_error st e H). }
  intros verified. destruct (negb verified).
  - error_sites.
  - cbv zeta.
    apply throws_bind;
      [apply throws_for_each; intros r; unfold validateRecipient; error_sites|].
    intros ?. apply throws_bind.
    + apply throws_when, throws_for_each. intros r.
      apply checkRateLimit_error.
    + intros ?. eapply throws_weaken; [apply transaction_error|]. auto.
Qed.

Lemma verifyConnection_metrics (st : Mailer) :
  metrics (snd (verifyConnection env st))
  = probeMetrics (env_connect env (tick st)) (metrics st).
Proof.
  unfold verifyConnection, try_catch, createConnection, bind, gets,
    socketEvent, modify, ask, metric, dateNow, throw, ret, probeMetrics.
  simpl. destruct (env_connect env (tick st)); simpl; [|reflexivity..].
  destruct (truthy_bool (secure (config st))); reflexivity.
Qed.

(** X26: [verifyConnection] never throws; it returns [true] exactly when
    the connection was made.  A probe that connects leaves
    [active_connections] one higher (the socket is ended, the counter is
    not taken back); a probe that fails counts one connection error and
    bumps [errors_by_type.connection] twice on an error, once (next to
    [timeout]) on a timeout. *)
Theorem verifyConnection_outcome :
  forall (st : Mailer),
    let outcome := env_connect env (tick st) in
    let m := metrics st in
    let m' := metrics (snd (verifyConnection env st)) in
    fst (verifyConnection env st) = Ok (connected outcome)
    /\ core m' = core m
    /\ match outcome with
       | Connected =>
           m' = upd_active_connections incr m
       | ConnectTimeout =>
           active_connections m' = active_connections m
           /\ connection_errors m' = connection_errors m + 1
           /\ last_email_status m' = StatusFailure
           /\ errors_timeout (errors_by_type m')
              = errors_timeout (errors_by_type m) + 1
           /\ errors_connection (errors_by_type m')
              = errors_connection (errors_by_type m) + 1
       | ConnectError _ _ =>
           active_connections m' = active_connections m
           /\ connection_errors m' = connection_errors m + 1
           /\ last_email_status m' = StatusFailure
           /\ errors_timeout (errors_by_type m')
              = errors_timeout (errors_by_type m)
           /\ errors_connection (errors_by_type m')
              = errors_connection (errors_by_type m) + 2
       end.
Proof.
  intros st outcome m m'.
  pose proof (verifyConnection_spec env st) as (_ & Hcore & _ & Hres).
  pose proof (verifyConnection_metrics st) as Hm.
  fold outcome in Hres, Hm. fold m in Hm. fold m' in Hm.
  split; [destruct outcome; apply Hres|]. split; [exact Hcore|].
  rewrite Hm. destruct outcome; simpl; unfold incr; repeat split; lia.
Qed.

(** X27: when the probe does not connect, [sendMail] rejects every request
    with [ECONNECTION] before it looks at it: the recipients are neither
    validated nor rate limited, no send is counted and no failure details
    are kept.  The one failed connection is counted three times in
    [errors_by_type.connection], twice on a timeout. *)
Theorem sendMail_unreachable_relay :
  forall (options : MailOptions) (st : Mailer),
    let probed := snd (logAttempt env options st) in
    let outcome := env_connect env (tick probed) in
    outcome <> Connected ->
    exists (e : MailError) (st' : Mailer),
      sendMail env options st = (Throw e, st')
      /\ code e = "ECONNECTION"
      /\ message e = "SMTP connection failed, cannot send email"
      /\ details_type e = "connection_error"
      /\ details_context e
         = [("host", JStr (host (config st))); ("port", JNum (port (config st)))]
      /\ counters (metrics st') = counters (metrics st)
      /\ rateLimits st' = rateLimits st
      /\ failed_emails (metrics st') = failed_emails (metrics st)
      /\ errors_validation (errors_by_type (metrics st'))
         = errors_validation (errors_by_type (metrics st))
      /\ last_email_status (metrics st') = StatusFailure
      /\ connection_errors (metrics st') = connection_errors (metrics st) + 1
      /\ errors_connection (errors_by_type (metrics st'))
         = errors_connection (errors_by_type (metrics st))
           + match outcome with ConnectTimeout => 2 | _ => 3 end
      /\ sockets st'
         = (sockets st
            ++ failedProbeEvents (config st) (tick probed) outcome)%list.
Proof.
  intros options st probed outcome Hdown.
  destruct (logAttempt_spec env options st) as (Hlog & Hc0 & Hm0 & Hr0 & Hs0).
  fold probed in Hc0, Hm0, Hr0, Hs0.
  destruct (verifyConnection_spec env probed) as (Hc1 & _ & Hr1 & Hprobe).
  pose proof (verifyConnection_metrics probed) as Hm1.
  fold outcome in Hprobe, Hm1.
  unfold sendMail, bind at 1, gets. simpl.
  unfold bind at 1.
  destruct (logAttempt env options st) as [res0 st0] eqn:E0.
  simpl in Hlog. subst res0. simpl in probed. subst probed.
  unfold bind at 1.
  destruct (verifyConnection env st0) as [res1 st1] eqn:E1.
  simpl in *.
  assert (Hfalse : res1 = Ok false /\
                   sockets st1
                   = (sockets st0
                      ++ failedProbeEvents (config st0) (tick st0) outcome)%list).
  { destruct outcome; [congruence|exact Hprobe..]. }
  destruct Hfalse as [-> Hsock]. simpl.
  eexists. eexists. split; [reflexivity|]. simpl.
  rewrite Hm1, Hm0, Hr1, Hr0, Hsock, Hs0, Hc0.
  destruct outcome; [congruence|..]; simpl; unfold incr;
    repeat split; lia.
Qed.

End Errors.

Lemma sendMail_unreachable_relay_witness :
  env_connect silentWorld
    (tick (snd (logAttempt silentWorld (Sample.mailTo "a@b.co")
                  Sample.plainMailer)))
  <> Connected
  /\ exists (e : MailError) (st' : Mailer),
       sendMail silentWorld (Sample.mailTo "a@b.co") Sample.plainMailer
       = (Throw e, st')
       /\ code e = "ECONNECTION".
Proof.
  assert (H : env_connect silentWorld
                (tick (snd (logAttempt silentWorld (Sample.mailTo "a@b.co")
                              Sample.plainMailer)))
              <> Connected) by discriminate.
  split; [exact H|].
  destruct (sendMail_unreachable_relay silentWorld (Sample.mailTo "a@b.co")
              Sample.plainMailer H) as (e & st' & Hrun & Hcode & _).
  exists e, st'. split; [exact Hrun|exact Hcode].
Defined.

(** ** MIME composer: all attachments or none *)

Section Composer.
Variable env : Env.

Lemma string_append_assoc (a b c : string) : ((a ++ b) ++ c = a ++ b ++ c)%string.
Proof.
  induction a as [|x a IH]; [reflexivity|].
  change (String x ((a ++ b) ++ c) = String x (a ++ b ++ c))%string.
  f_equal. exact IH.
Qed.

Lemma string_append_nil (a : string) : (a ++ "" = a)%string.
Proof.
  induction a as [|x a IH]; [reflexivity|].
  change (String x (a ++ "") = String x a)%string. f_equal. exact IH.
Qed.

Lemma mimeBodies_appends (options : MailOptions) (boundary message : string) :
  exists parts : string,
    mimeBodies options boundary message = (message ++ parts)%string.
Proof.
  unfold mimeBodies.
  destruct (truthy_str (text options)), (truthy_str (html options));
    eexists; rewrite ?string_append_assoc;
    first [reflexivity | symmetry; apply string_append_nil].
Qed.

Lemma attachmentError_spec (p : string) (st : Mailer) :
  exists (e : MailError) (st' : Mailer),
    attachmentError env p st = (Throw e, st')
    /\ details_context e = [("path", JStr p); ("error", JObj [])]
    /\ attachment_rejected e (metrics st) (metrics st').
Proof.
  eexists. eexists. split; [reflexivity|]. simpl.
  unfold attachment_rejected. simpl. unfold incr. repeat split; lia.
Qed.

Lemma mimeAttachments_all_or_nothing (list : list Attachment)
    (boundary : string) :
  forall (message : string) (st : Mailer),
    if forallb (loadable env) list then
      exists parts : string,
        mimeAttachments env list boundary message st
        = (Ok (message ++ parts)%string, st)
    else
      exists (e : MailError) (st' : Mailer),
        mimeAttachments env list boundary message st = (Throw e, st')
        /\ attachment_rejected e (metrics st) (metrics st').
Proof.
  induction list as [|a rest IH]; intros message st.
  - exists EmptyString. simpl. rewrite string_append_nil. reflexivity.
  - cbn [forallb mimeAttachments]. unfold loadable at 1.
    destruct (truthy_str (path a)) eqn:Hpath.
    + unfold bind, loadAttachment.
      destruct (sanitizePath env (default EmptyString (path a))) as [fp|];
        [destruct (env_readFileSync env fp) as [bytes|]|].
      * cbn [andb ret fst snd].
        match goal with
        | |- context [mimeAttachments env rest boundary ?msg st] =>
            specialize (IH msg st)
        end.
        destruct (forallb (loadable env) rest).
        -- destruct IH as (parts & ->). rewrite string_append_assoc. eauto.
        -- exact IH.
      * cbn [andb].
        destruct (attachmentError_spec (default EmptyString (path a)) st)
          as (e & st' & -> & _ & H). eauto.
      * cbn [andb].
        destruct (attachmentError_spec (default EmptyString (path a)) st)
          as (e & st' & -> & _ & H). eauto.
    + cbn [andb].
      destruct (truthy_content (content a)).
      * match goal with
        | |- context [mimeAttachments env rest boundary ?msg st] =>
            specialize (IH msg st)
        end.
        destruct (forallb (loadable env) rest).
        -- destruct IH as (parts & ->). rewrite string_append_assoc. eauto.
        -- exact IH.
      * exact (IH message st).
Qed.

(** X28: [buildMimeMessage] is all or nothing.  When every attachment
    given by [path] can be loaded it returns the headers, then the parts,
    then the closing [--boundary--] line and a single dot, and leaves
    the mailer as it was.  Otherwise it throws [EATTACHMENT] /
    [attachment_error], having counted one attachment error and set the
    status to failure. *)
Theorem buildMimeMessage_all_or_nothing :
  forall (options : MailOptions) (boundary : string) (st : Mailer),
    if forallb (loadable env) (default [] (attachments options)) then
      exists parts : string,
        buildMimeMessage env options boundary st
        = (Ok (mimeHeaders (config st) options boundary ++ parts
               ++ mimeTerminator boundary)%string, st)
    else
      exists (e : MailError) (st' : Mailer),
        buildMimeMessage env options boundary st = (Throw e, st')
        /\ attachment_rejected e (metrics st) (metrics st').
Proof.
  intros options boundary st.
  unfold buildMimeMessage, bind, gets. cbn [fst snd]. cbv zeta.
  destruct (mimeBodies_appends options boundary
              (mimeHeaders (config st) options boundary)) as (bodies & ->).
  destruct (attachments options) as [list|]; cbn [from_option id forallb].
  - pose proof (mimeAttachments_all_or_nothing list boundary
                  (mimeHeaders (config st) options boundary ++ bodies)%string
                  st) as H.
    destruct (forallb (loadable env) list).
    + destruct H as (parts & Hrun). exists (bodies ++ parts)%string.
      rewrite Hrun. unfold ret, mimeTerminator.
      rewrite !string_append_assoc. reflexivity.
    + destruct H as (e & st' & Hrun & H). exists e, st'.
      rewrite Hrun. split; [reflexivity|exact H].
  - exists bodies. unfold ret, mimeTerminator.
    rewrite !string_append_assoc. reflexivity.
Qed.

End Composer.

(** ** Constructor: the configuration a mailer runs with *)

Section Constructor.
Variable env : Env.

Lemma or_num_nonzero (a : option Z) (d : Z) : d <> 0 -> or_num a d <> 0.
Proof.
  intros Hd. unfold or_num. destruct a as [n|]; [|exact Hd].
  destruct (Z.eqb_spec n 0); assumption.
Qed.

Lemma or_num_again (a : option Z) (d : Z) :
  d <> 0 -> or_num (Some (or_num a d)) d = or_num a d.
Proof.
  intros Hd. unfold or_num at 1.
  destruct (Z.eqb_spec (or_num a d) 0) as [H|H]; [|reflexivity].
  destruct (or_num_nonzero a d Hd H).
Qed.

Lemma or_str_truthy (a : option string) (d : string) :
  JsString.truthy d = true -> JsString.truthy (or_str a d) = true.
Proof.
  intros Hd. unfold or_str. destruct a as [s|]; [|exact Hd].
  destruct (JsString.truthy s) eqn:Hs; assumption.
Qed.

Lemma or_str_again (a : option string) (d : string) :
  JsString.truthy d = true -> or_str (Some (or_str a d)) d = or_str a d.
Proof.
  intros Hd. unfold or_str at 1. rewrite (or_str_truthy a d Hd). reflexivity.
Qed.

Lemma or_bool_again (a : option bool) :
  or_bool (Some (or_bool a false)) false = or_bool a false.
Proof. destruct a as [[|]|]; reflexivity. Qed.

Lemma defaultRateLimiting_again (given : option RateLimiting) :
  defaultRateLimiting (Some (defaultRateLimiting given))
  = defaultRateLimiting given.
Proof.
  destruct given as [r|]; [|reflexivity].
  destruct r as [a b c d e f g h]. unfold defaultRateLimiting. simpl.
  f_equal;
    match goal with
    | |- context [match ?x with _ => _ end] => destruct x; reflexivity
    end.
Qed.

Lemma defaultRateLimiting_complete (given : option RateLimiting) :
  complete (defaultRateLimiting given).
Proof.
  destruct given as [r|];
    [|unfold complete, written; simpl; repeat split; discriminate].
  destruct r as [a b c d e f g h].
  unfold complete, written, defaultRateLimiting. simpl.
  repeat split;
    match goal with
    | |- match ?x with _ => _ end <> _ => destruct x; discriminate
    end.
Qed.

(** The defaulting of the constructor is idempotent. *)
Lemma normalizeConfig_again (c : MailerConfig) :
  normalizeConfig (normalizeConfig c) = normalizeConfig c.
Proof.
  unfold normalizeConfig. cbn [host port secure auth_user auth_pass from
    retryAttempts timeout keepAlive poolSize rateLimiting logging lg level
    format customFields destination].
  rewrite !or_num_again by discriminate.
  rewrite or_bool_again, defaultRateLimiting_again.
  rewrite !or_str_again by reflexivity.
  f_equal. destruct (port c =? 465); reflexivity.
Qed.

Lemma normalizeConfig_normal (c : MailerConfig) :
  JsString.truthy (from c) = true -> normal (normalizeConfig c).
Proof.
  intros Hfrom. unfold normal. split; [apply normalizeConfig_again|].
  unfold normalizeConfig. cbn [host port secure auth_user auth_pass from
    retryAttempts timeout keepAlive poolSize rateLimiting logging].
  split; [exact Hfrom|]. split.
  { intros ->. reflexivity. }
  repeat split;
    try (eexists; split; [reflexivity|apply or_num_nonzero; discriminate]);
    eauto.
  - eexists. split; [reflexivity|apply defaultRateLimiting_complete].
  - eexists. split; [reflexivity|]. cbn [level format customFields truthy_str].
    repeat split; try (apply or_str_truthy; reflexivity). eauto.
Qed.

Lemma newFastMailer_normal (given : MailerConfig) (file : list LogLine)
    (history : list SocketEvent) (t : nat) (st : Mailer) :
  newFastMailer env given file history t = Some st -> normal (config st).
Proof.
  unfold newFastMailer. cbv zeta.
  destruct (JsString.truthy (from (normalizeConfig given))) eqn:Hfrom;
    [|discriminate].
  cbn [negb]. intros H. injection H as <-. cbn [config].
  apply normalizeConfig_normal. exact Hfrom.
Qed.

Lemma methods_keep_config (options : MailOptions) (st : Mailer) :
  config (snd (sendMail env options st)) = config st
  /\ config (snd (verifyConnection env st)) = config st.
Proof.
  assert (Hrefl : forall s, same_setup s s)
    by (intros; unfold same_setup; auto).
  assert (Htrans : forall a b c,
             same_setup a b -> same_setup b c -> same_setup a c).
  { unfold same_setup. intros a b c [? ?] [? ?]. split; congruence. }
  split.
  - apply (steps_sendMail env same_setup (fun _ => True) Hrefl Htrans);
      [intros; unfold same_setup, no_socket_event; simpl; auto..|].
    apply Forall_forall. auto.
  - apply (steps_verifyConnection env same_setup Hrefl Htrans);
      intros; unfold same_setup, no_socket_event; simpl; auto.
Qed.

(** X29: a mailer only ever runs with a configuration the constructor has
    completed: [from] is set (the constructor throws otherwise), port 465
    has forced [secure], [retryAttempts], [timeout] and [poolSize] are set
    and not zero, the logging level and format are filled in, and no
    rate-limiting option is left out: each is written, with its default
    or with what the caller wrote, which may be [undefined] (the spread
    copies it over the default).  Running the constructor's defaulting
    again would change nothing. *)
Theorem reachable_config_is_normal :
  forall st : Mailer, reachable env st -> normal (config st).
Proof.
  intros st Hst. induction Hst as [cfg file history t st Hnew|st options _ IH|st _ IH].
  - exact (newFastMailer_normal cfg file history t st Hnew).
  - rewrite (proj1 (methods_keep_config options st)). exact IH.
  - rewrite (proj2 (methods_keep_config (Sample.mailTo "") st)). exact IH.
Qed.

End Constructor.

Lemma reachable_config_is_normal_witness :
  normal
    (config (snd (sendMail Sample.world (Sample.mailTo "a@b.co")
                    Sample.plainMailer))).
Proof.
  exact (reachable_config_is_normal Sample.world _ sample_reachable).
Defined.

(** ** Mailer facade: the SMTP dialogue of a send that returns *)

Section Traces.
Variable cfg : MailerConfig.

Lemma traces_ret {A : Type} (a : A) (Q : A -> list SocketEvent -> Prop) :
  Q a [] -> traces cfg (ret a) Q.
Proof.
  intros HQ st b st' Hc Hrun. injection Hrun as <- <-.
  split; [exact Hc|]. exists []. rewrite app_nil_r. auto.
Qed.

Lemma traces_bind {A B : Type} (m : M A) (k : A -> M B)
    (Q1 : A -> list SocketEvent -> Prop) (Q : B -> list SocketEvent -> Prop) :
  traces cfg m Q1 ->
  (forall a e1, Q1 a e1 -> traces cfg (k a) (fun b evs => Q b (e1 ++ evs)%list)) ->
  traces cfg (bind m k) Q.
Proof.
  intros Hm Hk st b st'' Hc. unfold bind.
  destruct (m st) as [[a|e] st'] eqn:Hrun; [|discriminate].
  intros Hrest.
  destruct (Hm st a st' Hc Hrun) as (Hc' & e1 & Hs1 & H1).
  destruct (Hk a e1 H1 st' b st'' Hc' Hrest) as (Hc'' & e2 & Hs2 & H2).
  split; [exact Hc''|]. exists (e1 ++ e2)%list.
  rewrite Hs2, Hs1, app_assoc. auto.
Qed.

(** A [catch] block that always rethrows: the statement returned. *)
Lemma traces_attempt {A B : Type} (m : M A) (h : MailError -> M B)
    (k : A -> M B) (Q1 : A -> list SocketEvent -> Prop)
    (Q : B -> list SocketEvent -> Prop) :
  traces cfg m Q1 ->
  (forall e st b st', h e st <> (Ok b, st')) ->
  (forall a e1, Q1 a e1 -> traces cfg (k a) (fun b evs => Q b (e1 ++ evs)%list)) ->
  traces cfg (attempt m h k) Q.
Proof.
  intros Hm Hh Hk st b st'' Hc. unfold attempt.
  destruct (m st) as [[a|e] st'] eqn:Hrun; [|intros H; destruct (Hh _ _ _ _ H)].
  intros Hrest.
  destruct (Hm st a st' Hc Hrun) as (Hc' & e1 & Hs1 & H1).
  destruct (Hk a e1 H1 st' b st'' Hc' Hrest) as (Hc'' & e2 & Hs2 & H2).
  split; [exact Hc''|]. exists (e1 ++ e2)%list.
  rewrite Hs2, Hs1, app_assoc. auto.
Qed.

Lemma traces_finally_close {A : Type} (m : M A) (socket : nat)
    (Q : A -> list SocketEvent -> Prop) :
  traces cfg m
    (fun a evs =>
       Q a (evs ++ (if negb (truthy_bool (keepAlive cfg))
                    then [SockEnd socket] else []))%list) ->
  traces cfg (finally m (closeSocket socket)) Q.
Proof.
  intros Hm st a st'' Hc. unfold finally.
  destruct (m st) as [r st'] eqn:Hrun. intros H. injection H as -> <-.
  destruct (Hm st a st' Hc Hrun) as (Hc' & e1 & Hs1 & H1).
  unfold closeSocket. rewrite Hc'.
  destruct (negb (truthy_bool (keepAlive cfg))); simpl.
  - split; [exact Hc'|]. eexists. rewrite Hs1, <- app_assoc. eauto.
  - split; [exact Hc'|]. rewrite app_nil_r in H1. eauto.
Qed.

Lemma traces_weaken {A : Type} (m : M A)
    (Q Q' : A -> list SocketEvent -> Prop) :
  traces cfg m Q -> (forall a evs, Q a evs -> Q' a evs) -> traces cfg m Q'.
Proof.
  intros Hm HQ st a st' Hc Hrun.
  destruct (Hm st a st' Hc Hrun) as (Hc' & evs & Hs & H). eauto.
Qed.

(** A method that is [quiet] adds no event. *)
Lemma traces_quiet {A : Type} (m : M A) :
  steps quiet m -> traces cfg m (fun _ evs => evs = []).
Proof.
  intros Hm st a st' Hc Hrun. specialize (Hm st). rewrite Hrun in Hm.
  destruct Hm as [H1 H2]. simpl in H1, H2.
  split; [congruence|]. exists []. rewrite app_nil_r. auto.
Qed.

Lemma traces_config :
  traces cfg (gets config) (fun a evs => a = cfg /\ evs = []).
Proof.
  intros st a st' Hc Hrun. injection Hrun as <- <-.
  split; [exact Hc|]. exists []. rewrite app_nil_r. auto.
Qed.

Lemma traces_socketEvent (e : SocketEvent) :
  traces cfg (socketEvent e) (fun _ evs => evs = [e]).
Proof.
  intros st a st' Hc Hrun. injection Hrun as _ <-. simpl. eauto.
Qed.

Lemma traces_when (b : bool) (m : M unit) (evs0 : list SocketEvent) :
  traces cfg m (fun _ evs => evs = evs0) ->
  traces cfg (when b m) (fun _ evs => evs = if b then evs0 else []).
Proof. intros Hm. destruct b; [exact Hm|]. apply traces_ret. reflexivity. Qed.

Lemma traces_for_each {A : Type} (xs : list A) (body : A -> M unit)
    (event : A -> SocketEvent) :
  (forall x, traces cfg (body x) (fun _ evs => evs = [event x])) ->
  traces cfg (for_each xs body) (fun _ evs => evs = map event xs).
Proof.
  intros Hbody. induction xs as [|x rest IH]; simpl.
  - apply traces_ret. reflexivity.
  - eapply traces_bind; [apply Hbody|]. intros _ e1 ->.
    eapply traces_weaken; [exact IH|]. intros _ evs ->. reflexivity.
Qed.

Lemma traces_seq {A B : Type} (m : M A) (k : A -> M B)
    (e1 e2 : list SocketEvent) :
  traces cfg m (fun _ evs => evs = e1) ->
  (forall a, traces cfg (k a) (fun _ evs => evs = e2)) ->
  traces cfg (bind m k) (fun _ evs => evs = (e1 ++ e2)%list).
Proof.
  intros Hm Hk. eapply traces_bind; [exact Hm|]. intros a ? ->.
  eapply traces_weaken; [apply Hk|]. intros _ evs ->. reflexivity.
Qed.

End Traces.

Section Dialogue.
Variable env : Env.
Variable cfg : MailerConfig.

Lemma quiet_refl (st : Mailer) : quiet st st.
Proof. split; reflexivity. Qed.

Lemma quiet_trans (a b c : Mailer) : quiet a b -> quiet b c -> quiet a c.
Proof. intros [? ?] [? ?]. split; congruence. Qed.

(** The methods that do not write to a socket. *)
Ltac quiet_method :=
  match goal with
  | |- steps quiet (writeLog _ _ _) => apply (steps_writeLog env quiet)
  | |- steps quiet (dateNow _) => apply (steps_dateNow env quiet)
  | |- steps quiet (ask _ _) => apply (steps_ask env quiet)
  | |- steps quiet (updateMetrics _ _ _) =>
      apply (steps_updateMetrics env quiet)
  | |- steps quiet (buildMimeMessage _ _ _) =>
      apply (steps_buildMimeMessage env quiet)
  | |- steps quiet (validateRecipient _ _) =>
      apply (steps_validateRecipient env quiet)
  | |- steps quiet (checkRateLimit _ _) =>
      apply (steps_checkRateLimit env quiet (fun _ => True))
  | |- steps quiet (setLimits _ _) =>
      apply (steps_setLimits quiet (fun _ => True))
  | |- steps quiet (for_each _ _) =>
      apply steps_for_each; [| |apply Forall_forall; intros ? _]
  | |- steps quiet (when _ _) => apply steps_when
  | |- steps quiet (bind _ _) => apply steps_bind; [| |intros ?]
  end.

Ltac quietly :=
  repeat first
    [ exact quiet_refl
    | exact quiet_trans
    | exact I
    | quiet_method
    | solve [intros; split; reflexivity] ].

Lemma traces_sendCommand (socket : nat) (command : string) :
  traces cfg (sendCommand env socket command)
    (fun _ evs => evs = [commandLine socket command]).
Proof.
  intros st a st' Hc. unfold sendCommand, bind, socketEvent, modify, ask.
  simpl. destruct (env_command env (tick st)); simpl; [|discriminate].
  intros H. injection H as _ <-. simpl. eauto.
Qed.

Lemma buildMimeMessage_returned (options : MailOptions) (boundary : string) :
  traces cfg (buildMimeMessage env options boundary)
    (fun mimeMessage evs => evs = [] /\ framed cfg options mimeMessage).
Proof.
  intros st a st' Hc Hrun.
  assert (Hq : traces cfg (buildMimeMessage env options boundary)
                 (fun _ evs => evs = [])).
  { apply traces_quiet. quietly. }
  destruct (Hq st a st' Hc Hrun) as (Hc' & evs & Hs & ->).
  split; [exact Hc'|]. exists []. split; [exact Hs|]. split; [reflexivity|].
  revert Hrun. unfold buildMimeMessage, bind, gets. cbn [fst snd]. cbv zeta.
  destruct (mimeBodies_appends options boundary
              (mimeHeaders (config st) options boundary)) as (bodies & ->).
  rewrite Hc. unfold framed.
  destruct (attachments options) as [list|].
  - pose proof (mimeAttachments_all_or_nothing env list boundary
                  (mimeHeaders cfg options boundary ++ bodies)%string st) as H.
    destruct (forallb (loadable env) list).
    + destruct H as (parts & ->). unfold ret. intros Hrun.
      injection Hrun as <- _. exists boundary, (bodies ++ parts)%string.
      unfold mimeTerminator. rewrite !string_append_assoc. reflexivity.
    + destruct H as (e & st1 & -> & _). discriminate.
  - unfold ret. intros Hrun. injection Hrun as <- _.
    exists boundary, bodies. unfold mimeTerminator.
    rewrite !string_append_assoc. reflexivity.
Qed.

Lemma sendFailed_never_returns (options : MailOptions)
    (recipientList : list string) (startTime : Z) (socket : option nat)
    (currentCommand : string) (error : MailError) (st : Mailer)
    (r : SendResult) (st' : Mailer) :
  sendFailed env options recipientList startTime socket currentCommand error st
  <> (Ok r, st').
Proof.
  intros Hrun.
  pose proof (sendFailed_counts_one_failure env (counters (metrics st))
                options recipientList startTime socket currentCommand error
                (fun _ _ => False) st eq_refl) as H.
  rewrite Hrun in H. exact H.
Qed.

(** One quiet statement, then the rest. *)
Ltac quiet_then :=
  eapply traces_bind; [apply traces_quiet; quietly|intros ? ? ->; cbv beta].

Ltac command_then :=
  eapply traces_bind; [apply traces_sendCommand|intros ? ? ->; cbv beta].

Lemma traces_sendData (options : MailOptions) (recipientList : list string)
    (startTime : Z) (socket : nat) :
  traces cfg (sendData env options recipientList startTime socket)
    (fun r evs =>
       recipients r = JsString.join ", " recipientList
       /\ exists mimeMessage,
            framed cfg options mimeMessage
            /\ evs = [commandLine socket "DATA";
                      commandLine socket mimeMessage]).
Proof.
  unfold sendData, generateBoundary.
  eapply traces_bind; [apply traces_config|intros ? ? [-> ->]; cbv beta].
  command_then. quiet_then.
  eapply traces_bind;
    [apply buildMimeMessage_returned|intros mimeMessage ? [-> Hframed]; cbv beta].
  command_then. quiet_then. quiet_then. cbv zeta. quiet_then. quiet_then.
  quiet_then. quiet_then.
  apply traces_ret. split; [reflexivity|]. exists mimeMessage.
  split; [exact Hframed|reflexivity].
Qed.

Lemma createConnection_returned (st : Mailer) (socket : nat) (st' : Mailer) :
  createConnection env st = (Ok socket, st') ->
  socket = tick st /\ config st' = config st
  /\ sockets st' = (sockets st ++ connectEvents (config st) socket)%list.
Proof.
  unfold createConnection, bind, gets, socketEvent, modify, ask, metric.
  simpl. destruct (env_connect env (tick st)); simpl; [|discriminate..].
  unfold connectEvents.
  destruct (truthy_bool (secure (config st))); simpl; intros H;
    injection H as <- <-; simpl; rewrite <- ?app_assoc; auto.
Qed.

(** The session on a socket that has been connected. *)
Lemma transaction_returned (options : MailOptions)
    (recipientList : list string) (st : Mailer) (r : SendResult)
    (st' : Mailer) :
  config st = cfg ->
  transaction env options recipientList st = (Ok r, st') ->
  recipients r = JsString.join ", " recipientList
  /\ exists mimeMessage,
       framed cfg options mimeMessage
       /\ sockets st'
          = (sockets st
             ++ dialogue cfg (S (tick st)) recipientList mimeMessage)%list.
Proof.
  intros Hc. unfold transaction. unfold bind at 1, gets. cbn [fst snd].
  unfold bind at 1, dateNow. cbn [fst snd]. cbv zeta. unfold attempt at 1.
  destruct (createConnection env (upd_tick S st)) as [[socket|e] st1] eqn:Hconn;
    [|intros H; destruct (sendFailed_never_returns _ _ _ _ _ _ _ _ _ H)].
  destruct (createConnection_returned _ _ _ Hconn) as (Hsocket & Hc1 & Hs1).
  simpl in Hsocket, Hc1, Hs1. rewrite Hc in Hc1, Hs1. rewrite Hc.
  subst socket. intros Hrest.
  match type of Hrest with
  | ?session st1 = _ =>
      assert (Hsession :
                traces cfg session
                  (fun r evs =>
                     recipients r = JsString.join ", " recipientList
                     /\ exists mimeMessage,
                          framed cfg options mimeMessage
                          /\ (connectEvents cfg (S (tick st)) ++ evs)%list
                             = dialogue cfg (S (tick st)) recipientList
                                 mimeMessage))
  end.
  { apply traces_finally_close.
    eapply traces_attempt;
      [apply traces_sendCommand
      |intros; apply sendFailed_never_returns
      |intros ? ? ->; cbv beta].
    eapply traces_attempt;
      [apply traces_when;
       eapply traces_seq; [apply traces_sendCommand|intros ?];
       apply traces_socketEvent
      |intros; apply sendFailed_never_returns
      |intros ? ? ->; cbv beta].
    eapply traces_attempt;
      [eapply traces_seq; [apply traces_sendCommand|intros ?];
       eapply traces_seq; [apply traces_sendCommand|intros ?];
       apply traces_sendCommand
      |intros; apply sendFailed_never_returns
      |intros ? ? ->; cbv beta].
    eapply traces_attempt;
      [apply traces_sendCommand
      |intros; apply sendFailed_never_returns
      |intros ? ? ->; cbv beta].
    eapply traces_attempt;
      [apply (traces_for_each cfg recipientList _
                (fun recipient =>
                   commandLine (S (tick st))
                     ("RCPT TO:<" ++ recipient ++ ">")));
       intros recipient;
       eapply traces_bind; [apply traces_sendCommand|intros ? ? ->; cbv beta];
       apply traces_ret; reflexivity
      |intros; apply sendFailed_never_returns
      |intros ? ? ->; cbv beta].
    eapply traces_attempt;
      [apply traces_sendData
      |intros; apply sendFailed_never_returns
      |intros r0 ? (Hr & mimeMessage & Hframed & ->); cbv beta].
    apply traces_ret. split; [exact Hr|]. exists mimeMessage.
    split; [exact Hframed|]. unfold dialogue.
    rewrite <- ?app_assoc. simpl. rewrite <- ?app_assoc. reflexivity. }
  destruct (Hsession st1 r st' Hc1 Hrest)
    as (_ & evs & Hs & Hr & mimeMessage & Hframed & Hdialogue).
  split; [exact Hr|]. exists mimeMessage. split; [exact Hframed|].
  rewrite Hs, Hs1, <- app_assoc, Hdialogue. reflexivity.
Qed.

End Dialogue.

Section DialogueClaim.
Variable env : Env.

(** The probe asks the relay once more. *)
Lemma verifyConnection_tick (st : Mailer) :
  (tick st < tick (snd (verifyConnection env st)))%nat.
Proof.
  unfold verifyConnection, try_catch, createConnection, bind, gets,
    socketEvent, modify, ask, metric, dateNow, throw, ret.
  simpl. destruct (env_connect env (tick st)); simpl; [|lia..].
  destruct (truthy_bool (secure (config st))); simpl; lia.
Qed.

(** A validation loop that returns has changed nothing. *)
Lemma validation_returned (xs : list string) (st st' : Mailer) :
  for_each xs (validateRecipient env) st = (Ok tt, st') ->
  st' = st /\ Forall (fun x => validateEmail x = true) xs.
Proof.
  revert st. induction xs as [|x rest IH]; intros st; simpl.
  - unfold ret. intros H. injection H as <-. auto.
  - unfold bind at 1, validateRecipient at 1.
    destruct (validateEmail x) eqn:Hx; simpl; [|discriminate].
    intros H. destruct (IH st H) as [-> Hrest]. auto.
Qed.

(** The rate-limit loop neither writes to a socket nor turns the tick
    back. *)
Lemma rate_limit_loop (b : bool) (xs : list string) (st : Mailer) :
  let st' := snd (when b (for_each xs (checkRateLimit env)) st) in
  config st' = config st /\ sockets st' = sockets st
  /\ (tick st <= tick st')%nat.
Proof.
  assert (Hquiet : steps quiet (when b (for_each xs (checkRateLimit env)))).
  { apply steps_when; [exact quiet_refl|].
    apply steps_for_each; [exact quiet_refl|exact quiet_trans|].
    apply Forall_forall. intros x _.
    apply (steps_checkRateLimit env quiet (fun _ => True));
      first [exact quiet_refl | exact quiet_trans | exact I
            | intros; split; reflexivity]. }
  assert (Hlater : steps later (when b (for_each xs (checkRateLimit env)))).
  { assert (Hrefl : forall s, later s s) by (intros s; unfold later; lia).
    assert (Htrans : forall a b c, later a b -> later b c -> later a c)
      by (unfold later; intros; lia).
    apply steps_when; [exact Hrefl|].
    apply steps_for_each; [exact Hrefl|exact Htrans|].
    apply Forall_forall. intros x _.
    apply (steps_checkRateLimit env later (fun _ => True));
      first [exact Hrefl | exact Htrans | exact I
            | intros; unfold later; simpl; lia]. }
  intros st'. destruct (Hquiet st) as [Hc Hs]. specialize (Hlater st).
  auto.
Qed.

(** X30: whenever [sendMail] returns, every recipient has passed
    [validateEmail], the result lists the recipients joined with commas,
    and the call has added to the socket history exactly the probe
    (connect, end) followed on a second socket, made after the probe's,
    by: connect, [EHLO host], [STARTTLS] and the TLS upgrade unless the
    configuration is secure, [AUTH LOGIN], the user and the password in
    base64, [MAIL FROM], one [RCPT TO] per recipient in the order To, Cc,
    Bcc, [DATA], the MIME message (its headers first, its closing line
    last) and, unless [keepAlive] is set, the end of the socket. *)
Theorem sendMail_returned_dialogue :
  forall (options : MailOptions) (st : Mailer) (r : SendResult) (st' : Mailer),
    sendMail env options st = (Ok r, st') ->
    Forall (fun x => validateEmail x = true) (allRecipients options)
    /\ recipients r = JsString.join ", " (allRecipients options)
    /\ exists (probe socket : nat) (mimeMessage : string),
         (probe < socket)%nat
         /\ framed (config st) options mimeMessage
         /\ sockets st'
            = (sockets st ++ probeEvents (config st) probe
               ++ dialogue (config st) socket (allRecipients options)
                    mimeMessage)%list.
Proof.
  intros options st r st'.
  destruct (logAttempt_spec env options st) as (Hlog & Hc0 & _ & _ & Hs0).
  unfold sendMail, bind at 1, gets. cbn [fst snd]. unfold bind at 1.
  destruct (logAttempt env options st) as [res0 st0].
  simpl in Hlog, Hc0, Hs0. subst res0. unfold bind at 1.
  destruct (verifyConnection_spec env st0) as (Hc1 & _ & _ & Hprobe).
  pose proof (verifyConnection_tick st0) as Ht1.
  destruct (verifyConnection env st0) as [res1 st1].
  simpl in Hc1, Hprobe, Ht1.
  assert (Hconnected : res1 = Ok true ->
                       sockets st1
                       = (sockets st0 ++ probeEvents (config st0) (tick st0))%list).
  { destruct (env_connect env (tick st0)); destruct Hprobe as [-> Hs];
      first [intros _; exact Hs | discriminate]. }
  destruct res1 as [[|]|e]; [| |discriminate].
  2:{ unfold bind, metric, modify, dateNow. simpl. discriminate. }
  specialize (Hconnected eq_refl). cbn [negb]. cbv zeta.
  unfold bind at 1.
  destruct (for_each (allRecipients options) (validateRecipient env) st1)
    as [[[]|e] st2] eqn:Hvalidation; [|simpl; discriminate].
  destruct (validation_returned _ _ _ Hvalidation) as [-> Hvalid].
  unfold bind at 1.
  pose proof (rate_limit_loop
                (truthy_bool (rl perRecipient (config st)))
                (allRecipients options) st1) as Hloop.
  destruct (when _ _ st1) as [[[]|e] st3]; [|simpl; discriminate].
  simpl in Hloop. destruct Hloop as (Hc3 & Hs3 & Ht3).
  intros Hrun.
  assert (Hcfg : config st3 = config st) by congruence.
  destruct (transaction_returned env (config st) options
              (allRecipients options) st3 r st' Hcfg Hrun)
    as (Hr & mimeMessage & Hframed & Hs).
  split; [exact Hvalid|]. split; [exact Hr|].
  exists (tick st0), (S (tick st3)), mimeMessage.
  split; [lia|]. split; [exact Hframed|].
  rewrite Hs, Hs3, Hconnected, Hs0, Hc0, <- app_assoc. reflexivity.
Qed.

End DialogueClaim.

Lemma sendMail_returned_dialogue_witness :
  exists (r : SendResult) (st' : Mailer),
    sendMail Sample.world (Sample.mailTo "a@b.co") Sample.plainMailer
    = (Ok r, st')
    /\ recipients r = "a@b.co".
Proof.
  assert (E : exists r st',
             sendMail Sample.world (Sample.mailTo "a@b.co") Sample.plainMailer
             = (Ok r, st')).
  { eexists. eexists. vm_compute. reflexivity. }
  destruct E as (r & st' & E). exists r, st'. split; [exact E|].
  exact (proj1 (proj2 (sendMail_returned_dialogue Sample.world
                         (Sample.mailTo "a@b.co") Sample.plainMailer r st' E))).
Defined.

(** ** MIME composer: the header values *)

Section HeaderValues.
Variable env : Env.




End HeaderValues.


(** ** Rate-limit controller: a burst limit that is not a whole number *)


(** A ban expiry that [Date] cannot hold: the check throws the
    [RangeError] of line 223, not [ERATELIMIT]. *)
Example ban_beyond_the_range_of_Date :
  validTime (banExpiry endlessBan) = false
  /\ fst (checkRateLimit Sample.world "a@b.co" (sampleEntry endlessBan))
     = Throw invalidTimeValue.
Proof. split; vm_compute; reflexivity. Qed.

(** An option written as [undefined] goes through the spread of the
    constructor, and the mailer then reads the fallback of line 293. *)
Example undefined_option_replaces_the_default :
  rateLimiting (normalizeConfig undefinedBurstConfig)
  = Some {| perRecipient := Present true; burstLimit := Undefined;
            cooldownPeriod := Present 1000; banDuration := Present 7200000;
            maxConsecutiveFailures := Present 3;
            failureCooldown := Present 300000;
            maxRapidAttempts := Present 10; rapidPeriod := Present 10000 |}
  /\ effectiveBurstLimit (normalizeConfig undefinedBurstConfig) = Fin 5.
Proof. split; reflexivity. Qed.

(** ** Mailer facade: the errors of a send *)

Section ErrorClaims.
Variable env : Env.

Lemma validation_thrown (xs : list string) (st : Mailer) (e : MailError)
    (st' : Mailer) :
  for_each xs (validateRecipient env) st = (Throw e, st') ->
  code e = "EINVALIDEMAIL".
Proof.
  revert st. induction xs as [|x rest IH]; intros st; simpl.
  - unfold ret. discriminate.
  - unfold bind at 1, validateRecipient at 1.
    destruct (validateEmail x); simpl; [apply IH|].
    intros H. injection H as <- _. reflexivity.
Qed.

(** A check of another recipient leaves the entry alone. *)
Lemma checkRateLimit_other (x r : string) (st : Mailer) :
  x <> r ->
  rateLimits (snd (checkRateLimit env x st)) !! r = rateLimits st !! r.
Proof.
  intros Hne.
  apply (steps_checkRateLimit env (entry_untouched r) (fun j => j <> r));
    unfold entry_untouched;
    first [ exact Hne | reflexivity | intros; congruence
          | intros j f s Hj; simpl; apply lookup_alter_ne, Hj
          | intros j l s Hj _; simpl; apply lookup_insert_ne, Hj ].
Qed.

(** The loop over the recipients throws the [RangeError] for a recipient
    that was banned without end when the loop began. *)
Lemma rate_limit_loop_range_error (xs : list string) (st : Mailer) :
  fst (for_each xs (checkRateLimit env) st) = Throw invalidTimeValue ->
  exists r, In r xs /\ endlessly_banned st r.
Proof.
  revert st. induction xs as [|x rest IH]; intros st; simpl.
  - discriminate.
  - unfold bind at 1.
    pose proof (checkRateLimit_range_error env x st) as Hx.
    pose proof (checkRateLimit_spec env x st) as Hspec. unfold wp in Hspec.
    pose proof (fun r => checkRateLimit_other x r st) as Hother.
    destruct (checkRateLimit env x st) as [[[]|e] st1]; simpl in *.
    + intros Hrest. destruct (IH st1 Hrest) as (r & Hin & l & Hl & Hb & Hv).
      exists r. split; [right; exact Hin|].
      destruct (String.eqb_spec x r) as [->|Hne].
      * destruct Hspec as (_ & l' & Hl' & _ & Hunbanned & _).
        assert (l' = l) by congruence. subst l'. congruence.
      * exists l. rewrite <- (Hother r Hne). auto.
    + intros Hthrown. exists x. split; [left; reflexivity|].
      apply Hx. exact Hthrown.
Qed.

(** X25: every error that [sendMail] rejects with has its [code], its
    [message] and its [details.type] set, whichever statement threw it,
    with one exception: the [RangeError] "Invalid time value", an [Error]
    with a message and neither [code] nor [details].  The rate-limit
    check throws it, outside the [try] of [sendMail], and only for a
    recipient of the request whose entry was banned, when the call began,
    until a time that [Date] cannot hold. *)
Theorem sendMail_errors_are_well_formed :
  forall (options : MailOptions) (st : Mailer) (e : MailError),
    fst (sendMail env options st) = Throw e ->
    (JsString.truthy (code e) = true
     /\ JsString.truthy (message e) = true
     /\ JsString.truthy (details_type e) = true)
    \/ (e = invalidTimeValue
        /\ exists r, In r (allRecipients options) /\ endlessly_banned st r).
Proof.
  intros options st e Hthrown.
  destruct (sendMail_error env options st e Hthrown) as [Hwf| ->];
    [left; exact Hwf|].
  right. split; [reflexivity|]. revert Hthrown.
  destruct (logAttempt_spec env options st) as (Hlog & _ & _ & Hr0 & _).
  unfold sendMail, bind at 1, gets. cbn [fst snd]. unfold bind at 1.
  destruct (logAttempt env options st) as [res0 st0].
  simpl in Hlog, Hr0. subst res0. unfold bind at 1.
  destruct (verifyConnection_spec env st0) as (_ & _ & Hr1 & Hprobe).
  destruct (verifyConnection env st0) as [res1 st1]. simpl in Hr1, Hprobe.
  assert (Hres : exists b, res1 = Ok b).
  { destruct (env_connect env (tick st0)); destruct Hprobe as [-> _]; eauto. }
  destruct Hres as ([|] & ->); cbn [negb].
  2:{ unfold bind, metric, modify, dateNow. simpl. discriminate. }
  cbv zeta. unfold bind at 1.
  destruct (for_each (allRecipients options) (validateRecipient env) st1)
    as [[[]|e] st2] eqn:Hvalidation.
  2:{ simpl. intros H. injection H as ->.
      apply validation_thrown in Hvalidation. discriminate Hvalidation. }
  destruct (validation_returned env _ _ _ Hvalidation) as [-> _].
  unfold bind at 1.
  destruct (truthy_bool (rl perRecipient (config st))); unfold when.
  - pose proof (rate_limit_loop_range_error (allRecipients options) st1)
      as Hloop.
    destruct (for_each (allRecipients options) (checkRateLimit env) st1)
      as [[[]|e] st3]; simpl in *.
    + intros H.
      destruct (transaction_error env options (allRecipients options) st3
                  invalidTimeValue H) as (Hcode & _).
      discriminate Hcode.
    + intros H. injection H as ->.
      destruct (Hloop eq_refl) as (r & Hin & l & Hl & Hb & Hv).
      exists r. split; [exact Hin|]. exists l.
      rewrite <- Hr0, <- Hr1. auto.
  - unfold ret. simpl. intros H.
    destruct (transaction_error env options (allRecipients options) st1
                invalidTimeValue H) as (Hcode & _).
    discriminate Hcode.
Qed.

End ErrorClaims.

Lemma sendMail_errors_are_well_formed_witness :
  exists e : MailError,
    fst (sendMail Sample.world (Sample.mailTo "notanemail") Sample.plainMailer)
    = Throw e
    /\ JsString.truthy (code e) = true.
Proof.
  eexists. split; [vm_compute; reflexivity|].
  destruct (sendMail_errors_are_well_formed Sample.world
              (Sample.mailTo "notanemail") Sample.plainMailer _
              ltac:(vm_compute; reflexivity)) as [(Hcode & _)|(Hrange & _)].
  - exact Hcode.
  - discriminate Hrange.
Defined.
